(** * AgentBridge: task supervision and remote-call protocol core

    A shallow embedding of the parts of the AgentBridge framework that
    its specification makes claims about:

    - [Watcher]    : [tasks/watch_tasks.py], the priority queue and the
                     bounded retry loop;
    - [Delegator]  : [agents/supervisors/delegator/remote_agent_connection.py]
                     and [agents/supervisors/delegator/agent.py], the remote
                     task client, the session coordinator and the content-part
                     conversion;
    - [Supervisor] : [start.py], the staged shutdown of the process fleet.

    Python dictionaries whose keys are fixed by the code are records with
    optional fields ([None] = key absent); sets are [gset]; the JSON files
    are the lists they decode to; exceptions are an explicit [result]. *)

From Stdlib Require Import ZArith List String Ascii Bool Lia Permutation Sorted.
From Stdlib Require Import DecimalString.
From stdpp Require Import base gmap strings list sorting.

Open Scope Z_scope.

(* ===================================================================== *)
(** * Python values shared by the three components *)
(* ===================================================================== *)

Module Py.

(** The exceptions the modelled code can raise. *)
Inductive exn : Type :=
| KeyError (key : string)
| AttributeError (msg : string)
| ValueError (msg : string)
| BinasciiError.

(** Outcome of running a piece of code: a value, a raised exception, or
    [Fuel] when a [while True] loop of the source was cut off by the
    model's fuel. *)
Inductive result (A : Type) : Type :=
| Ok (a : A)
| Raise (e : exn)
| Fuel.
Arguments Ok {A} a.
Arguments Raise {A} e.
Arguments Fuel {A}.

Definition bind {A B} (r : result A) (k : A -> result B) : result B :=
  match r with
  | Ok a => k a
  | Raise e => Raise e
  | Fuel => Fuel
  end.

(** [d[key]] on a dictionary field that may be absent. *)
Definition getitem {A} (key : string) (o : option A) : result A :=
  match o with
  | Some a => Ok a
  | None => Raise (KeyError key)
  end.

(** [str.lower()], on the ASCII letters.  The only non-ASCII code point
    that lowers to an ASCII letter is the Kelvin sign (to k), and no key
    the code looks up contains a k. *)
Definition lower_ascii (c : ascii) : ascii :=
  let n := N_of_ascii c in
  if ((65 <=? n) && (n <=? 90))%N then ascii_of_N (n + 32) else c.

Fixpoint lower (s : string) : string :=
  match s with
  | EmptyString => EmptyString
  | String c s' => String (lower_ascii c) (lower s')
  end.

(** [str.strip()]: the ASCII white space of Python's [str.isspace]. *)
Definition is_space (c : ascii) : bool :=
  let n := N_of_ascii c in
  ((n =? 32) || ((9 <=? n) && (n <=? 13)) || ((28 <=? n) && (n <=? 31)))%N.

Fixpoint lstrip (s : string) : string :=
  match s with
  | EmptyString => EmptyString
  | String c s' => if is_space c then lstrip s' else s
  end.

Fixpoint rstrip (s : string) : string :=
  match s with
  | EmptyString => EmptyString
  | String c s' =>
      match rstrip s' with
      | EmptyString => if is_space c then EmptyString else String c EmptyString
      | r => String c r
      end
  end.

Definition strip (s : string) : string := rstrip (lstrip s).

(** Truth value of a string: [not s] holds exactly for the empty one. *)
Definition truthy (s : string) : bool :=
  match s with
  | EmptyString => false
  | String _ _ => true
  end.

(** Truth value of [d.get(key)] for a string-valued key. *)
Definition truthy_opt (o : option string) : bool :=
  match o with
  | Some s => truthy s
  | None => false
  end.

(** [str(n)] for an integer. *)
Definition str_of_Z (z : Z) : string :=
  DecimalString.NilZero.string_of_int (Z.to_int z).


(** ** More of [str] *)

(** [sub in s] for two strings. *)
Fixpoint contains (sub s : string) : bool :=
  String.prefix sub s
  || match s with
     | EmptyString => false
     | String _ s' => contains sub s'
     end.

(** [s.rstrip(chars)]: drop the trailing characters that occur in [chars]. *)
Fixpoint rstrip_chars (chars s : string) : string :=
  match s with
  | EmptyString => EmptyString
  | String c s' =>
      match rstrip_chars chars s' with
      | EmptyString =>
          if contains (String c EmptyString) chars then EmptyString
          else String c EmptyString
      | r => String c r
      end
  end.

(** [s.endswith(suffix)] *)
Fixpoint endswith (s suffix : string) : bool :=
  String.eqb s suffix
  || match s with
     | EmptyString => false
     | String _ s' => endswith s' suffix
     end.

End Py.

#[global] Instance result_ret : MRet Py.result := @Py.Ok.
#[global] Instance result_bind : MBind Py.result := fun A B k r => Py.bind r k.

(* ===================================================================== *)
(** * [heapq], the binary heap of Python's standard library

    The watcher keeps its queue in a list that [heapq.heappush] and
    [heapq.heappop] maintain as an array-based binary min-heap.  The
    functions below follow [Lib/heapq.py]; [lt] is the [<] of the items. *)
(* ===================================================================== *)

Module Heapq.
Section heapq.
Context {A : Type}.
Variable lt : A -> A -> bool.

(** [(pos - 1) >> 1] *)
Definition parent (pos : nat) : nat := (pos - 1) / 2.

(** The [while pos > startpos] loop of [_siftdown]: move the parents that
    are greater than [newitem] one level down. *)
Fixpoint siftdown_loop (fuel : nat) (heap : list A) (startpos pos : nat)
         (newitem : A) : list A :=
  match fuel with
  | O => <[pos := newitem]> heap
  | S fuel' =>
      if (startpos <? pos)%nat then
        match heap !! parent pos with
        | Some par =>
            if lt newitem par
            then siftdown_loop fuel' (<[pos := par]> heap) startpos (parent pos) newitem
            else <[pos := newitem]> heap
        | None => <[pos := newitem]> heap
        end
      else <[pos := newitem]> heap
  end.

(** [_siftdown(heap, startpos, pos)]: [pos] passes through the loop are
    enough, every pass moves [pos] to its parent. *)
Definition _siftdown (heap : list A) (startpos pos : nat) : list A :=
  match heap !! pos with
  | Some newitem => siftdown_loop pos heap startpos pos newitem
  | None => heap
  end.

(** The smaller child of [pos]: the right one when it exists and the left
    one is not smaller than it. *)
Definition smaller_child (heap : list A) (pos : nat) : nat :=
  let childpos := (2 * pos + 1)%nat in
  let rightpos := (childpos + 1)%nat in
  match heap !! childpos, heap !! rightpos with
  | Some l, Some r => if negb (lt l r) then rightpos else childpos
  | _, _ => childpos
  end.

(** The [while childpos < endpos] loop of [_siftup]: bubble the smaller
    child up until a leaf is reached.  Returns the heap and the leaf. *)
Fixpoint siftup_loop (fuel : nat) (heap : list A) (pos : nat) : list A * nat :=
  match fuel with
  | O => (heap, pos)
  | S fuel' =>
      if (2 * pos + 1 <? length heap)%nat then
        let childpos := smaller_child heap pos in
        match heap !! childpos with
        | Some c => siftup_loop fuel' (<[pos := c]> heap) childpos
        | None => (heap, pos)
        end
      else (heap, pos)
  end.

(** [_siftup(heap, pos)]: bring the hole at [pos] down to a leaf, put
    [newitem] there and sift it up again. *)
Definition _siftup (heap : list A) (pos : nat) : list A :=
  match heap !! pos with
  | Some newitem =>
      let '(heap1, leaf) := siftup_loop (length heap) heap pos in
      _siftdown (<[leaf := newitem]> heap1) pos leaf
  | None => heap
  end.

(** [heap.append(item); _siftdown(heap, 0, len(heap) - 1)] *)
Definition heappush (heap : list A) (item : A) : list A :=
  _siftdown (heap ++ [item]) 0 (length heap).

(** [heap.pop()]: the list without its last element, and that element. *)
Fixpoint pop_last (l : list A) : option (list A * A) :=
  match l with
  | [] => None
  | x :: l' =>
      match pop_last l' with
      | Some (r, y) => Some (x :: r, y)
      | None => Some ([], x)
      end
  end.

(** [heappop]; [None] stands for the [IndexError] on an empty heap. *)
Definition heappop (heap : list A) : option (A * list A) :=
  match pop_last heap with
  | None => None
  | Some (heap', lastelt) =>
      match heap' with
      | [] => Some (lastelt, [])
      | returnitem :: _ => Some (returnitem, _siftup (<[0%nat := lastelt]> heap') 0)
      end
  end.

(** ** Vocabulary of the statements *)

(** [a <= b], that is [not (b < a)]. *)
Definition item_le (a b : A) : Prop := lt b a = false.

(** The heap invariant of [heapq]: [heap[(k-1)//2] <= heap[k]]. *)
Definition heap_ok (h : list A) : Prop :=
  ∀ i c p, (1 ≤ i)%nat → h !! i = Some c → h !! parent i = Some p → item_le p c.

(** The edges of the tree that neither end nor start in [pos] are in
    order, and the children of [pos] are not below its parent. *)
Definition edges_ok (h : list A) (pos : nat) : Prop :=
  (∀ i c p, (1 ≤ i)%nat → i ≠ pos → parent i ≠ pos →
            h !! i = Some c → h !! parent i = Some p → item_le p c)
  ∧ (∀ i c g, (1 ≤ pos)%nat → (1 ≤ i)%nat → parent i = pos →
              h !! i = Some c → h !! parent pos = Some g → item_le g c).

(** Every edge is in order, except the one from [pos] to its parent. *)
Definition above_ok (h : list A) (pos : nat) : Prop :=
  ∀ i c p, (1 ≤ i)%nat → i ≠ pos →
           h !! i = Some c → h !! parent i = Some p → item_le p c.

(** The children of [pos] are not below the parent of [pos]. *)
Definition grand_ok (h : list A) (pos : nat) : Prop :=
  ∀ i c g, (1 ≤ pos)%nat → (1 ≤ i)%nat → parent i = pos →
           h !! i = Some c → h !! parent pos = Some g → item_le g c.

End heapq.
End Heapq.

(* ===================================================================== *)
(** * tasks/watch_tasks.py: the task queue and the retry loop *)
(* ===================================================================== *)

Module Watcher.
Import Py.

(** ** Data model *)

(** The [payload] dictionary of a task. *)
Record payload : Type := mkPayload {
  urgency : option string;
  task_text : option string;          (* key "task" *)
  use_async : option bool;
  refined : option bool;
  original_task : option string;
  refined_task : option string }.

(** One element of [attempts_info]. *)
Record attempt_info : Type := mkAttempt {
  try : Z;
  ai_refined_task : option string;    (* key "refined_task" *)
  evaluation_result : string;
  replanned_task : option string;
  refined_replan_task : option string }.

(** A task record, as stored in the pending and the completed file. *)
Record task : Type := mkTask {
  task_id : option string;
  kind : option string;
  task_payload : option payload;      (* key "payload" *)
  attempts : option Z;
  attempts_info : option (list attempt_info);
  status : option string;
  started_at : option string;
  duration_seconds : option Z }.

(** An element of the heap: [(prio, next(seq), tid, t)]. *)
Record entry : Type := mkEntry {
  e_prio : Z;
  e_seq : nat;
  e_tid : option string;
  e_task : task }.

(** [PRIORITY_ORDER = {"urgent": 0, "high": 1, "medium": 2, "low": 3}] *)
Definition PRIORITY_ORDER : gmap string Z :=
  <["urgent" := 0]> (<["high" := 1]> (<["medium" := 2]> (<["low" := 3]> ∅))).

(** [PRIORITY_ORDER["medium"]] *)
Definition PRIORITY_medium : Z := default 2 (PRIORITY_ORDER !! "medium").

(** [(task.get("payload", {}) or {}).get("urgency", "medium")] *)
Definition urgency_of (t : task) : string :=
  match task_payload t with
  | Some p => default "medium" (urgency p)
  | None => "medium"
  end.

(** [PRIORITY_ORDER.get(urgency.lower(), PRIORITY_ORDER["medium"])]; the
    urgency is a string, as in the data model. *)
Definition get_priority (t : task) : Z :=
  default PRIORITY_medium (PRIORITY_ORDER !! lower (urgency_of t)).

(** ** The queue

    The queue is a list kept as a heap by [heapq].  Tuples compare
    lexicographically.  The sequence numbers of the entries of one queue
    are pairwise distinct ([queue_inv] below holds after every turn of the
    main loop), so a comparison is always decided by [(prio, seq)] and
    never reaches the task id or the task dictionary. *)

Definition entry_ltb (a b : entry) : bool :=
  (e_prio a <? e_prio b) ||
  ((e_prio a =? e_prio b) && (e_seq a <? e_seq b)%nat).

Definition heappush (heap : list entry) (item : entry) : list entry :=
  Heapq.heappush entry_ltb heap item.

Definition heappop (heap : list entry) : option (entry * list entry) :=
  Heapq.heappop entry_ltb heap.

(** Pop until the heap is empty; [n] bounds the number of pops. *)
Fixpoint drain (n : nat) (heap : list entry) : list entry :=
  match n with
  | O => []
  | S n' =>
      match heappop heap with
      | None => []
      | Some (e, heap') => e :: drain n' heap'
      end
  end.

Definition pop_all (heap : list entry) : list entry :=
  drain (length heap) heap.

(** ** State of the watcher process *)

Record wstate : Type := mkState {
  seq : nat;                          (* next value of [itertools.count()] *)
  seen_ids : gset string;
  task_queue : list entry;
  idle_state : bool;
  TASK_FILE : list task;              (* task_lists/task_list.json *)
  COMPLETED_FILE : list task;         (* task_lists/completed_tasks.json *)
  RUNNING_FILE : option task;         (* task_lists/running_task.json *)
  tick : nat }.                       (* calls made to the outside world *)

Definition initial (pending : list task) : wstate :=
  mkState 0 ∅ [] false pending [] None 0.

Definition set_seq (n : nat) (s : wstate) : wstate :=
  mkState n (seen_ids s) (task_queue s) (idle_state s) (TASK_FILE s)
          (COMPLETED_FILE s) (RUNNING_FILE s) (tick s).
Definition set_seen_ids (x : gset string) (s : wstate) : wstate :=
  mkState (seq s) x (task_queue s) (idle_state s) (TASK_FILE s)
          (COMPLETED_FILE s) (RUNNING_FILE s) (tick s).
Definition set_task_queue (q : list entry) (s : wstate) : wstate :=
  mkState (seq s) (seen_ids s) q (idle_state s) (TASK_FILE s)
          (COMPLETED_FILE s) (RUNNING_FILE s) (tick s).
Definition set_idle_state (b : bool) (s : wstate) : wstate :=
  mkState (seq s) (seen_ids s) (task_queue s) b (TASK_FILE s)
          (COMPLETED_FILE s) (RUNNING_FILE s) (tick s).
Definition set_tick (k : nat) (s : wstate) : wstate :=
  mkState (seq s) (seen_ids s) (task_queue s) (idle_state s) (TASK_FILE s)
          (COMPLETED_FILE s) (RUNNING_FILE s) k.

(** ** The files *)

Definition load_tasks (s : wstate) : list task := TASK_FILE s.

Definition save_tasks (task_list : list task) (s : wstate) : wstate :=
  mkState (seq s) (seen_ids s) (task_queue s) (idle_state s) task_list
          (COMPLETED_FILE s) (RUNNING_FILE s) (tick s).

(** [json.dump] writes the task as it is at the time of the call: what
    the file holds is a copy, later changes of the dictionary in memory
    do not reach it. *)
Definition append_completed_task (t : task) (s : wstate) : wstate :=
  mkState (seq s) (seen_ids s) (task_queue s) (idle_state s) (TASK_FILE s)
          (COMPLETED_FILE s ++ [t]) (RUNNING_FILE s) (tick s).

Definition set_running_task (t : task) (s : wstate) : wstate :=
  mkState (seq s) (seen_ids s) (task_queue s) (idle_state s) (TASK_FILE s)
          (COMPLETED_FILE s) (Some t) (tick s).

Definition clear_running_task (s : wstate) : wstate :=
  mkState (seq s) (seen_ids s) (task_queue s) (idle_state s) (TASK_FILE s)
          (COMPLETED_FILE s) None (tick s).

(** [t.get("task_id")] when it is truthy. *)
Definition tid_of (t : task) : option string :=
  match task_id t with
  | Some s => if truthy s then Some s else None
  | None => None
  end.

Definition set_task_id (tid : string) (t : task) : task :=
  mkTask (Some tid) (kind t) (task_payload t) (attempts t) (attempts_info t)
         (status t) (started_at t) (duration_seconds t).

Definition set_attempts (a : Z) (t : task) : task :=
  mkTask (task_id t) (kind t) (task_payload t) (Some a) (attempts_info t)
         (status t) (started_at t) (duration_seconds t).

Definition set_payload (p : payload) (t : task) : task :=
  mkTask (task_id t) (kind t) (Some p) (attempts t) (attempts_info t)
         (status t) (started_at t) (duration_seconds t).

(** [task["payload"]["task"] = text] *)
Definition set_payload_task (text : string) (p : payload) : payload :=
  mkPayload (urgency p) (Some text) (use_async p) (refined p)
            (original_task p) (refined_task p).

(** [task.setdefault("attempts", 0)] *)
Definition setdefault_attempts (t : task) : task :=
  match attempts t with
  | Some _ => t
  | None => set_attempts 0 t
  end.

(** [task.setdefault("attempts_info", []).append(attempt_info)] *)
Definition append_attempt (info : attempt_info) (t : task) : task :=
  mkTask (task_id t) (kind t) (task_payload t) (attempts t)
         (Some (default [] (attempts_info t) ++ [info]))
         (status t) (started_at t) (duration_seconds t).

(** The three assignments [status], [started_at], [duration_seconds]. *)
Definition set_outcome (st iso : string) (dur : Z) (t : task) : task :=
  mkTask (task_id t) (kind t) (task_payload t) (attempts t) (attempts_info t)
         (Some st) (Some iso) (Some dur).

(** The payload after a successful refinement (lines 212-216). *)
Definition refine_payload (task_text refined_text : string) (p : payload) : payload :=
  mkPayload (urgency p) (Some refined_text) (use_async p) (Some true)
            (match original_task p with
             | Some o => Some o
             | None => Some task_text
             end)
            (Some refined_text).

Definition empty_payload : payload := mkPayload None None None None None None.

(** ** The outside world

    The planner, the evaluator, the replanner, the readiness probe, the
    random generator and the clock are outside the program.  Each is a
    function of the number of calls made so far ([tick]), so that two
    calls with the same arguments may answer differently. *)

Record world : Type := mkWorld {
  refine_task : nat -> string -> string;
  evaluate_and_replan_with_llm : nat -> string -> string;
  refine_replan_task : nat -> string -> string;
  check_orchestrator_health : nat -> bool;
  random_suffix : nat -> string;      (* the four random characters *)
  gmtime_iso : nat -> string;
  elapsed : nat -> Z }.

Section Loop.

Variable W : world.
Variable MAX_ATTEMPTS : Z.

(** [generate_task_id]: the [while True] loop draws until the id is new. *)
Fixpoint generate_task_id (fuel : nat) (existing_ids : gset string) (k : nat)
  : result (string * nat) :=
  match fuel with
  | O => Fuel
  | S fuel' =>
      let tid := "Task-" +:+ random_suffix W k in
      if bool_decide (tid ∈ existing_ids)
      then generate_task_id fuel' existing_ids (S k)
      else Ok (tid, S k)
  end.

(** [{t.get("task_id") for t in tasks if t.get("task_id")}] *)
Definition existing_ids_of (tasks : list task) : gset string :=
  list_to_set (omap tid_of tasks).

(** Lines 161-165: give an id to every task that has none.  Returns the
    tasks, the tick and [changed]. *)
Fixpoint assign_ids (fuel : nat) (tasks : list task)
         (all_existing_ids : gset string) (k : nat)
  : result (list task * nat * bool) :=
  match tasks with
  | [] => Ok ([], k, false)
  | t :: rest =>
      match tid_of t with
      | Some _ =>
          '(rest', k', changed) ← assign_ids fuel rest all_existing_ids k;
          mret (t :: rest', k', changed)
      | None =>
          '(tid, k1) ← generate_task_id fuel all_existing_ids k;
          '(rest', k', _) ← assign_ids fuel rest ({[tid]} ∪ all_existing_ids) k1;
          mret (set_task_id tid t :: rest', k', true)
      end
  end.

(** Lines 170-175: the body of the second [for t in tasks]. *)
Definition enqueue (s : wstate) (t : task) : wstate :=
  match tid_of t with
  | Some tid =>
      if bool_decide (tid ∈ seen_ids s) then s
      else
        mkState (S (seq s)) ({[tid]} ∪ seen_ids s)
                (heappush (task_queue s)
                          (mkEntry (get_priority t) (seq s) (Some tid) t))
                (idle_state s) (TASK_FILE s) (COMPLETED_FILE s)
                (RUNNING_FILE s) (tick s)
  | None => s
  end.

Definition enqueue_all (tasks : list task) (s : wstate) : wstate :=
  fold_left enqueue tasks s.

(** Lines 157-175: one poll of the pending store. *)
Definition poll (fuel : nat) (s : wstate) : result wstate :=
  let tasks := load_tasks s in
  '(tasks', k, changed) ← assign_ids fuel tasks (existing_ids_of tasks) (tick s);
  let s1 := set_tick k s in
  let s2 := if changed : bool then save_tasks tasks' s1 else s1 in
  mret (enqueue_all tasks' s2).

(** The block that ends a task (lines 203-209, 248-254, 270-276): set
    the outcome, append to the completed file, drop the task from the
    pending file, and forget its id. *)
Definition finalize (st iso : string) (t : task) (s : wstate) : task * wstate :=
  let t' := set_outcome st iso (elapsed W (tick s)) t in
  let s1 := append_completed_task t' s in
  let updated_tasks :=
    filter (fun x => task_id x ≠ task_id t') (load_tasks s1) in
  let s2 := save_tasks updated_tasks s1 in
  let s3 :=
    match task_id t' with
    | Some tid => set_seen_ids (seen_ids s2 ∖ {[tid]}) s2
    | None => s2
    end in
  (t', s3).

(** Line 238: an empty verdict counts as a failure. *)
Definition eval_result_of (verdict : string) : string :=
  if truthy verdict then verdict else "❌ No progress detected.".

(** Lines 222-279: one pass through the body of the [while].  Returns
    [success], the task as it is in memory, and the state. *)
Definition attempt (started_at_iso : string) (t : task) (s : wstate)
  : result (bool * task * wstate) :=
  (* execute: the snapshot is written, the call made, the snapshot cleared *)
  let s := clear_running_task (set_running_task t s) in
  p ← getitem "payload" (task_payload t);
  text ← getitem "task" (task_text p);
  (* evaluate *)
  let eval_result :=
    eval_result_of (strip (evaluate_and_replan_with_llm W (tick s) text)) in
  let s := set_tick (S (tick s)) s in
  a ← getitem "attempts" (attempts t);
  let info := mkAttempt (a + 1) (refined_task p) eval_result None None in
  if String.prefix "✅" eval_result then
    let '(t1, s1) := finalize "Success" started_at_iso t s in
    mret (true, append_attempt info t1, s1)
  else
    let refined_replan := strip (refine_replan_task W (tick s) eval_result) in
    let s := set_tick (S (tick s)) s in
    let p1 :=
      if truthy refined_replan
      then set_payload_task refined_replan p
      else set_payload_task eval_result p in
    let info1 :=
      mkAttempt (a + 1) (refined_task p) eval_result (Some eval_result)
                (if truthy refined_replan then Some refined_replan else None) in
    let t1 := set_attempts (a + 1) (set_payload p1 t) in
    let '(t2, s2) :=
      if a + 1 >=? MAX_ATTEMPTS
      then finalize "Failed" started_at_iso t1 s
      else (t1, s) in
    mret (false, append_attempt info1 t2, s2).

(** Lines 219-282: [while task["attempts"] < MAX_ATTEMPTS and not
    success].  [fuel] bounds the number of passes. *)
Fixpoint retry_loop (fuel : nat) (started_at_iso : string)
         (t : task) (s : wstate) : result (task * wstate) :=
  a ← getitem "attempts" (attempts t);
  if a <? MAX_ATTEMPTS then
    match fuel with
    | O => Fuel
    | S fuel' =>
        '(success, t', s') ← attempt started_at_iso t s;
        if success : bool then mret (t', s')
        else retry_loop fuel' started_at_iso t' s'
    end
  else mret (t, s).

(** Lines 183-282: pop one entry and work on it. *)
Definition process (s : wstate) : result wstate :=
  match heappop (task_queue s) with
  | None => mret s
  | Some (e, q) =>
      let s := set_task_queue q s in
      let prio := e_prio e in
      let t := setdefault_attempts (e_task e) in
      let payload := default empty_payload (task_payload t) in
      let text := default "" (task_text payload) in
      let started_at_iso := gmtime_iso W (tick s) in
      a ← getitem "attempts" (attempts t);
      if negb (default false (refined payload)) then
        let refined_text := strip (refine_task W (tick s) text) in
        let s := set_tick (S (tick s)) s in
        if negb (truthy refined_text) then
          let t := set_attempts (a + 1) t in
          if a + 1 <? MAX_ATTEMPTS then
            mret (set_seq (S (seq s))
                    (set_task_queue
                       (heappush (task_queue s)
                                 (mkEntry prio (seq s) (task_id t) t)) s))
          else
            mret (snd (finalize "Failed (empty refinement)" started_at_iso t s))
        else
          p ← getitem "payload" (task_payload t);
          let t := set_payload (refine_payload text refined_text p) t in
          '(_, s') ← retry_loop (Z.to_nat (MAX_ATTEMPTS - a)) started_at_iso t s;
          mret s'
      else
        '(_, s') ← retry_loop (Z.to_nat (MAX_ATTEMPTS - a)) started_at_iso t s;
        mret s'
  end.

(** Lines 157-289: one turn of [while not _stop]. *)
Definition main_cycle (fuel : nat) (s : wstate) : result wstate :=
  s ← poll fuel s;
  match task_queue s with
  | _ :: _ =>
      let s := set_idle_state false s in
      if check_orchestrator_health W (tick s)
      then process (set_tick (S (tick s)) s)
      else mret s
  | [] => mret (set_idle_state true s)
  end.

End Loop.

(** ** Vocabulary of the statements *)

(** The rank of an urgency word. *)
Definition rank (u : string) : Z := default PRIORITY_medium (PRIORITY_ORDER !! u).

(** The tasks [ts] by urgency, and in the order of [ts] within one
    urgency. *)
Definition by_urgency (ts : list task) : list task :=
  filter (λ t, get_priority t = rank "urgent") ts ++
  filter (λ t, get_priority t = rank "high") ts ++
  filter (λ t, get_priority t = rank "medium") ts ++
  filter (λ t, get_priority t = rank "low") ts.

(** The order of the heap entries, as a proposition. *)
Definition entry_lt (a b : entry) : Prop :=
  e_prio a < e_prio b ∨ (e_prio a = e_prio b ∧ (e_seq a < e_seq b)%nat).

(** [t] with [payload["urgency"] = u]. *)
Definition with_urgency (u : string) (t : task) : task :=
  set_payload
    (let p := default empty_payload (task_payload t) in
     mkPayload (Some u) (task_text p) (use_async p) (refined p)
               (original_task p) (refined_task p)) t.

(** The entries the poll pushes for the tasks [ts], the first with
    sequence number [n]. *)
Fixpoint entries_from (n : nat) (ts : list task) : list entry :=
  match ts with
  | [] => []
  | t :: ts' => mkEntry (get_priority t) n (tid_of t) t :: entries_from (S n) ts'
  end.

Definition ranked (k : Z) (es : list entry) : list entry :=
  filter (λ e, e_prio e = k) es.

Definition in_rank_order (es : list entry) : list entry :=
  ranked 0 es ++ ranked 1 es ++ ranked 2 es ++ ranked 3 es.

(** The entry was pushed for the task id [tid]. *)
Definition has_tid (tid : string) (e : entry) : Prop := e_tid e = Some tid.

#[global] Instance has_tid_dec tid e : Decision (has_tid tid e) :=
  decide (e_tid e = Some tid).

(** The invariant of the queue: it is a heap, its sequence numbers differ,
    and all of them were drawn from the counter already. *)
Definition queue_inv (s : wstate) : Prop :=
  Heapq.heap_ok entry_ltb (task_queue s)
  ∧ NoDup (map e_seq (task_queue s))
  ∧ Forall (λ e, (e_seq e < seq s)%nat) (task_queue s).

(** The evaluator never answers with the success mark. *)
Definition always_rejects (W : world) : Prop :=
  ∀ k text,
    String.prefix "✅" (strip (evaluate_and_replan_with_llm W k text)) = false.

(** Number of attempt records a task carries. *)
Definition info_length (t : task) : nat := length (default [] (attempts_info t)).

(** The claim of the specification on re-appearing ids, at a state [s]
    and a task [t] whose id was enqueued before: when [t] shows up in
    the pending store again, the poll pushes nothing. *)
Definition reappearance_ignored (W : world) (s : wstate) (t : task) : Prop :=
  ∀ fuel s', poll W fuel (save_tasks [t] s) = Ok s' → task_queue s' = task_queue s.

(** ** Sample data *)

Definition mk_pending (tid u text : string) : task :=
  mkTask (Some tid) (Some "task")
         (Some (mkPayload (Some u) (Some text) None None None None))
         None None None None None.

(** A submitted task that has no id yet. *)
Definition unnamed (u text : string) : task :=
  mkTask None (Some "task")
         (Some (mkPayload (Some u) (Some text) None None None None))
         None None None None None.

Definition arrivals : list task :=
  [ mk_pending "Task-low1" "low" "a";
    mk_pending "Task-med1" "medium" "b";
    mk_pending "Task-urg1" "URGENT" "c";
    mk_pending "Task-hig1" "high" "d";
    mk_pending "Task-odd1" "whenever" "e";
    mk_pending "Task-urg2" "urgent" "f";
    mk_pending "Task-low2" "Low" "g" ].

(** Random suffixes: the first two draws collide with an id of the
    store below. *)
Definition suffixes (k : nat) : string :=
  match k with
  | O => "a1b2"
  | 1%nat => "a1b2"
  | _ => "zz9" +:+ str_of_Z (Z.of_nat k)
  end.

(** A world whose evaluator accepts every attempt, and one whose
    evaluator rejects every attempt. *)
Definition accepting : world :=
  mkWorld (λ _ text, text) (λ _ _, "✅ all steps completed")
          (λ _ _, "retry the last step") (λ _, true) suffixes
          (λ _, "2025-01-01T00:00:00Z") (λ _, 1500).

Definition rejecting : world :=
  mkWorld (λ _ text, text) (λ _ _, "❌ the worker did not answer")
          (λ _ _, "retry the last step") (λ _, true) suffixes
          (λ _, "2025-01-01T00:00:00Z") (λ _, 1500).

Definition pending0 : list task :=
  [ unnamed "high" "a"; mk_pending "Task-a1b2" "low" "b"; unnamed "urgent" "c" ].

Definition polled0 : wstate :=
  match poll accepting 5 (initial pending0) with
  | Ok s => s
  | _ => initial []
  end.

(** The pending store of [polled0] after somebody appended a second
    record with the id of a queued task, and a new task. *)
Definition resubmitted : wstate :=
  save_tasks (TASK_FILE polled0 ++
              [mk_pending "Task-a1b2" "urgent" "again"; mk_pending "Task-new1" "low" "d"])
             polled0.

Definition repolled : wstate :=
  match poll accepting 0 resubmitted with
  | Ok s => s
  | _ => initial []
  end.

Definition job : task := mk_pending "Task-0001" "high" "ping worker A".

(** [job] as the retry loop finds it after the refinement. *)
Definition refined_job : task :=
  set_payload (refine_payload "ping worker A" "ping worker A"
                 (mkPayload (Some "high") (Some "ping worker A") None None None None))
              (setdefault_attempts job).

(** The state after one turn of the loop on [job]: with an accepting
    evaluator, and with a rejecting one and three attempts. *)
Definition served : wstate :=
  match main_cycle accepting 3 5 (initial [job]) with
  | Ok s => s
  | _ => initial []
  end.

Definition given_up : wstate :=
  match main_cycle rejecting 3 5 (initial [job]) with
  | Ok s => s
  | _ => initial []
  end.


(** * The rest of the watcher *)

(** [_orch_base()]; the argument is the value of [ORCHESTRATOR_URL] in the
    environment, [None] when it is not set. *)
Definition _orch_base (ORCHESTRATOR_URL : option string) : string :=
  let base :=
    strip (if truthy_opt ORCHESTRATOR_URL then default "" ORCHESTRATOR_URL
           else "http://localhost:10000") in
  let base := if negb (contains "://" base) then "http://" +:+ base else base in
  rstrip_chars "/" base.

(** [ORCH_HEALTH_URL = _orch_base() + "/health"] *)
Definition ORCH_HEALTH_URL (ORCHESTRATOR_URL : option string) : string :=
  _orch_base ORCHESTRATOR_URL +:+ "/health".

Section Main.
Variable W : world.
Variable MAX_ATTEMPTS : Z.

(** Lines 156-294: [while not _stop].  The flag is set by the signal
    handler [_handle_stop]; [turns] is the number of turns the loop makes
    before it finds the flag set. *)
Fixpoint main_loop (fuel turns : nat) (s : wstate) : result wstate :=
  match turns with
  | O => mret s
  | S n => s' ← main_cycle W MAX_ATTEMPTS fuel s; main_loop fuel n s'
  end.

(** [main()], started on the pending store [pending]: the loop, and the
    [finally] block that removes the running-task snapshot. *)
Definition main (fuel turns : nat) (pending : list task) : result wstate :=
  s ← main_loop fuel turns (initial pending);
  mret (clear_running_task s).

End Main.

(** ** Vocabulary *)

(** The entry carries the id of its task, and the id is in [seen]. *)
Definition queued_in (seen : gset string) (e : entry) : Prop :=
  ∃ tid, e_tid e = Some tid ∧ task_id (e_task e) = Some tid ∧ tid ∈ seen.

(** No task id is queued twice, every queued entry carries the id of its
    task, and every queued id is in the seen-set. *)
Definition ids_inv (s : wstate) : Prop :=
  NoDup (map e_tid (task_queue s))
  ∧ Forall (queued_in (seen_ids s)) (task_queue s).

(** The three statuses a completed record can carry. *)
Definition final_statuses : list string :=
  ["Success"; "Failed"; "Failed (empty refinement)"].

(** A turn that finished no task: the stores and the seen-set are as
    before. *)
Definition kept (s s' : wstate) : Prop :=
  TASK_FILE s' = TASK_FILE s ∧ COMPLETED_FILE s' = COMPLETED_FILE s
  ∧ seen_ids s' = seen_ids s.

(** A turn that finished the task with id [tid]: one record with that id
    was appended to the completed store, the records with that id left the
    pending store, and the id left the seen-set. *)
Definition moved (tid : option string) (s s' : wstate) : Prop :=
  ∃ r st, task_id r = tid ∧ status r = Some st ∧ st ∈ final_statuses
       ∧ COMPLETED_FILE s' = COMPLETED_FILE s ++ [r]
       ∧ TASK_FILE s' = filter (λ x, task_id x ≠ tid) (TASK_FILE s)
       ∧ seen_ids s' = match tid with
                       | Some i => seen_ids s ∖ {[i]}
                       | None => seen_ids s
                       end.

(** The ids a poll gave out: those of the records of [ts'] whose
    counterpart in [ts] had none. *)
Fixpoint new_ids (ts ts' : list task) : list string :=
  match ts, ts' with
  | t :: r, t' :: r' =>
      match tid_of t, task_id t' with
      | None, Some i => i :: new_ids r r'
      | _, _ => new_ids r r'
      end
  | _, _ => []
  end.

(** The pending store holds the record [t] and nothing else, the
    completed store is empty, there is no snapshot, and the queue is
    empty or holds the one entry of [t]. *)
Definition stuck (t : task) (tid : string) (s : wstate) : Prop :=
  TASK_FILE s = [t] ∧ COMPLETED_FILE s = [] ∧ RUNNING_FILE s = None
  ∧ (task_queue s = []
     ∨ (tid ∈ seen_ids s
        ∧ ∃ m, task_queue s = [mkEntry (get_priority t) m (Some tid) t])).

(** The watcher started on the store [[t]], after [j] turns in each of
    which the refinement of [t] came back blank, while attempts are
    left: [t] is queued again, with [j] attempts counted. *)
Definition requeued (t : task) (tid : string) (j : nat) : wstate :=
  mkState (S j) ({[tid]} ∪ ∅)
          [mkEntry (get_priority t) j (Some tid) (set_attempts (Z.of_nat j) t)]
          false [t] [] None (2 * j).

(** The same after the turn [j + 1] in which the attempts ran out. *)
Definition given_up_after (W : world) (t : task) (tid : string) (j : nat) : wstate :=
  (finalize W "Failed (empty refinement)" (gmtime_iso W (S (2 * j)))
            (set_attempts (Z.of_nat (S j)) t)
            (mkState (S j) ({[tid]} ∪ ∅) [] false [t] [] None (S (S (2 * j))))).2.

(** The keys of the payload that the retry loop never writes: urgency,
    the refined flag, the original text and the refined text. *)
Definition same_origin (p p' : payload) : Prop :=
  urgency p' = urgency p ∧ refined p' = refined p
  ∧ original_task p' = original_task p ∧ refined_task p' = refined_task p.

(** The record has a payload with the keys [same_origin] of [p]. *)
Definition of_origin (p : payload) (r : task) : Prop :=
  ∃ pr, task_payload r = Some pr ∧ same_origin p pr.

(** The planner answers every request with blank text. *)
Definition planner_silent (W : world) : Prop :=
  ∀ k text, strip (refine_task W k text) = "".

(** The readiness probe always succeeds. *)
Definition always_healthy (W : world) : Prop :=
  ∀ k, check_orchestrator_health W k = true.

(** ** Sample data *)

(** A world whose planner answers with white space only. *)
Definition silent : world :=
  mkWorld (λ _ _, "   ") (λ _ _, "✅ all steps completed")
          (λ _ _, "retry the last step") (λ _, true) suffixes
          (λ _, "2025-01-01T00:00:00Z") (λ _, 1500).

(** A world whose planner puts a step number before the text. *)
Definition numbering : world :=
  mkWorld (λ _ text, "1. " +:+ text) (λ _ _, "✅ all steps completed")
          (λ _ _, "retry the last step") (λ _, true) suffixes
          (λ _, "2025-01-01T00:00:00Z") (λ _, 1500).

(** A world whose evaluator and replanner both answer blank. *)
Definition mute : world :=
  mkWorld (λ _ text, text) (λ _ _, " ") (λ _ _, "") (λ _, true) suffixes
          (λ _, "2025-01-01T00:00:00Z") (λ _, 1500).

(** A record written with three attempts used and a refined payload. *)
Definition used_up : task :=
  mkTask (Some "Task-0002") (Some "task")
         (Some (mkPayload (Some "low") (Some "ping worker B") None (Some true)
                          None None))
         (Some 3) None None None None.

(** A record that has an id and nothing else. *)
Definition bare : task :=
  mkTask (Some "Task-0003") (Some "task") None None None None None None.

(** The watcher after two turns on [arrivals], and after one turn of
    work on the queue of [polled0]. *)
Definition after_two_turns : wstate :=
  match main_loop accepting 3 5 2 (initial arrivals) with
  | Ok s => s
  | _ => initial []
  end.

Definition turned0 : wstate :=
  match process accepting 3 polled0 with
  | Ok s => s
  | _ => initial []
  end.

(** One turn of work of a watcher with a numbering planner on [job]. *)
Definition turned_numbering : wstate :=
  match process numbering 3
          (set_task_queue [mkEntry 1 0 (Some "Task-0001") job] (initial [job])) with
  | Ok s => s
  | _ => initial []
  end.

End Watcher.

(* ===================================================================== *)
(** * agents/supervisors/delegator: remote task client and session
      coordinator *)
(* ===================================================================== *)

Module Delegator.
Import Py.

(** ** The protocol types ([a2a.types])

    The protocol library is not part of the repository.  Its types are
    modelled with the fields the two files read, and the shapes section 3
    and section 4.4 of the specification give them. *)

(** Modelled from the spec: [TaskState] of [a2a.types], the closed set of
    states of section 3. *)
Inductive TaskState : Type :=
| submitted | working | input_required | completed | canceled | failed | unknown.

#[global] Instance TaskState_eq_dec : EqDecision TaskState.
Proof. solve_decision. Defined.

(** A structured payload ([DataPart.data]). *)
#[local] Unset Elimination Schemes.
Inductive json : Type :=
| JNull
| JBool (b : bool)
| JNum (z : Z)
| JStr (s : string)
| JList (l : list json)
| JDict (d : list (string * json)).
#[local] Set Elimination Schemes.

(** Modelled from the spec: the file content of [a2a.types], binary
    content (base64) with a name and a MIME type (section 4.4), read as
    [part.root.file]. *)
Record FileContent : Type := mkFile {
  name : option string;
  mimeType : option string;
  bytes : string }.

(** Modelled from the spec: the part classes of [a2a.types], text, data
    and file (section 4.4), read as [part.root].  [OtherPart] stands for
    an object whose [kind] is none of the three; the last line of
    [convert_part] is written for it. *)
Inductive part_root : Type :=
| TextPart (text : string)
| DataPart (data : json)
| FilePart (file : FileContent)
| OtherPart (kind : string).

(** [part.root.kind] *)
Definition root_kind (r : part_root) : string :=
  match r with
  | TextPart _ => "text"
  | DataPart _ => "data"
  | FilePart _ => "file"
  | OtherPart k => k
  end.

(** [Part] of [a2a.types]: the wrapper around the part classes, an object
    with the one field [root].  The code reaches the content through it,
    as [part.root.kind], [part.root.text], [part.root.data] and
    [part.root.file]. *)
Record Part : Type := mkPart { root : part_root }.

(** [part.kind], read on the wrapper itself.  [root] is the wrapper's
    only attribute, so the lookup fails. *)
Definition Part_kind (p : Part) : result string :=
  Raise (AttributeError "'Part' object has no attribute 'kind'").

(** Attribute access on [part.root]. *)
Definition root_text (r : part_root) : result string :=
  match r with
  | TextPart t => Ok t
  | _ => Raise (AttributeError "text")
  end.

Definition root_data (r : part_root) : result json :=
  match r with
  | DataPart d => Ok d
  | _ => Raise (AttributeError "data")
  end.

Definition root_file (r : part_root) : result FileContent :=
  match r with
  | FilePart f => Ok f
  | _ => Raise (AttributeError "file")
  end.

(** Modelled from the spec: [Message], [Artifact], [TaskStatus], [Task]
    and the two update events of [a2a.types], with the fields the code
    reads (sections 3 and 4.2). *)
Record Message : Type := mkMessage {
  m_role : string;
  m_parts : list Part;
  messageId : string;
  m_contextId : option string;
  m_taskId : option string }.

Record Artifact : Type := mkArtifact { a_parts : list Part }.

Record TaskStatus : Type := mkStatus {
  state : TaskState;
  s_message : option Message }.

Record Task : Type := mkTask {
  id : string;
  contextId : string;
  status : TaskStatus;
  artifacts : option (list Artifact) }.

Record TaskStatusUpdateEvent : Type := mkStatusUpdate {
  u_taskId : string;
  u_status : TaskStatus;
  final : bool }.

Record TaskArtifactUpdateEvent : Type := mkArtifactUpdate {
  au_taskId : string;
  au_artifact : Artifact }.

(** [response.root.result] of a stream element. *)
Inductive event : Type :=
| EvMessage (m : Message)
| EvTask (t : Task)
| EvStatusUpdate (u : TaskStatusUpdateEvent)
| EvArtifactUpdate (u : TaskArtifactUpdateEvent).

(** Modelled from the spec: the JSON-RPC error payload of section 4.2,
    read as [response.root.error]. *)
Record JSONRPCError : Type := mkError {
  code : Z;
  message : string }.

(** [response.root] of a stream element: a [JSONRPCErrorResponse] or a
    success response. *)
Inductive response : Type :=
| ErrorResponse (error : JSONRPCError)
| SuccessResponse (result : event).

(** [response.root] of a unary call; its result is a [Task] or a
    [Message]. *)
Inductive unary_response : Type :=
| UnaryError (error : JSONRPCError)
| UnaryMessage (m : Message)
| UnaryTask (t : Task).

(** Modelled from the spec: the worker registration card of section 3. *)
Record AgentCard : Type := mkCard {
  card_name : string;
  description : string;
  streaming : bool }.                (* card.capabilities.streaming *)

Record MessageSendParams : Type := mkParams {
  request_id : string;
  request_message : Message;
  acceptedOutputModes : list string }.

(** What the transport answers to a request: the elements of the stream,
    or the one response of a unary call. *)
Record A2AClient : Type := mkClient {
  send_message_streaming : MessageSendParams -> list response;
  send_message_unary : MessageSendParams -> unary_response }.

(** [TaskUpdateCallback] *)
Definition TaskUpdateCallback : Type := event -> AgentCard -> Task.

(** ** remote_agent_connection.py *)

Record RemoteAgentConnections : Type := mkConnection {
  agent_client : A2AClient;
  card : AgentCard }.

(** What [send_message] returns: [Task | Message | None], or the error
    object of an error response. *)
Inductive reply : Type :=
| ReplyError (e : JSONRPCError)
| ReplyMessage (m : Message)
| ReplyTask (t : Task)
| ReplyNone.

Definition reply_of_task (task : option Task) : reply :=
  match task with
  | Some t => ReplyTask t
  | None => ReplyNone
  end.

(** [hasattr(event, "final") and event.final] *)
Definition is_final (ev : event) : bool :=
  match ev with
  | EvStatusUpdate u => final u
  | _ => false
  end.

(** What a run of the client did: its return value, the number of
    stream elements it took, and the events it gave to the callback. *)
Record run : Type := mkRun {
  returned : reply;
  consumed : nat;
  delivered : list event }.

(** Lines 65-86: the [async for] over the stream.  [task] is the local
    variable, [n] and [log] count what was taken so far. *)
Fixpoint stream_loop (task_callback : option TaskUpdateCallback) (c : AgentCard)
         (task : option Task) (n : nat) (log : list event)
         (stream : list response) : run :=
  match stream with
  | [] => mkRun (reply_of_task task) n log
  | ErrorResponse e :: _ => mkRun (ReplyError e) (S n) log
  | SuccessResponse (EvMessage m) :: _ => mkRun (ReplyMessage m) (S n) log
  | SuccessResponse ev :: rest =>
      let '(task, log) :=
        match task_callback with
        | Some cb => (Some (cb ev c), log ++ [ev])
        | None => (task, log)
        end in
      if is_final ev then mkRun (reply_of_task task) (S n) log
      else stream_loop task_callback c task (S n) log rest
  end.

(** Lines 88-102: the unary call. *)
Definition unary_call (task_callback : option TaskUpdateCallback) (c : AgentCard)
           (r : unary_response) : run :=
  match r with
  | UnaryError e => mkRun (ReplyError e) 1 []
  | UnaryMessage m => mkRun (ReplyMessage m) 1 []
  | UnaryTask t =>
      mkRun (ReplyTask t) 1
            (match task_callback with Some _ => [EvTask t] | None => [] end)
  end.

Definition client_send_message (self : RemoteAgentConnections)
           (request : MessageSendParams)
           (task_callback : option TaskUpdateCallback) : run :=
  if streaming (card self)
  then stream_loop task_callback (card self) None 0 []
                   (send_message_streaming (agent_client self) request)
  else unary_call task_callback (card self)
                  (send_message_unary (agent_client self) request).

(** ** agent.py *)

(** [tool_context.actions] *)
Record EventActions : Type := mkActions {
  skip_summarization : bool;
  escalate : bool }.

(** [tool_context.state], the session dictionary. *)
Record SessionState : Type := mkSession {
  agent : option string;
  task_id : option string;
  context_id : option string;
  message_id : option string;
  session_active : option bool }.

(** [types.Blob] *)
Record Blob : Type := mkBlob {
  mime_type : option string;
  blob_data : string }.

Record ToolContext : Type := mkContext {
  tc_state : SessionState;
  actions : EventActions;
  saved_artifacts : list (option string * Blob) }.

Definition set_state (st : SessionState) (c : ToolContext) : ToolContext :=
  mkContext st (actions c) (saved_artifacts c).

(** [skip_summarization = True; escalate = True] *)
Definition pause_turn (c : ToolContext) : ToolContext :=
  mkContext (tc_state c) (mkActions true true) (saved_artifacts c).

Definition save_artifact (file_id : option string) (b : Blob) (c : ToolContext)
  : ToolContext :=
  mkContext (tc_state c) (actions c) (saved_artifacts c ++ [(file_id, b)]).

(** What [convert_part] returns: a string, the structured value of a
    data part, or a [DataPart] that refers to a stored file. *)
Inductive converted : Type :=
| OutText (s : string)
| OutData (d : json)
| OutDataPart (d : json).

Definition json_of_name (n : option string) : json :=
  match n with
  | Some s => JStr s
  | None => JNull
  end.

Record HostAgent : Type := mkHost {
  remote_agent_connections : gmap string RemoteAgentConnections;
  task_callback : option TaskUpdateCallback }.

Section Coordinator.

(** [base64.b64decode]; [None] when it raises [binascii.Error]. *)
Variable b64decode : string -> option string.
(** The successive results of [str(uuid.uuid4())]. *)
Variable uuid4 : nat -> string.

(** Code that changes the tool context and may raise. *)
Definition action (A : Type) : Type := ToolContext -> ToolContext * result A.

Definition convert_part (part : Part) : action converted :=
  fun tool_context =>
    let r := root part in
    if String.eqb (root_kind r) "text" then
      (tool_context, text ← root_text r; mret (OutText text))
    else if String.eqb (root_kind r) "data" then
      (tool_context, data ← root_data r; mret (OutData data))
    else if String.eqb (root_kind r) "file" then
      match root_file r with
      | Ok f =>
          let file_id := name f in
          match b64decode (bytes f) with
          | Some file_bytes =>
              let c := save_artifact file_id (mkBlob (mimeType f) file_bytes)
                                     tool_context in
              (pause_turn c,
               Ok (OutDataPart (JDict [("artifact-file-id", json_of_name file_id)])))
          | None => (tool_context, Raise BinasciiError)
          end
      | Raise e => (tool_context, Raise e)
      | Fuel => (tool_context, Fuel)
      end
    else
      (tool_context, kind ← Part_kind part; mret (OutText ("Unknown type: " +:+ kind))).

Fixpoint convert_parts (parts : list Part) : action (list converted) :=
  fun tool_context =>
    match parts with
    | [] => (tool_context, Ok [])
    | p :: rest =>
        match convert_part p tool_context with
        | (c1, Ok v) =>
            match convert_parts rest c1 with
            | (c2, Ok vs) => (c2, Ok (v :: vs))
            | (c2, Raise e) => (c2, Raise e)
            | (c2, Fuel) => (c2, Fuel)
            end
        | (c1, Raise e) => (c1, Raise e)
        | (c1, Fuel) => (c1, Fuel)
        end
    end.

(** Lines 302-303: the parts of every artifact, in order. *)
Fixpoint convert_artifacts (arts : list Artifact) : action (list converted) :=
  fun tool_context =>
    match arts with
    | [] => (tool_context, Ok [])
    | a :: rest =>
        match convert_parts (a_parts a) tool_context with
        | (c1, Ok vs) =>
            match convert_artifacts rest c1 with
            | (c2, Ok ws) => (c2, Ok (vs ++ ws))
            | (c2, Raise e) => (c2, Raise e)
            | (c2, Fuel) => (c2, Fuel)
            end
        | (c1, Raise e) => (c1, Raise e)
        | (c1, Fuel) => (c1, Fuel)
        end
    end.

(** Lines 277-282: the four states after which the session is idle. *)
Definition session_stays_active (st : TaskState) : bool :=
  bool_decide (st ∉ [completed; canceled; failed; unknown]).

(** Lines 277-286: the session dictionary after a task came back. *)
Definition record_task (task : Task) (st : SessionState) : SessionState :=
  mkSession (agent st) (Some (id task))
            (if truthy (contextId task) then Some (contextId task)
             else context_id st)
            (message_id st)
            (Some (session_stays_active (state (status task)))).

(** Lines 298-305: status message first, then the artifacts. *)
Definition collect_outputs (task : Task) : action (list converted) :=
  fun tool_context =>
    let '(c1, r1) :=
      match s_message (status task) with
      | Some m => convert_parts (m_parts m) tool_context
      | None => (tool_context, Ok [])
      end in
    match r1 with
    | Ok vs =>
        match convert_artifacts (default [] (artifacts task)) c1 with
        | (c2, Ok ws) => (c2, Ok (vs ++ ws))
        | (c2, Raise e) => (c2, Raise e)
        | (c2, Fuel) => (c2, Fuel)
        end
    | Raise e => (c1, Raise e)
    | Fuel => (c1, Fuel)
    end.

(** [HostAgent.send_message] *)
Definition send_message (self : HostAgent) (agent_name message_text : string)
  : action (list converted) :=
  fun tool_context =>
    match remote_agent_connections self !! agent_name with
    | None =>
        (tool_context, Raise (ValueError ("Agent " +:+ agent_name +:+ " not found")))
    | Some client =>
        let st0 := tc_state tool_context in
        let st := mkSession (Some agent_name) (task_id st0) (context_id st0)
                            (message_id st0) (session_active st0) in
        let c := set_state st tool_context in
        let taskId := task_id st in
        let contextId := context_id st in
        let messageId :=
          if truthy_opt (message_id st) then default "" (message_id st)
          else uuid4 0 in
        let request :=
          mkParams (uuid4 1)
                   (mkMessage "user" [mkPart (TextPart message_text)]
                              messageId contextId taskId)
                   ["text"; "text/plain"; "image/png"] in
        match returned (client_send_message client request (task_callback self)) with
        | ReplyError e =>
            let error_message :=
              "Agent '" +:+ agent_name +:+ "' returned an error: " +:+ message e
              +:+ " (Code: " +:+ str_of_Z (code e) +:+ ")" in
            let st' := mkSession (agent st) (task_id st) (context_id st)
                                 (message_id st) (Some false) in
            (set_state st' c, Raise (ValueError error_message))
        | ReplyMessage m => convert_parts (m_parts m) c
        | ReplyNone =>
            (c, Raise (AttributeError "'NoneType' object has no attribute 'status'"))
        | ReplyTask task =>
            let c := set_state (record_task task st) c in
            match state (status task) with
            | input_required => collect_outputs task (pause_turn c)
            | canceled =>
                (c, Raise (ValueError ("Agent " +:+ agent_name +:+ " task "
                                       +:+ id task +:+ " is cancelled")))
            | failed =>
                (c, Raise (ValueError ("Agent " +:+ agent_name +:+ " task "
                                       +:+ id task +:+ " failed")))
            | _ => collect_outputs task c
            end
        end
    end.

End Coordinator.

(** ** Vocabulary of the statements *)

(** A stream element after which the loop goes on: a task update that is
    not marked final. *)
Definition quiet (r : response) : bool :=
  match r with
  | ErrorResponse _ => false
  | SuccessResponse (EvMessage _) => false
  | SuccessResponse ev => negb (is_final ev)
  end.

(** What the callback does to the variables of the loop on one event. *)
Definition deliver_to_callback (cb : option TaskUpdateCallback) (c : AgentCard)
           (ev : event) (task : option Task) (log : list event)
  : option Task * list event :=
  match cb with
  | Some f => (Some (f ev c), log ++ [ev])
  | None => (task, log)
  end.

(** The exception a result stands for, if any. *)
Definition raised {A} (r : result A) : option exn :=
  match r with
  | Raise e => Some e
  | _ => None
  end.

(** The domain error of the coordinator is a [ValueError]. *)
Definition is_ValueError {A} (r : result A) : Prop :=
  ∃ msg, raised r = Some (ValueError msg).

(** The transport answers the call with the error [e], before any
    message or final event. *)
Definition error_reaches_client (conn : RemoteAgentConnections) (e : JSONRPCError)
           (request : MessageSendParams) : Prop :=
  if streaming (card conn)
  then ∃ pre post,
         send_message_streaming (agent_client conn) request
         = pre ++ ErrorResponse e :: post
         ∧ forallb quiet pre = true
  else send_message_unary (agent_client conn) request = UnaryError e.

(** The texts of the three domain errors (lines 263, 293, 295). *)
Definition error_text (agent_name : string) (e : JSONRPCError) : string :=
  "Agent '" +:+ agent_name +:+ "' returned an error: " +:+ message e
  +:+ " (Code: " +:+ str_of_Z (code e) +:+ ")".

Definition cancelled_text (agent_name : string) (task : Task) : string :=
  "Agent " +:+ agent_name +:+ " task " +:+ id task +:+ " is cancelled".

Definition failed_text (agent_name : string) (task : Task) : string :=
  "Agent " +:+ agent_name +:+ " task " +:+ id task +:+ " failed".

(** The part of the claim on a returned task that fails, as worded: the
    context id of the task that came back is what the session holds for
    the next turn. *)
Definition persists_context_id (out : ToolContext) (task : Task) : Prop :=
  context_id (tc_state out) = Some (contextId task).

(** ** Sample data *)

Definition describer_card (s : bool) : AgentCard :=
  mkCard "describer" "Describes a robot model" s.

Definition still_working : response :=
  SuccessResponse
    (EvStatusUpdate (mkStatusUpdate "task-7" (mkStatus working None) false)).

Definition answer : Message :=
  mkMessage "agent" [mkPart (TextPart "done")] "msg-1" None None.

Definition internal_error : JSONRPCError := mkError (-32603) "Internal error".

Definition late_task : Task :=
  mkTask "task-7" "ctx-9" (mkStatus completed None) None.

(** A callback that files every update under one task. *)
Definition keep_task : TaskUpdateCallback := λ _ _, late_task.

(** A streaming worker whose stream is [stream], whatever the request. *)
Definition streaming_worker (stream : list response) : RemoteAgentConnections :=
  mkConnection (mkClient (λ _, stream) (λ _, UnaryError internal_error))
               (describer_card true).

(** A unary worker that answers [r]. *)
Definition unary_worker (r : unary_response) : RemoteAgentConnections :=
  mkConnection (mkClient (λ _, []) (λ _, r)) (describer_card false).

Definition host (conn : RemoteAgentConnections) : HostAgent :=
  mkHost {[ "describer" := conn ]} (Some keep_task).

Definition fresh_context : ToolContext :=
  mkContext (mkSession None None None None None) (mkActions false false) [].

(** The context of a conversation that already has a context id. *)
Definition second_turn : ToolContext :=
  mkContext (mkSession (Some "describer") (Some "task-6") (Some "ctx-9") None
                       (Some true))
            (mkActions false false) [].

Definition no_base64 : string → option string := λ _, None.
Definition uuids : nat → string := λ n, "uuid-" +:+ str_of_Z (Z.of_nat n).

Definition a_request : MessageSendParams :=
  mkParams "uuid-1" (mkMessage "user" [mkPart (TextPart "describe")] "uuid-0" None None)
           ["text"].

Definition failed_task : Task :=
  mkTask "task-8" "ctx-10" (mkStatus failed None) None.

Definition task_without_context : Task :=
  mkTask "task-8" "" (mkStatus working None) None.


(** * The rest of the coordinator *)

(** ** agent.py: the session helpers *)

(** [check_state]: the worker the session is with, as the text put into
    the instruction. *)
Definition check_state (st : SessionState) : string :=
  if bool_decide (is_Some (context_id st))
     && bool_decide (is_Some (session_active st))
     && default false (session_active st)
     && bool_decide (is_Some (agent st))
  then default "" (agent st)
  else "None".

(** [before_model_callback] *)
Definition before_model_callback (st : SessionState) : SessionState :=
  if negb (bool_decide (is_Some (session_active st)))
     || negb (default false (session_active st))
  then mkSession (agent st) (task_id st) (context_id st) (message_id st) (Some true)
  else st.

(** ** Vocabulary *)

(** The elements the streaming loop takes: up to and including the first
    that is an error response, a message, or an update marked final. *)
Fixpoint taken (stream : list response) : list response :=
  match stream with
  | [] => []
  | r :: rest => if quiet r then r :: taken rest else [r]
  end.

(** The task updates among stream elements: the results that are not a
    message. *)
Definition update_of (r : response) : option event :=
  match r with
  | ErrorResponse _ => None
  | SuccessResponse (EvMessage _) => None
  | SuccessResponse ev => Some ev
  end.

Definition updates (rs : list response) : list event := omap update_of rs.

(** What the loop returns when the last element it took is [r] and the
    task variable holds [task]. *)
Definition reply_after (r : option response) (task : option Task) : reply :=
  match r with
  | Some (ErrorResponse e) => ReplyError e
  | Some (SuccessResponse (EvMessage m)) => ReplyMessage m
  | _ => reply_of_task task
  end.

(** The task variable of the loop after the callback [cb] saw the updates
    [evs]: what the callback returned for the last of them. *)
Definition task_after (cb : option TaskUpdateCallback) (c : AgentCard)
           (task : option Task) (evs : list event) : option Task :=
  match cb, last evs with
  | Some f, Some ev => Some (f ev c)
  | _, _ => task
  end.

(** The response carries a task update. *)
Definition is_update (r : response) : Prop := is_Some (update_of r).

(** The part has the kind [file]. *)
Definition is_file_part (p : Part) : bool := String.eqb (root_kind (root p)) "file".

(** A terminal state: one of the four after which the session is idle. *)
Definition terminal (st : TaskState) : bool :=
  bool_decide (st ∈ [completed; canceled; failed; unknown]).

(** ** Sample data *)

(** The update that ends a task. *)
Definition finished : response :=
  SuccessResponse
    (EvStatusUpdate (mkStatusUpdate "task-7" (mkStatus completed None) true)).

(** A host that was given no task callback. *)
Definition host_without_callback (conn : RemoteAgentConnections) : HostAgent :=
  mkHost {[ "describer" := conn ]} None.

(** A decoder for content that is sent as it is. *)
Definition plain : string → option string := λ s, Some s.

Definition mixed_parts : list Part :=
  [ mkPart (TextPart "see the drawing");
    mkPart (FilePart (mkFile (Some "robot.png") (Some "image/png") "iVBORw0KGgo="));
    mkPart (DataPart (JDict [("links", JNum 7)])) ].

Definition working_task : Task :=
  mkTask "task-9" "" (mkStatus working None) None.

End Delegator.

(* ===================================================================== *)
(** * start.py: the process supervisor *)
(* ===================================================================== *)

Module Supervisor.

Inductive signal : Type := SIGINT | SIGTERM | SIGKILL.

#[global] Instance signal_eq_dec : EqDecision signal.
Proof. solve_decision. Defined.

(** A child process.  [returncode] is [None] while it runs.  The two
    flags say how the program inside reacts: a process that ignores a
    signal keeps running when it receives it; the others exit at once.
    Nothing ignores [SIGKILL]. *)
Record Process : Type := mkProcess {
  pid : nat;
  returncode : option Z;
  ignores_int : bool;
  ignores_term : bool }.

Definition alive (p : Process) : bool :=
  match returncode p with
  | None => true
  | Some _ => false
  end.

Definition ignores (sig : signal) (p : Process) : bool :=
  match sig with
  | SIGINT => ignores_int p
  | SIGTERM => ignores_term p
  | SIGKILL => false
  end.

Definition signum (sig : signal) : Z :=
  match sig with
  | SIGINT => 2
  | SIGTERM => 15
  | SIGKILL => 9
  end.

(** The effect of [_kill_group(p, sig)] on the process. *)
Definition deliver (sig : signal) (p : Process) : Process :=
  if alive p && negb (ignores sig p)
  then mkProcess (pid p) (Some (- signum sig)) (ignores_int p) (ignores_term p)
  else p.

(** A signal sent by the supervisor: when (milliseconds after the stop
    request), which, and to which process group. *)
Record sent : Type := mkSent {
  at_ms : Z;
  sig_sent : signal;
  target : nat }.

(** One [for p in reversed(procs)] loop: every process that still runs
    gets [sig]. *)
Definition signal_all (sig : signal) (now : Z) (procs : list Process)
  : list Process * list sent :=
  (map (deliver sig) procs,
   map (fun p => mkSent now sig (pid p)) (List.filter alive (rev procs))).

(** [asyncio.wait([... p.wait() for p in procs], timeout=t)]: returns
    when every process has exited, or after [t]. *)
Definition wait_all (timeout : Z) (procs : list Process) : Z :=
  if forallb (fun p => negb (alive p)) procs then 0 else timeout.

(** The three results of a shutdown: the processes, the signals sent,
    and the time at which it returns. *)
Definition graceful_terminate (procs : list Process) (force_now : bool) (now : Z)
  : list Process * list sent * Z :=
  if force_now then
    let '(procs1, kills) := signal_all SIGKILL now procs in
    (procs1, kills, now)
  else
    (* Step 1: send interrupt signals *)
    let '(procs1, ints) := signal_all SIGINT now procs in
    let now1 := now + wait_all 8000 procs1 in
    (* Step 2: escalate to TERM *)
    let '(procs2, terms) := signal_all SIGTERM now1 procs1 in
    let now2 := now1 + wait_all 6000 procs2 in
    (* Step 3: force kill any survivors *)
    let '(procs3, kills) := signal_all SIGKILL now2 procs2 in
    (procs3, ints ++ terms ++ kills, now2).

(** The two options of lines 560-561, in milliseconds. *)
Record Args : Type := mkArgs {
  grace_int : Z;
  grace_term : Z }.

(** [--grace-int] and [--grace-term] at their defaults, 8.0 and 6.0. *)
Definition default_args : Args := mkArgs 8000 6000.

(** Lines 645-651 of [main]: the shutdown after the stop request (time
    0), and the forced one of the [finally] block.  [args] is in scope;
    neither of its two grace fields is read. *)
Definition shutdown (args : Args) (force_kill_event : bool) (procs : list Process)
  : list Process * list sent * Z :=
  let '(procs1, trace1, now1) := graceful_terminate procs force_kill_event 0 in
  let '(procs2, trace2, now2) := graceful_terminate procs1 true now1 in
  (procs2, trace1 ++ trace2, now2).

(** The signals a shutdown sends to the process group [n]. *)
Definition signals_to (n : nat) (trace : list sent) : list (Z * signal) :=
  map (fun x => (at_ms x, sig_sent x))
      (List.filter (fun x => Nat.eqb (target x) n) trace).

(** ** Vocabulary of the statements *)

(** A process that is running and ignores interrupt and terminate. *)
Definition stubborn (p : Process) : Prop :=
  returncode p = None ∧ ignores_int p = true ∧ ignores_term p = true.

(** The signals of one pass that go to the group [n]. *)
Definition pass_to (n : nat) (sig : signal) (now : Z) (l : list Process)
  : list (Z * signal) :=
  signals_to n (map (λ p, mkSent now sig (pid p)) (List.filter alive l)).

(** The claim of the specification on the kill signal, for the signals
    [sigs] one process received: a kill comes after both grace windows
    of [args], and at most [eps] later. *)
Definition kill_respects_grace (args : Args) (eps : Z) (sigs : list (Z * signal))
  : Prop :=
  ∀ t, (t, SIGKILL) ∈ sigs →
       grace_int args + grace_term args <= t <= grace_int args + grace_term args + eps.

(** ** Sample data *)

Definition daemon : Process := mkProcess 4242 None true true.
Definition worker : Process := mkProcess 4243 None false false.


(** * The rest of the stack launcher *)

Import Py.

(** A process that runs and exits when it is interrupted. *)
Definition cooperative (p : Process) : Prop :=
  returncode p = None ∧ ignores_int p = false.

(** ** The launch plan *)

(** A value, or [sys.exit(code)]. *)
Inductive exits (A : Type) : Type :=
| Done (a : A)
| SystemExit (code : Z).
Arguments Done {A} a.
Arguments SystemExit {A} code.

(** The fields of the parsed arguments that [build_plan] reads.
    [workers] is the list of the [-w] options, [None] without one. *)
Record PlanArgs : Type := mkPlanArgs {
  app : bool;
  mcp : bool;
  orchestrator : bool;
  dashboard : bool;
  all_workers : bool;
  workers : option (list string);
  list_workers : bool }.

(** An element of the plan: name, working directory (below [ROOT]) and
    command. *)
Definition plan_entry : Type := string * string * list string.

Definition MCP_CMD : list string := ["uv"; "run"; "tools/mcp_server.py"].
Definition ORCH_CMD : list string := ["uv"; "run"; "server.py"].
Definition DASH_CMD : list string := ["uv"; "run"; "dashboard.py"].

(** Lines 314-321: the four components of the core. *)
Definition core_plan (args : PlanArgs) : list plan_entry :=
  (if app args then [("app", "app", ["uv"; "run"; "main.py"])] else [])
  ++ (if mcp args then [("mcp", ".", MCP_CMD)] else [])
  ++ (if orchestrator args
      then [("orchestrator", "agents/supervisors/orchestrator", ORCH_CMD)] else [])
  ++ (if dashboard args then [("dashboard", "tasks", DASH_CMD)] else []).

(** Line 340 *)
Definition worker_entry (w : string) : plan_entry :=
  ("worker-" +:+ w, "agents/workers/" +:+ w, ["uv"; "run"; "."]).

(** [build_plan(args)]; [workers_available] is what [find_workers()]
    returns. *)
Definition build_plan (workers_available : list string) (args : PlanArgs)
  : exits (list plan_entry) :=
  let plan := core_plan args in
  if list_workers args then SystemExit 0
  else
    let selected :=
      if all_workers args then Done workers_available
      else
        match workers args with
        | Some (w :: ws) =>
            match filter (λ w, w ∉ workers_available) (w :: ws) with
            | [] => Done (w :: ws)
            | _ :: _ => SystemExit 2
            end
        | _ => Done []
        end in
    match selected with
    | SystemExit code => SystemExit code
    | Done selected =>
        match plan ++ map worker_entry selected with
        | [] => SystemExit 1
        | plan => Done plan
        end
    end.

(** The workers the arguments ask for. *)
Definition requested (workers_available : list string) (args : PlanArgs) : list string :=
  if all_workers args then workers_available else default [] (workers args).

(** ** The stop requests *)

(** [stop_event] and [force_kill_event] of [main]. *)
Record Events : Type := mkEvents {
  stop_event : bool;
  force_kill_event : bool }.

Definition _handle_first_stop (ev : Events) : Events :=
  if negb (stop_event ev) then mkEvents true (force_kill_event ev) else ev.

Definition _handle_force_kill (ev : Events) : Events :=
  if stop_event ev && negb (force_kill_event ev)
  then mkEvents (stop_event ev) true
  else _handle_first_stop ev.

(** The handlers of the event loop: one for a signal, the one registered
    last. *)
Definition handlers : Type := signal → option (Events → Events).

Definition add_signal_handler (sig : signal) (callback : Events → Events)
           (h : handlers) : handlers :=
  λ s, if decide (s = sig) then Some callback else h s.

(** Lines 590-598: [_handle_first_stop] for interrupt and terminate, then
    [_handle_force_kill] for interrupt. *)
Definition installed : handlers :=
  add_signal_handler SIGINT _handle_force_kill
    (add_signal_handler SIGTERM _handle_first_stop
       (add_signal_handler SIGINT _handle_first_stop (λ _, None))).

(** What reaches [main] while it runs: a signal, or a line typed on the
    terminal. *)
Inductive input : Type :=
| Signal (sig : signal)
| Line (text : string).

(** [line.strip().lower() in {"q", "quit", "exit"}] *)
Definition quits (line : string) : bool :=
  bool_decide (lower (strip line) ∈ ["q"; "quit"; "exit"]).

Definition react (ev : Events) (i : input) : Events :=
  match i with
  | Signal sig =>
      match installed sig with
      | Some callback => callback ev
      | None => ev
      end
  | Line text => if quits text then mkEvents true (force_kill_event ev) else ev
  end.

(** The two events after the inputs [inputs], from both unset. *)
Definition events_after (inputs : list input) : Events :=
  fold_left react inputs (mkEvents false false).

(** The input is an interrupt. *)
Definition is_interrupt (i : input) : bool :=
  match i with
  | Signal SIGINT => true
  | _ => false
  end.

(** The input asks for a stop: interrupt, terminate, or a quit line. *)
Definition stops (i : input) : bool :=
  match i with
  | Signal SIGINT | Signal SIGTERM => true
  | Signal SIGKILL => false
  | Line text => quits text
  end.

(** ** The URLs of the frontends *)

(** What [yaml.safe_load] returns for a file of nulls, booleans,
    integers, strings, sequences and mappings.  A mapping is the list of
    its items that have a string as key, in which no key occurs twice;
    the code looks up string keys only. *)
#[local] Unset Elimination Schemes.
Inductive yaml : Type :=
| YNull
| YBool (b : bool)
| YInt (n : Z)
| YStr (s : string)
| YSeq (l : list yaml)
| YMap (items : list (string * yaml)).
#[local] Set Elimination Schemes.

(** The truth value of a loaded value. *)
Definition truthy_yaml (v : yaml) : bool :=
  match v with
  | YNull => false
  | YBool b => b
  | YInt n => negb (n =? 0)
  | YStr s => truthy s
  | YSeq l => negb (bool_decide (l = []))
  | YMap items => negb (bool_decide (items = []))
  end.

(** [type(v).__name__] *)
Definition type_name (v : yaml) : string :=
  match v with
  | YNull => "NoneType"
  | YBool _ => "bool"
  | YInt _ => "int"
  | YStr _ => "str"
  | YSeq _ => "list"
  | YMap _ => "dict"
  end.

(** [d.get(key)] *)
Definition dict_get (items : list (string * yaml)) (key : string) : yaml :=
  match find (λ kv, String.eqb kv.1 key) items with
  | Some kv => kv.2
  | None => YNull
  end.

(** [v or {}] *)
Definition or_empty (v : yaml) : yaml := if truthy_yaml v then v else YMap [].

(** Lines 109-111 and 112-114 of [_resolve_frontend_urls]: the value of
    [url] after the look-up of the [url] of a section of the
    configuration. *)
Definition section_url (cfg : list (string * yaml)) (section : string) (url : yaml)
  : yaml :=
  match or_empty (dict_get cfg section) with
  | YMap d => if truthy_yaml (dict_get d "url") then dict_get d "url" else url
  | _ => url
  end.

(** Lines 118-122: [if not url.endswith("/"): url += "/"]. *)
Definition with_slash (url : yaml) : result string :=
  match url with
  | YStr s => Ok (if endswith s "/" then s else s +:+ "/")
  | v => Raise (AttributeError
                  ("'" +:+ type_name v +:+ "' object has no attribute 'endswith'"))
  end.

(** [_resolve_frontend_urls()].  [environ] is [os.environ]; [config] is
    what [config.yaml] loads to, and [None] when the file does not exist
    or when opening or loading it raises, which happens before either
    URL is assigned. *)
Definition _resolve_frontend_urls (environ : gmap string string) (config : option yaml)
  : result (string * string) :=
  let app_url := YStr (default "http://localhost:12000/" (environ !! "DELEGATOR_URL")) in
  let dash_url := YStr (default "http://localhost:14000/" (environ !! "TASKS_URL")) in
  let urls :=
    match config with
    | Some cfg =>
        match or_empty cfg with
        | YMap c => (section_url c "delegator" app_url, section_url c "tasks" dash_url)
        | _ => (app_url, dash_url)
        end
    | None => (app_url, dash_url)
    end in
  match with_slash urls.1 with
  | Ok app_url =>
      match with_slash urls.2 with
      | Ok dash_url => Ok (app_url, dash_url)
      | Raise e => Raise e
      | Fuel => Fuel
      end
  | Raise e => Raise e
  | Fuel => Fuel
  end.

(** ** Sample data *)

(** An environment that names both frontends, and a configuration that
    names the delegator. *)
Definition environ0 : gmap string string :=
  <["DELEGATOR_URL" := "http://10.0.0.5:12000"]>
    (<["TASKS_URL" := "http://10.0.0.5:14000"]> ∅).

Definition config0 : yaml :=
  YMap [("orchestrator", YMap [("port", YInt 10000)]);
        ("delegator", YMap [("url", YStr "http://robot.local:12000")])].

(** [start.py -w spawner --no-app], with two workers detected. *)
Definition spawner_only : PlanArgs :=
  mkPlanArgs false true true true false (Some ["spawner"]) false.

(** An interrupt arrives after a stop request; [stopped] says whether one
    was made before the inputs. *)
Fixpoint forced (stopped : bool) (inputs : list input) : bool :=
  match inputs with
  | [] => false
  | i :: rest =>
      (stopped && is_interrupt i) || forced (stopped || stops i) rest
  end.

End Supervisor.

(* ===================================================================== *)
(** * The task dashboard: [tasks/dashboard.py] *)
(* ===================================================================== *)

Module Dashboard.
Import Py Watcher.

(** ** The pending store

    The dashboard reads and writes the file the watcher polls.  The file
    is the list of records it decodes to; a missing or undecodable file
    reads as the empty list. *)

(** [{"urgency": u, **payload_extra}]: the keys of [extra] win. *)
Definition merge_payload (base extra : payload) : payload :=
  let pick {A} (f : payload → option A) : option A :=
    match f extra with
    | Some x => Some x
    | None => f base
    end in
  mkPayload (pick urgency) (pick task_text) (pick use_async) (pick refined)
            (pick original_task) (pick refined_task).

(** [s or d] for two strings. *)
Definition or_else (s d : string) : string := if truthy s then s else d.

Section Store.

(** The random generator is the one of the watcher's world; [dashboard.py]
    has its own copy of [generate_task_id], line for line that of
    [watch_tasks.py]. *)
Variable W : world.

(** [add_task(kind, urgency, payload_extra)]: returns the task, and the
    file as written; [k] counts the random draws. *)
Definition add_task (fuel : nat) (kind urgency : string) (payload_extra : option payload)
           (file : list task) (k : nat) : result (task * list task * nat) :=
  let tasks := file in
  let existing_ids := existing_ids_of tasks in
  '(task_id, k') ← generate_task_id W fuel existing_ids k;
  let task :=
    mkTask (Some task_id) (Some (or_else kind "generic_task"))
           (Some (merge_payload
                    (mkPayload (Some (lower (or_else urgency "medium")))
                               None None None None None)
                    (default empty_payload payload_extra)))
           None None None None None in
  mret (task, tasks ++ [task], k').

(** [on_add(kind, urgency, description)], without the refresh of the
    page. *)
Definition on_add (fuel : nat) (kind urgency description : string)
           (file : list task) (k : nat) : result (task * list task * nat) :=
  let payload :=
    mkPayload (Some (lower (or_else urgency "medium"))) (Some (strip description))
              None None None None in
  add_task fuel kind urgency (Some payload) file k.

End Store.

(** [str(t.get("task_id"))] *)
Definition str_of_id (o : option string) : string :=
  match o with
  | Some s => s
  | None => "None"
  end.

(** [remove_tasks(task_ids)]: the number of records removed, and the file
    as it is afterwards. *)
Definition remove_tasks (task_ids : list string) (file : list task) : Z * list task :=
  match task_ids with
  | [] => (0, file)
  | _ :: _ =>
      let sids : gset string := list_to_set task_ids in
      let tasks := file in
      let before := length tasks in
      let tasks := filter (λ t, str_of_id (task_id t) ∉ sids) tasks in
      (Z.of_nat before - Z.of_nat (length tasks), tasks)
  end.

(** ** The tail of the log *)

(** [data.splitlines()] on bytes: a line ends at a line feed, a carriage
    return, or the two in a row; there is no empty line after the last
    line end.  [cur] holds the bytes of the line that is being read. *)
Fixpoint splitlines_from (cur data : list Byte.byte) : list (list Byte.byte) :=
  match data with
  | [] => match cur with [] => [] | _ :: _ => [cur] end
  | b :: rest =>
      if Byte.eqb b Byte.x0a then cur :: splitlines_from [] rest
      else if Byte.eqb b Byte.x0d then
        match rest with
        | b' :: rest' =>
            if Byte.eqb b' Byte.x0a then cur :: splitlines_from [] rest'
            else cur :: splitlines_from [] rest
        | [] => [cur]
        end
      else splitlines_from (cur ++ [b]) rest
  end.

Definition splitlines (data : list Byte.byte) : list (list Byte.byte) :=
  splitlines_from [] data.

Definition block : nat := 4096.

(** Lines 270-277 of [tail_log]: the loop that reads the file backwards.
    [pos] is [f.tell()], [log] the content of the file, of [size] bytes;
    [f.read(size - seek)] at the position [seek] returns [log[seek:]]. *)
Fixpoint tail_loop (fuel : nat) (log : list Byte.byte) (n_lines pos : nat)
         (data : list Byte.byte) : list Byte.byte :=
  match fuel with
  | O => data
  | S fuel' =>
      if (length (splitlines data) <=? n_lines)%nat && (0 <? pos)%nat then
        let seek := (pos - block)%nat in
        let chunk := drop seek log in
        let data := chunk ++ data in
        if (seek =? 0)%nat then data
        else tail_loop fuel' log n_lines seek data
      else data
  end.

(** The buffer [data] after the loop; every pass but the last moves
    [pos] down by a block, so [size + 1] passes are enough. *)
Definition tail_data (log : list Byte.byte) (n_lines : nat) : list Byte.byte :=
  tail_loop (S (length log)) log n_lines (length log) [].

(** [lines[-n:]] for [n >= 0]: the last [n] elements, and the whole list
    for [n = 0]. *)
Definition last_lines {A} (n : nat) (lines : list A) : list A :=
  match n with
  | O => lines
  | S _ => drop (length lines - n) lines
  end.

Definition newline : string := String (ascii_of_nat 10) EmptyString.

Section TailLog.

(** [data.decode(errors="ignore").splitlines()], the decoder and the
    line splitter of [str]. *)
Variable decode_lines : list Byte.byte → list string.

(** [tail_log(n_lines)] on a log file that can be read; [None] stands
    for a file that does not exist. *)
Definition tail_log (LOG_FILE : option (list Byte.byte)) (n_lines : nat) : string :=
  match LOG_FILE with
  | None => "(no logs yet)"
  | Some log =>
      String.concat newline (last_lines n_lines (decode_lines (tail_data log n_lines)))
  end.

End TailLog.

(** The last block of a file. *)
Definition last_block (log : list Byte.byte) : list Byte.byte :=
  drop (length log - block) log.

(** ** Sample data *)

(** What the form of the dashboard adds to the store of [polled0]. *)
Definition added0 : task * list task * nat :=
  match on_add accepting 5 "task" "URGENT" "  inspect the gripper "
               (TASK_FILE polled0) (tick polled0) with
  | Ok r => r
  | _ => (job, [], 0%nat)
  end.

(** A log of 5000 bytes without a line end. *)
Definition long_line : list Byte.byte := replicate 5000 Byte.x61.

End Dashboard.

(* ===================================================================== *)
(** * Properties of the binary heap *)
(* ===================================================================== *)

Module HeapqFacts.
Import Heapq.

Lemma parent_spec (i : nat) :
  (1 ≤ i)%nat → i = (2 * parent i + 1)%nat ∨ i = (2 * parent i + 2)%nat.
Proof.
  intros Hi. unfold parent.
  pose proof (Nat.div_mod_eq (i - 1) 2) as Hd.
  pose proof (Nat.mod_upper_bound (i - 1) 2) as Hm. lia.
Qed.

Lemma parent_left (p : nat) : parent (2 * p + 1) = p.
Proof.
  unfold parent. replace (2 * p + 1 - 1)%nat with (p * 2)%nat by lia.
  now apply Nat.div_mul.
Qed.

Lemma parent_right (p : nat) : parent (2 * p + 2) = p.
Proof.
  unfold parent. replace (2 * p + 2 - 1)%nat with (1 + p * 2)%nat by lia.
  rewrite Nat.div_add by lia. reflexivity.
Qed.

Lemma parent_lt (i : nat) : (1 ≤ i)%nat → (parent i < i)%nat.
Proof. intros Hi. destruct (parent_spec i Hi); lia. Qed.

Section order.
Context {A : Type}.
Variable lt : A → A → bool.

#[local] Abbreviation le := (item_le lt).
#[local] Abbreviation heap_ok := (Heapq.heap_ok lt).
#[local] Abbreviation edges_ok := (Heapq.edges_ok lt).
#[local] Abbreviation above_ok := (Heapq.above_ok lt).
#[local] Abbreviation grand_ok := (Heapq.grand_ok lt).

Hypothesis lt_irrefl : ∀ a, lt a a = false.
Hypothesis lt_le : ∀ a b, lt a b = true → le a b.
Hypothesis le_trans : ∀ a b c, le a b → le b c → le a c.

Lemma le_refl (a : A) : le a a.
Proof. apply lt_irrefl. Qed.

(** The fuel of the two loops is enough: more fuel changes nothing. *)
Lemma siftdown_loop_fuel (x : A) (startpos : nat) (fuel : nat) :
  ∀ fuel' h pos, (pos ≤ fuel)%nat → (pos ≤ fuel')%nat →
    siftdown_loop lt fuel h startpos pos x = siftdown_loop lt fuel' h startpos pos x.
Proof.
  induction fuel as [|fuel IH]; intros fuel' h pos Hf Hf'.
  - assert (pos = 0%nat) as -> by lia.
    destruct fuel'; cbn [siftdown_loop]; [reflexivity|].
    destruct (Nat.ltb_spec startpos 0); [lia | reflexivity].
  - destruct fuel' as [|fuel']; cbn [siftdown_loop].
    + assert (pos = 0%nat) as -> by lia.
      destruct (Nat.ltb_spec startpos 0); [lia | reflexivity].
    + destruct (Nat.ltb_spec startpos pos) as [Hpos|Hpos]; [|reflexivity].
      destruct (h !! parent pos) as [par|]; [|reflexivity].
      destruct (lt x par); [|reflexivity].
      assert (parent pos < pos)%nat by (apply parent_lt; lia).
      apply IH; lia.
Qed.

Lemma smaller_child_bound (h : list A) (pos : nat) :
  smaller_child lt h pos = (2 * pos + 1)%nat
  ∨ smaller_child lt h pos = (2 * pos + 1 + 1)%nat.
Proof.
  unfold smaller_child.
  destruct (h !! (2 * pos + 1)%nat); [|now left].
  destruct (h !! (2 * pos + 1 + 1)%nat); [|now left].
  destruct (negb _); [now right | now left].
Qed.

Lemma siftup_loop_fuel (fuel : nat) :
  ∀ fuel' h pos,
    (length h - pos ≤ fuel)%nat → (length h - pos ≤ fuel')%nat →
    siftup_loop lt fuel h pos = siftup_loop lt fuel' h pos.
Proof.
  induction fuel as [|fuel IH]; intros fuel' h pos Hf Hf'.
  - destruct fuel'; [reflexivity|]. cbn [siftup_loop].
    destruct (Nat.ltb_spec (2 * pos + 1) (length h)); [lia | reflexivity].
  - destruct fuel' as [|fuel']; cbn [siftup_loop].
    + destruct (Nat.ltb_spec (2 * pos + 1) (length h)); [lia | reflexivity].
    + destruct (Nat.ltb_spec (2 * pos + 1) (length h)) as [Hkid|Hkid]; [|reflexivity].
      destruct (h !! smaller_child lt h pos); [|reflexivity].
      pose proof (smaller_child_bound h pos).
      apply IH; rewrite length_insert; lia.
Qed.

Lemma root_min (h : list A) (m : A) :
  heap_ok h → h !! 0%nat = Some m → ∀ i y, h !! i = Some y → le m y.
Proof.
  intros Hok Hm i. induction (lt_wf i) as [i _ IH]. intros y Hy.
  destruct i as [|i]; [rewrite Hm in Hy; injection Hy as <-; apply le_refl|].
  assert (Hp : (parent (S i) < S i)%nat) by (apply parent_lt; lia).
  destruct (lookup_lt_is_Some_2 h (parent (S i))) as [p Hpv].
  { apply lookup_lt_Some in Hy. lia. }
  eapply le_trans; [apply (IH _ Hp p Hpv)|].
  apply (Hok (S i)); [lia | assumption..].
Qed.

(** *** [_siftdown] *)

Lemma write_ok (h : list A) (pos : nat) (x v : A) :
  above_ok h pos → h !! pos = Some v → le x v →
  (pos = 0%nat ∨ ∃ par, h !! parent pos = Some par ∧ le par x) →
  heap_ok (<[pos := x]> h).
Proof.
  intros Hab Hv Hxv Hpar i c p Hi Hc Hp.
  assert (Hlen : (pos < length h)%nat) by (eapply lookup_lt_Some; eassumption).
  assert (Hne : parent i ≠ i) by (pose proof (parent_lt i Hi); lia).
  destruct (decide (i = pos)) as [->|Hipos].
  - rewrite list_lookup_insert_eq in Hc by assumption. injection Hc as <-.
    rewrite list_lookup_insert_ne in Hp by congruence.
    destruct Hpar as [->|(par & Hpar & Hle)]; [lia|]. congruence.
  - rewrite list_lookup_insert_ne in Hc by congruence.
    destruct (decide (parent i = pos)) as [Heq|Hppos].
    + rewrite Heq, list_lookup_insert_eq in Hp by assumption. injection Hp as <-.
      apply (le_trans _ v); [assumption|].
      apply (Hab i); [assumption.. | now rewrite Heq].
    + rewrite list_lookup_insert_ne in Hp by congruence.
      now apply (Hab i).
Qed.

Lemma siftdown_loop_ok (x : A) (fuel : nat) :
  ∀ h pos v,
    (pos ≤ fuel)%nat → above_ok h pos → grand_ok h pos →
    h !! pos = Some v → le x v →
    heap_ok (siftdown_loop lt fuel h 0 pos x).
Proof.
  induction fuel as [|fuel IH]; intros h pos v Hfuel Hab Hgr Hv Hxv; simpl.
  - apply (write_ok h pos x v); auto. left. lia.
  - assert (Hlen : (pos < length h)%nat) by (eapply lookup_lt_Some; eassumption).
    destruct (Nat.ltb_spec 0 pos) as [Hpos|Hpos];
      [|apply (write_ok h pos x v); auto; left; lia].
    pose proof (parent_lt pos Hpos) as Hplt.
    destruct (lookup_lt_is_Some_2 h (parent pos)) as [par Hpar]; [lia|].
    rewrite Hpar. destruct (lt x par) eqn:Hlt.
    + apply (IH _ _ par); [lia | | |
        rewrite list_lookup_insert_ne by lia; exact Hpar | now apply lt_le].
      * intros i c p Hi Hne Hc Hp.
        destruct (decide (i = pos)) as [->|Hipos].
        -- rewrite list_lookup_insert_eq in Hc by assumption. injection Hc as <-.
           rewrite list_lookup_insert_ne in Hp by lia.
           rewrite Hpar in Hp. injection Hp as <-. apply le_refl.
        -- rewrite list_lookup_insert_ne in Hc by congruence.
           destruct (decide (parent i = pos)) as [Heq|Hppos].
           ++ rewrite Heq, list_lookup_insert_eq in Hp by assumption.
              injection Hp as <-. now apply (Hgr i).
           ++ rewrite list_lookup_insert_ne in Hp by congruence. now apply (Hab i).
      * intros i c g Hp1 Hi Heq Hc Hg.
        pose proof (parent_lt (parent pos) Hp1) as Hgl.
        rewrite list_lookup_insert_ne in Hg by lia.
        assert (Hgpar : le g par) by (apply (Hab (parent pos)); auto; lia).
        destruct (decide (i = pos)) as [->|Hipos].
        -- rewrite list_lookup_insert_eq in Hc by assumption. now injection Hc as <-.
        -- rewrite list_lookup_insert_ne in Hc by congruence.
           apply (le_trans _ par); [assumption|].
           apply (Hab i); [assumption.. | now rewrite Heq].
    + apply (write_ok h pos x v); auto. right. exists par. split; [assumption|exact Hlt].
Qed.

Lemma siftdown_loop_perm (x : A) (fuel : nat) :
  ∀ h pos, (pos < length h)%nat →
           siftdown_loop lt fuel h 0 pos x ≡ₚ <[pos := x]> h.
Proof.
  induction fuel as [|fuel IH]; intros h pos Hlen; simpl; [reflexivity|].
  destruct (Nat.ltb_spec 0 pos) as [Hpos|Hpos]; [|reflexivity].
  pose proof (parent_lt pos Hpos) as Hplt.
  destruct (h !! parent pos) as [par|] eqn:Hpar; [|reflexivity].
  destruct (lt x par); [|reflexivity].
  rewrite IH by (rewrite length_insert; lia).
  rewrite <- (list_insert_insert_eq h pos par x).
  apply Permutation_insert_swap.
  - now apply list_lookup_insert_eq.
  - now rewrite list_lookup_insert_ne by lia.
Qed.

Lemma siftdown_loop_length (x : A) (fuel : nat) :
  ∀ h pos, length (siftdown_loop lt fuel h 0 pos x) = length h.
Proof.
  induction fuel as [|fuel IH]; intros h pos; simpl; [apply length_insert|].
  destruct (0 <? pos)%nat; [|apply length_insert].
  destruct (h !! parent pos) as [par|]; [|apply length_insert].
  destruct (lt x par); [|apply length_insert].
  now rewrite IH, length_insert.
Qed.

(** *** [heappush] *)

Lemma heap_ok_prefix (h : list A) (x : A) : heap_ok (h ++ [x]) → heap_ok h.
Proof.
  intros Hok i c p Hi Hc Hp. apply (Hok i); [assumption| |].
  - rewrite lookup_app_l; [assumption | eapply lookup_lt_Some; eassumption].
  - rewrite lookup_app_l; [assumption | eapply lookup_lt_Some; eassumption].
Qed.

Lemma heappush_perm (h : list A) (x : A) : heappush lt h x ≡ₚ h ++ [x].
Proof.
  unfold heappush, _siftdown. rewrite list_lookup_middle by reflexivity.
  rewrite siftdown_loop_perm by (rewrite length_app; simpl; lia).
  rewrite list_insert_id; [reflexivity | now apply list_lookup_middle].
Qed.

Lemma heappush_ok (h : list A) (x : A) :
  heap_ok h → heap_ok (heappush lt h x) ∧ heappush lt h x ≡ₚ h ++ [x].
Proof.
  intros Hok. unfold heappush, _siftdown.
  assert (Hx : (h ++ [x]) !! length h = Some x) by now rewrite list_lookup_middle.
  rewrite Hx. split.
  - apply (siftdown_loop_ok x _ _ _ x); [lia | | | assumption | apply le_refl].
    + intros i c p Hi Hne Hc Hp.
      assert (Hil : (i < length h)%nat).
      { apply lookup_lt_Some in Hc. rewrite length_app in Hc. simpl in Hc. lia. }
      pose proof (parent_lt i Hi).
      rewrite lookup_app_l in Hc, Hp by lia. now apply (Hok i).
    + intros i c g Hp1 Hi Heq Hc Hg.
      apply lookup_lt_Some in Hc. rewrite length_app in Hc. simpl in Hc.
      destruct (parent_spec i Hi); lia.
  - rewrite siftdown_loop_perm by (rewrite length_app; simpl; lia).
    now rewrite list_insert_id.
Qed.

(** *** [_siftup] *)

Lemma smaller_child_spec (h : list A) (pos : nat) :
  (2 * pos + 1 < length h)%nat →
  ∃ cv, h !! smaller_child lt h pos = Some cv
        ∧ parent (smaller_child lt h pos) = pos
        ∧ (pos < smaller_child lt h pos)%nat
        ∧ ∀ i c, (1 ≤ i)%nat → parent i = pos → h !! i = Some c → le cv c.
Proof.
  intros Hlen. unfold smaller_child.
  destruct (lookup_lt_is_Some_2 h (2 * pos + 1)) as [l Hl]; [lia|].
  rewrite Hl.
  assert (Hkids : ∀ i, (1 ≤ i)%nat → parent i = pos →
                       i = (2 * pos + 1)%nat ∨ i = (2 * pos + 1 + 1)%nat).
  { intros i Hi Hp. destruct (parent_spec i Hi); lia. }
  destruct (h !! (2 * pos + 1 + 1)%nat) as [r|] eqn:Hr.
  - destruct (lt l r) eqn:Hlr; cbn [negb].
    + exists l. split_and!; [assumption | apply parent_left | lia |].
      intros i c Hi Hp Hc. destruct (Hkids i Hi Hp) as [->| ->].
      * rewrite Hl in Hc. injection Hc as <-. apply le_refl.
      * rewrite Hr in Hc. injection Hc as <-. now apply lt_le.
    + exists r. split_and!; [assumption | | lia |].
      * replace (2 * pos + 1 + 1)%nat with (2 * pos + 2)%nat by lia. apply parent_right.
      * intros i c Hi Hp Hc. destruct (Hkids i Hi Hp) as [->| ->].
        -- rewrite Hl in Hc. injection Hc as <-. exact Hlr.
        -- rewrite Hr in Hc. injection Hc as <-. apply le_refl.
  - exists l. split_and!; [assumption | apply parent_left | lia |].
    intros i c Hi Hp Hc. destruct (Hkids i Hi Hp) as [->| ->].
    + rewrite Hl in Hc. injection Hc as <-. apply le_refl.
    + congruence.
Qed.

Lemma siftup_loop_ok (fuel : nat) :
  ∀ h pos h' leaf,
    (length h - pos ≤ fuel)%nat → (pos < length h)%nat → edges_ok h pos →
    siftup_loop lt fuel h pos = (h', leaf) →
    length h' = length h
    ∧ (leaf < length h)%nat
    ∧ (length h ≤ 2 * leaf + 1)%nat
    ∧ edges_ok h' leaf
    ∧ ∀ x, <[leaf := x]> h' ≡ₚ <[pos := x]> h.
Proof.
  induction fuel as [|fuel IH]; intros h pos h' leaf Hfuel Hlen [He Hg]; [lia|].
  cbn [siftup_loop].
  destruct (Nat.ltb_spec (2 * pos + 1) (length h)) as [Hkid|Hkid].
  - destruct (smaller_child_spec h pos Hkid) as (cv & Hcv & Hpar & Hgt & Hmin).
    rewrite Hcv. set (c := smaller_child lt h pos) in *.
    assert (Hc : (c < length h)%nat) by (eapply lookup_lt_Some; eassumption).
    intros Hloop. apply IH in Hloop; [| rewrite length_insert; lia..|].
    + destruct Hloop as (Hl & Hleaf & Hend & Hedges & Hperm).
      rewrite length_insert in Hl, Hleaf, Hend.
      split_and!; [assumption.. |].
      intros x. rewrite Hperm.
      rewrite <- (list_insert_insert_eq h pos cv x).
      apply Permutation_insert_swap.
      * now apply list_lookup_insert_eq.
      * now rewrite list_lookup_insert_ne by lia.
    + split.
      * intros i ci p Hi Hic Hpc Hci Hp.
        destruct (decide (i = pos)) as [->|Hipos].
        -- rewrite list_lookup_insert_eq in Hci by assumption. injection Hci as <-.
           pose proof (parent_lt pos Hi).
           rewrite list_lookup_insert_ne in Hp by lia.
           apply (Hg c); [assumption | lia | assumption..].
        -- rewrite list_lookup_insert_ne in Hci by congruence.
           destruct (decide (parent i = pos)) as [Heq|Hppos].
           ++ rewrite Heq, list_lookup_insert_eq in Hp by assumption.
              injection Hp as <-. now apply (Hmin i).
           ++ rewrite list_lookup_insert_ne in Hp by congruence. now apply (He i).
      * intros i ci g Hc1 Hi Heq Hci Hgv.
        pose proof (parent_lt i Hi).
        rewrite list_lookup_insert_ne in Hci by lia.
        rewrite Hpar, list_lookup_insert_eq in Hgv by assumption. injection Hgv as <-.
        apply (He i); [assumption | lia | lia | assumption |]. now rewrite Heq.
  - intros [= <- <-]. split_and!; [reflexivity | assumption | lia | now split | reflexivity].
Qed.

Lemma siftup_ok (h : list A) (x : A) :
  h !! 0%nat = Some x → edges_ok h 0 →
  heap_ok (_siftup lt h 0) ∧ _siftup lt h 0 ≡ₚ h.
Proof.
  intros Hx Hedges. unfold _siftup. rewrite Hx.
  assert (Hlen : (0 < length h)%nat) by (eapply lookup_lt_Some; eassumption).
  destruct (siftup_loop lt (length h) h 0) as [h1 leaf] eqn:Hloop.
  apply siftup_loop_ok in Hloop as (Hl & Hleaf & Hend & [He Hg] & Hperm);
    [| lia | assumption..].
  unfold _siftdown. rewrite list_lookup_insert_eq by lia. split.
  - apply (siftdown_loop_ok x _ _ _ x);
      [lia | | | rewrite list_lookup_insert_eq by lia; reflexivity | apply le_refl].
    + intros i c p Hi Hne Hc Hp.
      assert (Hil : (i < length h)%nat).
      { apply lookup_lt_Some in Hc. rewrite length_insert in Hc. lia. }
      assert (Hpl : parent i ≠ leaf) by (destruct (parent_spec i Hi); lia).
      rewrite list_lookup_insert_ne in Hc, Hp by congruence. now apply (He i).
    + intros i c g _ Hi Heq Hc _.
      apply lookup_lt_Some in Hc. rewrite length_insert in Hc.
      destruct (parent_spec i Hi); lia.
  - rewrite siftdown_loop_perm by (rewrite length_insert; lia).
    rewrite list_insert_insert_eq, Hperm. now rewrite list_insert_id.
Qed.

(** *** [heappop] *)

Lemma pop_last_spec (l : list A) :
  match pop_last l with
  | Some (r, y) => l = r ++ [y]
  | None => l = []
  end.
Proof.
  induction l as [|x l IH]; simpl; [reflexivity|].
  destruct (pop_last l) as [[r y]|]; subst; reflexivity.
Qed.

Lemma heappop_ok (h : list A) :
  heap_ok h →
  match heappop lt h with
  | Some (m, h') => heap_ok h' ∧ h ≡ₚ m :: h' ∧ ∀ y, y ∈ h' → le m y
  | None => h = []
  end.
Proof.
  intros Hok. unfold heappop.
  pose proof (pop_last_spec h) as Hpop.
  destruct (pop_last h) as [[h0 lastelt]|]; [|assumption]. subst h.
  destruct h0 as [|m tl].
  - split_and!; [intros i c p _ Hc; now rewrite lookup_nil in Hc | reflexivity |].
    intros y Hy. now apply elem_of_nil in Hy.
  - assert (Hok0 : heap_ok (m :: tl)) by (eapply heap_ok_prefix; eassumption).
    destruct (siftup_ok (<[0%nat := lastelt]> (m :: tl)) lastelt) as [Hheap Hperm].
    + reflexivity.
    + split.
      * intros i c p Hi _ Hne Hc Hp. destruct i as [|i]; [lia|].
        destruct (parent (S i)) as [|k] eqn:Hk; [congruence|].
        simpl in Hc, Hp. apply (Hok0 (S i)); [lia | exact Hc | now rewrite Hk].
      * intros i c g Hpos. lia.
    + simpl in Hheap, Hperm.
      split_and!; [assumption | |].
      * rewrite Hperm. simpl. constructor.
        symmetry. apply Permutation_cons_append.
      * intros y Hy. rewrite Hperm in Hy.
        assert (Hin : y ∈ (m :: tl) ++ [lastelt]).
        { apply elem_of_cons in Hy as [->|Hy].
          - apply elem_of_app. right. now left.
          - apply elem_of_app. left. now right. }
        apply list_elem_of_lookup in Hin as [i Hi].
        now apply (root_min _ m Hok eq_refl i).
Qed.

End order.
End HeapqFacts.

(* ===================================================================== *)
(** * Properties of the watcher *)
(* ===================================================================== *)

Module WatcherFacts.
Import Py Watcher.

(** ** Strings *)

Lemma lower_ascii_idem (c : ascii) : lower_ascii (lower_ascii c) = lower_ascii c.
Proof. destruct c as [[] [] [] [] [] [] [] []]; reflexivity. Qed.

Lemma lower_idem (s : string) : lower (lower s) = lower s.
Proof.
  induction s as [|c s IH]; simpl; [reflexivity|].
  now rewrite lower_ascii_idem, IH.
Qed.

(** ** Priorities *)

Lemma PRIORITY_ORDER_other (k : string) :
  k ∉ ["urgent"; "high"; "medium"; "low"] → PRIORITY_ORDER !! k = None.
Proof.
  intros Hk. unfold PRIORITY_ORDER.
  do 4 (rewrite lookup_insert_ne by (intros <-; apply Hk; set_solver)).
  apply lookup_empty.
Qed.

Lemma get_priority_range (t : task) : 0 <= get_priority t <= 3.
Proof.
  unfold get_priority, PRIORITY_ORDER.
  set (k := lower (urgency_of t)). clearbody k.
  destruct (decide (k = "urgent")) as [->|?]; [vm_compute; split; discriminate|].
  destruct (decide (k = "high")) as [->|?]; [vm_compute; split; discriminate|].
  destruct (decide (k = "medium")) as [->|?]; [vm_compute; split; discriminate|].
  destruct (decide (k = "low")) as [->|?]; [vm_compute; split; discriminate|].
  rewrite !lookup_insert_ne, lookup_empty by congruence.
  vm_compute; split; discriminate.
Qed.

(** C10.  A task whose payload has no urgency, or whose urgency in lower
    case is none of urgent, high, medium and low, gets the priority of
    medium; and the priority of a task depends on its urgency only through
    the lower-case form of it. *)
Theorem get_priority_default (t : task) :
  (∀ p u, task_payload t = Some p → urgency p = Some u →
          lower u ∉ ["urgent"; "high"; "medium"; "low"]) →
  get_priority t = PRIORITY_medium
  ∧ PRIORITY_ORDER !! "medium" = Some PRIORITY_medium
  ∧ ∀ u, get_priority (with_urgency (lower u) t) = get_priority (with_urgency u t).
Proof.
  intros H. split; [|split].
  - unfold get_priority, urgency_of.
    destruct (task_payload t) as [p|] eqn:Hp; [|reflexivity].
    destruct (urgency p) as [u|] eqn:Hu; [|reflexivity].
    simpl. now rewrite (PRIORITY_ORDER_other _ (H p u eq_refl Hu)).
  - reflexivity.
  - intros u. unfold get_priority, urgency_of, with_urgency. simpl.
    now rewrite lower_idem.
Qed.

Lemma get_priority_default_witness :
  get_priority (mk_pending "Task-odd1" "whenever" "e") = 2
  ∧ get_priority (unnamed "HIGH" "a") = get_priority (unnamed "high" "a").
Proof.
  destruct (get_priority_default (mk_pending "Task-odd1" "whenever" "e"))
    as (Hdefault & _ & _).
  - intros p u [= <-] [= <-]. vm_compute.
    intros H. repeat (apply elem_of_cons in H as [H|H]; [discriminate|]).
    now apply elem_of_nil in H.
  - destruct (get_priority_default (unnamed "x" "a")) as (_ & _ & Hcase).
    + intros p u [= <-] [= <-]. vm_compute.
      intros H. repeat (apply elem_of_cons in H as [H|H]; [discriminate|]).
      now apply elem_of_nil in H.
    + split; [exact Hdefault | symmetry; exact (Hcase "HIGH")].
Defined.

(** ** The heap *)

Lemma entry_ltb_lt (a b : entry) : entry_ltb a b = true ↔ entry_lt a b.
Proof.
  unfold entry_ltb, entry_lt.
  rewrite orb_true_iff, andb_true_iff, Z.ltb_lt, Z.eqb_eq, Nat.ltb_lt.
  reflexivity.
Qed.

Lemma entry_ltb_nlt (a b : entry) : entry_ltb a b = false ↔ ¬ entry_lt a b.
Proof.
  rewrite <- entry_ltb_lt. destruct (entry_ltb a b); split; congruence.
Qed.

Lemma entry_lt_asym (a b : entry) : entry_lt a b → ¬ entry_lt b a.
Proof. unfold entry_lt. lia. Qed.

Lemma entry_lt_between (m y e : entry) :
  ¬ entry_lt y m → entry_lt y e → entry_lt m e.
Proof. unfold entry_lt. lia. Qed.

Lemma entry_lt_total (a b : entry) :
  e_seq a ≠ e_seq b → ¬ entry_lt b a → entry_lt a b.
Proof. unfold entry_lt. lia. Qed.

Lemma entry_ltb_irrefl (a : entry) : entry_ltb a a = false.
Proof. apply entry_ltb_nlt. unfold entry_lt. lia. Qed.

Lemma entry_ltb_le (a b : entry) :
  entry_ltb a b = true → Heapq.item_le entry_ltb a b.
Proof.
  intros H. apply entry_ltb_lt in H. apply entry_ltb_nlt. now apply entry_lt_asym.
Qed.

Lemma entry_le_trans (a b c : entry) :
  Heapq.item_le entry_ltb a b → Heapq.item_le entry_ltb b c →
  Heapq.item_le entry_ltb a c.
Proof.
  unfold Heapq.item_le. rewrite !entry_ltb_nlt. unfold entry_lt. lia.
Qed.

(** The queue is a heap for the order of the entries. *)
#[local] Abbreviation queue_ok := (Heapq.heap_ok entry_ltb).

Lemma queue_ok_nil : queue_ok [].
Proof. intros i c p _ Hc. now rewrite lookup_nil in Hc. Qed.

Lemma heappush_queue (q : list entry) (e : entry) :
  queue_ok q → queue_ok (heappush q e) ∧ heappush q e ≡ₚ q ++ [e].
Proof.
  apply HeapqFacts.heappush_ok;
    [apply entry_ltb_irrefl | apply entry_ltb_le | apply entry_le_trans].
Qed.

Lemma heappush_queue_perm (q : list entry) (e : entry) : heappush q e ≡ₚ q ++ [e].
Proof. apply HeapqFacts.heappush_perm. Qed.

(** [heappop] fails on the empty queue only, and otherwise returns a
    smallest entry and leaves a heap of the other entries. *)
Lemma heappop_queue (q : list entry) :
  queue_ok q →
  match heappop q with
  | Some (m, q') =>
      queue_ok q' ∧ q ≡ₚ m :: q' ∧ Forall (λ y, ¬ entry_lt y m) q'
  | None => q = []
  end.
Proof.
  intros Hok.
  pose proof (HeapqFacts.heappop_ok entry_ltb entry_ltb_irrefl entry_ltb_le
                entry_le_trans q Hok) as H.
  unfold heappop. destruct (Heapq.heappop entry_ltb q) as [[m q']|]; [|exact H].
  destruct H as (Hq' & Hperm & Hmin). split_and!; [assumption..|].
  apply Forall_forall. intros y Hy. apply entry_ltb_nlt. now apply Hmin.
Qed.

Lemma drain_sorted (n : nat) :
  ∀ q, queue_ok q → (length q ≤ n)%nat → NoDup (map e_seq q) →
    Permutation q (drain n q) ∧ StronglySorted entry_lt (drain n q).
Proof.
  induction n as [|n IH]; intros q Hok Hlen Hnd.
  - destruct q; [|simpl in Hlen; lia]. split; constructor.
  - simpl. pose proof (heappop_queue q Hok) as Hpop.
    destruct (heappop q) as [[m rest]|]; [|subst q; split; constructor].
    destruct Hpop as (Hok' & Hperm & Hall).
    assert (Hnd' : NoDup (map e_seq (m :: rest))).
    { rewrite <- (Permutation_map e_seq Hperm). exact Hnd. }
    assert (Hlen' : (length rest ≤ n)%nat).
    { apply Permutation_length in Hperm. simpl in *. lia. }
    simpl in Hnd'. apply NoDup_cons in Hnd' as [Hnotin Hnd''].
    destruct (IH rest Hok' Hlen' Hnd'') as [Hp Hs]. split.
    + rewrite Hperm. now constructor.
    + constructor; [exact Hs|].
      rewrite <- Hp. rewrite Forall_forall in Hall |- *.
      intros y Hy. apply entry_lt_total; [|now apply Hall].
      intros Heq. apply Hnotin. rewrite Heq.
      apply list_elem_of_In, in_map. now apply list_elem_of_In.
Qed.

(** Emptying a heap whose sequence numbers differ gives its entries in
    the one order that is sorted. *)
Lemma pop_all_unique (q l : list entry) :
  queue_ok q → NoDup (map e_seq q) → Permutation q l → StronglySorted entry_lt l →
  pop_all q = l.
Proof.
  intros Hok Hnd Hp Hs. unfold pop_all.
  destruct (drain_sorted (length q) q Hok (le_n _) Hnd) as [Hp' Hs'].
  apply (StronglySorted_unique_strong entry_lt); [|assumption..|].
  - intros x y _ _ Hxy Hyx. now destruct (entry_lt_asym x y).
  - now rewrite <- Hp'.
Qed.

Lemma entries_from_seq (ts : list task) :
  ∀ n e, e ∈ entries_from n ts → (n ≤ e_seq e)%nat.
Proof.
  induction ts as [|t ts IH]; intros n e He; simpl in He.
  - now apply elem_of_nil in He.
  - apply elem_of_cons in He as [->|He]; [simpl; lia|].
    apply IH in He. lia.
Qed.

Lemma entries_from_NoDup (ts : list task) :
  ∀ n, NoDup (map e_seq (entries_from n ts)).
Proof.
  induction ts as [|t ts IH]; intros n; simpl; [constructor|].
  apply NoDup_cons. split; [|apply IH].
  intros Hin. apply list_elem_of_In, in_map_iff in Hin as (e & He & Hin).
  apply list_elem_of_In, entries_from_seq in Hin. lia.
Qed.

Lemma ranked_sorted (k : Z) (ts : list task) :
  ∀ n, StronglySorted entry_lt (ranked k (entries_from n ts)).
Proof.
  unfold ranked.
  induction ts as [|t ts IH]; intros n; simpl; [constructor|].
  rewrite filter_cons. case_decide as Hk; [|apply IH].
  constructor; [apply IH|].
  apply Forall_forall. intros y Hy.
  apply list_elem_of_filter in Hy as [Hyk Hy].
  apply entries_from_seq in Hy. right. simpl in *. lia.
Qed.

Lemma ranked_prio (k : Z) (es : list entry) (e : entry) :
  e ∈ ranked k es → e_prio e = k.
Proof. unfold ranked. rewrite list_elem_of_filter. tauto. Qed.

Lemma in_rank_order_sorted (n : nat) (ts : list task) :
  StronglySorted entry_lt (in_rank_order (entries_from n ts)).
Proof.
  unfold in_rank_order.
  repeat (apply StronglySorted_app_2; [| apply ranked_sorted |]);
    [..| apply ranked_sorted];
    intros x y Hx Hy; left;
    rewrite ?elem_of_app in Hy;
    apply ranked_prio in Hx;
    repeat match type of Hy with _ ∨ _ => destruct Hy as [Hy|Hy] end;
    apply ranked_prio in Hy; lia.
Qed.

Lemma in_rank_order_perm (es : list entry) :
  Forall (λ e, 0 <= e_prio e <= 3) es → Permutation es (in_rank_order es).
Proof.
  unfold in_rank_order, ranked.
  induction 1 as [|e es He _ IH]; [reflexivity|].
  rewrite !filter_cons.
  repeat case_decide; try lia;
    rewrite ?app_comm_cons, <- ?Permutation_middle; simpl;
    rewrite <- ?Permutation_middle; now constructor.
Qed.

Lemma entries_from_prio (ts : list task) :
  ∀ n, Forall (λ e, 0 <= e_prio e <= 3) (entries_from n ts).
Proof.
  induction ts as [|t ts IH]; intros n; simpl; constructor; [|apply IH].
  apply get_priority_range.
Qed.

Lemma ranked_tasks (k : Z) (ts : list task) :
  ∀ n, map e_task (ranked k (entries_from n ts))
       = filter (λ t, get_priority t = k) ts.
Proof.
  unfold ranked.
  induction ts as [|t ts IH]; intros n; simpl; [reflexivity|].
  rewrite !filter_cons. simpl.
  case_decide; simpl; now rewrite IH.
Qed.

Lemma in_rank_order_tasks (n : nat) (ts : list task) :
  map e_task (in_rank_order (entries_from n ts)) = by_urgency ts.
Proof.
  unfold in_rank_order, by_urgency.
  now rewrite !map_app, !ranked_tasks.
Qed.

(** The poll pushes one entry per task, numbered in the order of the
    store, when every task has an id, the ids differ and none was seen;
    and the queue stays a heap. *)
Lemma enqueue_all_fresh (ts : list task) :
  ∀ s, Forall (λ t, is_Some (tid_of t)) ts →
       NoDup (omap tid_of ts) →
       (∀ tid, tid ∈ omap tid_of ts → tid ∉ seen_ids s) →
       queue_ok (task_queue s) →
       queue_ok (task_queue (enqueue_all ts s))
       ∧ task_queue (enqueue_all ts s) ≡ₚ task_queue s ++ entries_from (seq s) ts.
Proof.
  induction ts as [|t ts IH]; intros s Hid Hnd Hnew Hok; simpl.
  - now rewrite app_nil_r.
  - apply Forall_cons in Hid as [[tid Htid] Hid].
    simpl in Hnd, Hnew. rewrite Htid in Hnd, Hnew.
    apply NoDup_cons in Hnd as [Hnotin Hnd].
    unfold enqueue_all in *. simpl.
    set (e := mkEntry (get_priority t) (seq s) (Some tid) t).
    set (s1 := mkState (S (seq s)) ({[tid]} ∪ seen_ids s)
                       (heappush (task_queue s) e)
                       (idle_state s) (TASK_FILE s) (COMPLETED_FILE s)
                       (RUNNING_FILE s) (tick s)).
    assert (Hs1 : enqueue s t = s1).
    { unfold enqueue. rewrite Htid.
      now rewrite bool_decide_eq_false_2 by (apply Hnew; left). }
    rewrite Hs1. destruct (heappush_queue (task_queue s) e Hok) as [Hok1 Hperm1].
    destruct (IH s1 Hid Hnd) as [Hok2 Hperm2]; [| exact Hok1 |].
    + simpl. intros tid' Hin Hs. apply elem_of_union in Hs as [Hs|Hs].
      * apply elem_of_singleton in Hs as ->. contradiction.
      * apply (Hnew tid'); [now right | exact Hs].
    + split; [exact Hok2|]. rewrite Hperm2. simpl. rewrite Hperm1, Htid.
      now rewrite <- app_assoc.
Qed.

(** C2.  Let the poll enqueue the tasks [ts] (each with an id, the ids
    pairwise different and not seen before) into an empty queue.  Popping
    until the queue is empty then yields the urgent tasks, then the high,
    the medium and the low ones, and within one urgency the tasks in the
    order in which they were enqueued. *)
Theorem queue_pops_by_urgency_then_arrival (ts : list task) (s : wstate) :
  task_queue s = [] →
  Forall (λ t, is_Some (tid_of t)) ts →
  NoDup (omap tid_of ts) →
  (∀ tid, tid ∈ omap tid_of ts → tid ∉ seen_ids s) →
  map e_task (pop_all (task_queue (enqueue_all ts s))) = by_urgency ts.
Proof.
  intros Hq Hid Hnd Hnew.
  destruct (enqueue_all_fresh ts s Hid Hnd Hnew) as [Hok Hperm].
  { rewrite Hq. apply queue_ok_nil. }
  rewrite Hq in Hperm. simpl in Hperm.
  rewrite <- (in_rank_order_tasks (seq s)). f_equal.
  apply pop_all_unique.
  - exact Hok.
  - rewrite (Permutation_map e_seq Hperm). apply entries_from_NoDup.
  - rewrite Hperm. apply in_rank_order_perm, entries_from_prio.
  - apply in_rank_order_sorted.
Qed.

Lemma queue_pops_by_urgency_then_arrival_witness :
  map task_id (map e_task (pop_all (task_queue (enqueue_all arrivals (initial arrivals)))))
  = [ Some "Task-urg1"; Some "Task-urg2"; Some "Task-hig1"; Some "Task-med1";
      Some "Task-odd1"; Some "Task-low1"; Some "Task-low2" ].
Proof.
  rewrite (queue_pops_by_urgency_then_arrival arrivals (initial arrivals)).
  - vm_compute. reflexivity.
  - reflexivity.
  - repeat constructor; vm_compute; eexists; reflexivity.
  - vm_compute. apply NoDup_ListNoDup. repeat constructor; simpl; intuition discriminate.
  - intros tid _. vm_compute. set_solver.
Defined.

(** ** The poll *)

Lemma enqueue_frame (s : wstate) (t : task) :
  idle_state (enqueue s t) = idle_state s ∧ TASK_FILE (enqueue s t) = TASK_FILE s
  ∧ COMPLETED_FILE (enqueue s t) = COMPLETED_FILE s
  ∧ RUNNING_FILE (enqueue s t) = RUNNING_FILE s ∧ tick (enqueue s t) = tick s
  ∧ seen_ids s ⊆ seen_ids (enqueue s t)
  ∧ (∀ tid, tid_of t = Some tid → tid ∈ seen_ids (enqueue s t)).
Proof.
  unfold enqueue. destruct (tid_of t) as [tid|]; [|split_and!; congruence].
  case_bool_decide; simpl; split_and!; try reflexivity; try set_solver.
Qed.

Lemma enqueue_seen (s : wstate) (t : task) :
  (∀ tid, tid_of t = Some tid → tid ∈ seen_ids s) → enqueue s t = s.
Proof.
  intros H. unfold enqueue. destruct (tid_of t) as [tid|]; [|reflexivity].
  now rewrite bool_decide_eq_true_2 by now apply H.
Qed.

Lemma enqueue_all_seen (ts : list task) (s : wstate) :
  (∀ t tid, t ∈ ts → tid_of t = Some tid → tid ∈ seen_ids s) →
  enqueue_all ts s = s.
Proof.
  revert s. induction ts as [|t ts IH]; intros s H; [reflexivity|].
  unfold enqueue_all in *. simpl.
  rewrite enqueue_seen by (intros tid; apply H; left).
  apply IH. intros t' tid Hin. apply H. now right.
Qed.

Lemma enqueue_all_frame (ts : list task) :
  ∀ s, TASK_FILE (enqueue_all ts s) = TASK_FILE s
       ∧ tick (enqueue_all ts s) = tick s
       ∧ seen_ids s ⊆ seen_ids (enqueue_all ts s)
       ∧ (∀ t tid, t ∈ ts → tid_of t = Some tid → tid ∈ seen_ids (enqueue_all ts s)).
Proof.
  induction ts as [|t ts IH]; intros s.
  - split_and!; try reflexivity. intros t tid Hin. now apply elem_of_nil in Hin.
  - unfold enqueue_all in *. simpl.
    destruct (IH (enqueue s t)) as (Hf & Hk & Hsub & Hall).
    destruct (enqueue_frame s t) as (_ & Hf' & _ & _ & Hk' & Hsub' & Hnew).
    split_and!; [congruence | congruence | now transitivity (seen_ids (enqueue s t)) |].
    intros t' tid Hin Htid. apply elem_of_cons in Hin as [->|Hin].
    + apply Hsub. now apply Hnew.
    + now apply (Hall t').
Qed.

(** A poll pushes nothing for an id that is in the seen-set. *)
Lemma enqueue_all_ignores_seen (tid : string) (ts : list task) :
  ∀ s, tid ∈ seen_ids s →
       filter (has_tid tid) (task_queue (enqueue_all ts s))
       ≡ₚ filter (has_tid tid) (task_queue s).
Proof.
  induction ts as [|t ts IH]; intros s Hseen; [reflexivity|].
  unfold enqueue_all in *. simpl. rewrite IH.
  - unfold enqueue. destruct (tid_of t) as [tid'|]; [|reflexivity].
    case_bool_decide as Hin; [reflexivity|]. simpl.
    rewrite heappush_queue_perm.
    rewrite filter_app, filter_cons_False, filter_nil, app_nil_r; [reflexivity|].
    unfold has_tid. simpl. intros [= ->]. contradiction.
  - destruct (enqueue_frame s t) as (_ & _ & _ & _ & _ & Hsub & _). now apply Hsub.
Qed.

(** A poll pushes exactly one entry for an unseen id of the store. *)
Lemma enqueue_all_pushes_unseen (tid : string) (ts : list task) :
  ∀ s, tid ∉ seen_ids s → tid ∈ omap tid_of ts →
       ∃ e, filter (has_tid tid) (task_queue (enqueue_all ts s))
            ≡ₚ filter (has_tid tid) (task_queue s) ++ [e]
            ∧ e_tid e = Some tid ∧ (seq s ≤ e_seq e)%nat.
Proof.
  induction ts as [|t ts IH]; intros s Hnew Hin; [now apply elem_of_nil in Hin|].
  unfold enqueue_all in *. simpl in *.
  destruct (tid_of t) as [tid'|] eqn:Htid.
  - destruct (decide (tid' = tid)) as [->|Hne].
    + unfold enqueue at 2. rewrite Htid, bool_decide_eq_false_2 by assumption.
      eexists. rewrite (enqueue_all_ignores_seen tid ts)
        by (simpl; apply elem_of_union_l, elem_of_singleton; reflexivity).
      simpl. rewrite heappush_queue_perm, filter_app, filter_cons_True by reflexivity.
      split; [reflexivity|]. split; [reflexivity | simpl; lia].
    + apply elem_of_cons in Hin as [->|Hin]; [congruence|].
      destruct (IH (enqueue s t)) as (e & Hq & He & Hseq); [|assumption|].
      * unfold enqueue. rewrite Htid. case_bool_decide; [assumption|]. simpl.
        rewrite elem_of_union, elem_of_singleton. intros [?|?]; congruence.
      * exists e. rewrite Hq. split; [|split; [assumption|]].
        -- apply Permutation_app_tail.
           unfold enqueue. rewrite Htid. case_bool_decide; [reflexivity|].
           simpl. rewrite heappush_queue_perm.
           rewrite filter_app, filter_cons_False, filter_nil, app_nil_r; [reflexivity|].
           unfold has_tid. simpl. congruence.
        -- revert Hseq. unfold enqueue. rewrite Htid. case_bool_decide; simpl; lia.
  - rewrite (enqueue_seen s t) in * by (rewrite Htid; congruence).
    now apply IH.
Qed.

Section Poll.
Variable W : world.

Lemma generate_task_id_truthy fuel existing k tid k' :
  generate_task_id W fuel existing k = Ok (tid, k') → truthy tid = true.
Proof.
  revert k. induction fuel as [|fuel IH]; intros k; simpl; [discriminate|].
  case_bool_decide; [apply IH|]. now intros [= <- <-].
Qed.

Lemma tid_of_set_task_id (tid : string) (t : task) :
  truthy tid = true → tid_of (set_task_id tid t) = Some tid.
Proof. intros H. unfold tid_of. simpl. now rewrite H. Qed.

(** After the first loop of the poll every task has an id; tasks that
    had one are left as they were. *)
Lemma assign_ids_spec fuel (ts : list task) :
  ∀ all k ts' k' changed,
    assign_ids W fuel ts all k = Ok (ts', k', changed) →
    Forall (λ t, is_Some (tid_of t)) ts'
    ∧ Forall2 (λ t t', is_Some (tid_of t) → t' = t) ts ts'
    ∧ (changed = false → ts' = ts ∧ k' = k).
Proof.
  induction ts as [|t ts IH]; intros all k ts' k' changed; simpl.
  - intros [= <- <- <-]. split_and!; [constructor | constructor | tauto].
  - destruct (tid_of t) as [tid|] eqn:Htid.
    + destruct (assign_ids W fuel ts all k) as [[[r k1] c]| |] eqn:Hr;
        simpl; try discriminate.
      intros [= <- <- <-]. destruct (IH _ _ _ _ _ Hr) as (Hall & Hsame & Hch).
      split_and!.
      * constructor; [rewrite Htid; eauto | assumption].
      * constructor; [reflexivity | assumption].
      * intros Hc. destruct (Hch Hc) as [-> ->]. tauto.
    + destruct (generate_task_id W fuel all k) as [[tid k1]| |] eqn:Hg;
        simpl; try discriminate.
      destruct (assign_ids W fuel ts ({[tid]} ∪ all) k1) as [[[r k2] c]| |] eqn:Hr;
        simpl; try discriminate.
      intros [= <- <- <-]. destruct (IH _ _ _ _ _ Hr) as (Hall & Hsame & _).
      split_and!.
      * constructor; [|assumption].
        rewrite tid_of_set_task_id; [eauto|].
        eapply generate_task_id_truthy; eassumption.
      * constructor; [|assumption]. intros [x Hx]. congruence.
      * discriminate.
Qed.

Lemma assign_ids_noop fuel (ts : list task) :
  Forall (λ t, is_Some (tid_of t)) ts →
  ∀ all k, assign_ids W fuel ts all k = Ok (ts, k, false).
Proof.
  induction 1 as [|t ts [tid Htid] _ IH]; intros all k; simpl; [reflexivity|].
  now rewrite Htid, IH.
Qed.

Lemma poll_inv fuel (s s' : wstate) :
  poll W fuel s = Ok s' →
  ∃ ts' k,
    s' = enqueue_all ts' (save_tasks ts' (set_tick k s))
    ∧ Forall (λ t, is_Some (tid_of t)) ts'
    ∧ Forall2 (λ t t', is_Some (tid_of t) → t' = t) (TASK_FILE s) ts'.
Proof.
  unfold poll, load_tasks.
  destruct (assign_ids W fuel (TASK_FILE s) _ (tick s)) as [[[ts' k] c]| |] eqn:Ha;
    simpl; try discriminate.
  intros [= <-]. destruct (assign_ids_spec _ _ _ _ _ _ _ Ha) as (Hall & Hsame & Hc).
  exists ts', k. split_and!; [|assumption..].
  destruct c; [reflexivity|].
  destruct (Hc eq_refl) as [-> ->]. now destruct s.
Qed.

End Poll.

(** A poll changes nothing when every task of the store has an id which
    is in the seen-set. *)
Lemma poll_fixed (W : world) (fuel : nat) (s : wstate) :
  Forall (λ t, is_Some (tid_of t)) (TASK_FILE s) →
  (∀ t tid, t ∈ TASK_FILE s → tid_of t = Some tid → tid ∈ seen_ids s) →
  poll W fuel s = Ok s.
Proof.
  intros Hall Hseen. unfold poll, load_tasks.
  rewrite assign_ids_noop by assumption. simpl.
  replace (set_tick (tick s) s) with s by now destruct s.
  f_equal. now apply enqueue_all_seen.
Qed.

(** C4.  A poll that follows a poll, with no change of the pending store in
    between, returns (whatever the fuel) and changes nothing: it pushes no
    entry, draws no id, and leaves the store as it is. *)
Theorem poll_idempotent (W : world) (fuel : nat) (s s1 : wstate) :
  poll W fuel s = Ok s1 → ∀ fuel', poll W fuel' s1 = Ok s1.
Proof.
  intros Hp fuel'.
  destruct (poll_inv W fuel s s1 Hp) as (ts' & k & -> & Hall & _).
  set (s0 := save_tasks ts' (set_tick k s)).
  destruct (enqueue_all_frame ts' s0) as (Hf & _ & _ & Hseen).
  apply poll_fixed; rewrite Hf; simpl; assumption.
Qed.

Lemma poll_idempotent_witness :
  poll accepting 5 (initial pending0) = Ok polled0
  ∧ map task_id (TASK_FILE polled0)
    = [Some "Task-zz92"; Some "Task-a1b2"; Some "Task-zz93"]
  ∧ length (task_queue polled0) = 3%nat
  ∧ poll accepting 0 polled0 = Ok polled0.
Proof.
  assert (H : poll accepting 5 (initial pending0) = Ok polled0)
    by (vm_compute; reflexivity).
  split_and!; [exact H | vm_compute; reflexivity | vm_compute; reflexivity |].
  exact (poll_idempotent accepting 5 (initial pending0) polled0 H 0%nat).
Defined.

Lemma assign_ids_keeps_ids (ts ts' : list task) (tid : string) :
  Forall2 (λ t t', is_Some (tid_of t) → t' = t) ts ts' →
  tid ∈ omap tid_of ts → tid ∈ omap tid_of ts'.
Proof.
  induction 1 as [|t t' ts ts' Ht _ IH]; [trivial|]. simpl.
  destruct (tid_of t) as [x|] eqn:Hx.
  - rewrite (Ht (ex_intro _ x eq_refl)), Hx.
    rewrite !elem_of_cons. intros [->|Hin]; [now left | right; now apply IH].
  - intros Hin. apply IH in Hin. destruct (tid_of t'); [now right | assumption].
Qed.

Lemma finalize_forgets (W : world) (st iso : string) (t : task) (s : wstate)
      (tid : string) :
  task_id t = Some tid → tid ∉ seen_ids (finalize W st iso t s).2.
Proof.
  intros Ht. unfold finalize. simpl. rewrite Ht. simpl.
  rewrite elem_of_difference, elem_of_singleton. tauto.
Qed.

(** C3, as amended.  A poll pushes nothing for a task id that is in the
    seen-set; for an id of the pending store that is not in the seen-set it
    pushes exactly one entry; and the block that ends a task removes the
    id of the task from the seen-set. *)
Theorem seen_task_id_ignored (W : world) (fuel : nat) (s s' : wstate) (tid : string) :
  poll W fuel s = Ok s' →
  (tid ∈ seen_ids s →
     filter (has_tid tid) (task_queue s') ≡ₚ filter (has_tid tid) (task_queue s))
  ∧ (tid ∉ seen_ids s → tid ∈ omap tid_of (TASK_FILE s) →
     ∃ e, filter (has_tid tid) (task_queue s')
          ≡ₚ filter (has_tid tid) (task_queue s) ++ [e]
          ∧ e_tid e = Some tid ∧ (seq s ≤ e_seq e)%nat)
  ∧ (∀ st iso t s0, task_id t = Some tid →
       tid ∉ seen_ids (finalize W st iso t s0).2).
Proof.
  intros Hp. destruct (poll_inv W fuel s s' Hp) as (ts' & k & -> & _ & Hsame).
  split_and!.
  - intros Hseen. now rewrite enqueue_all_ignores_seen.
  - intros Hnew Hin.
    apply (enqueue_all_pushes_unseen tid ts' (save_tasks ts' (set_tick k s)));
      [assumption|]. eapply assign_ids_keeps_ids; eassumption.
  - intros st iso t s0. apply finalize_forgets.
Qed.

Lemma seen_task_id_ignored_witness :
  "Task-a1b2" ∈ seen_ids resubmitted
  ∧ poll accepting 0 resubmitted = Ok repolled
  ∧ length (task_queue repolled) = S (length (task_queue resubmitted))
  ∧ filter (has_tid "Task-a1b2") (task_queue repolled)
    ≡ₚ filter (has_tid "Task-a1b2") (task_queue resubmitted).
Proof.
  assert (Hp : poll accepting 0 resubmitted = Ok repolled)
    by (vm_compute; reflexivity).
  assert (Hs : "Task-a1b2" ∈ seen_ids resubmitted)
    by (apply (bool_decide_unpack _); vm_compute; exact I).
  destruct (seen_task_id_ignored accepting 0 resubmitted repolled "Task-a1b2" Hp)
    as (Hseen & _ & _).
  split_and!; [exact Hs | exact Hp | vm_compute; reflexivity | exact (Hseen Hs)].
Defined.

(** C3, as worded, fails: [job] is enqueued (sequence number 0), succeeds
    and is moved to the completed store; when its record shows up in the
    pending store again, the next poll enqueues it a second time. *)
Lemma completed_task_id_enqueued_again :
  main_cycle accepting 3 5 (initial [job]) = Ok served
  ∧ seq served = 1%nat
  ∧ map task_id (COMPLETED_FILE served) = [Some "Task-0001"]
  ∧ TASK_FILE served = []
  ∧ ¬ reappearance_ignored accepting served job.
Proof.
  split_and!; try (vm_compute; reflexivity).
  intros H. specialize (H 0%nat _ eq_refl). vm_compute in H. discriminate.
Qed.

(** ** The retry loop *)

Lemma finalize_spec (W : world) (st iso : string) (t : task) (s : wstate) :
  (finalize W st iso t s).1 = set_outcome st iso (elapsed W (tick s)) t
  ∧ COMPLETED_FILE (finalize W st iso t s).2
    = COMPLETED_FILE s ++ [set_outcome st iso (elapsed W (tick s)) t].
Proof.
  unfold finalize. simpl. split; [reflexivity|].
  now destruct (task_id t).
Qed.

Lemma info_length_append (info : attempt_info) (t : task) :
  info_length (append_attempt info t) = S (info_length t).
Proof. unfold info_length. simpl. rewrite length_app. simpl. lia. Qed.

Section Retry.
Variable W : world.
Variable MAX_ATTEMPTS : Z.
Variable iso : string.

(** One pass whose verdict is a failure. *)
Lemma attempt_rejected (t : task) (s : wstate) (a : Z) (p : payload) (text : string) :
  always_rejects W →
  attempts t = Some a → task_payload t = Some p → task_text p = Some text →
  ∃ t' s' p' text',
    attempt W MAX_ATTEMPTS iso t s = Ok (false, t', s')
    ∧ attempts t' = Some (a + 1)
    ∧ task_payload t' = Some p' ∧ task_text p' = Some text'
    ∧ info_length t' = S (info_length t)
    ∧ (a + 1 < MAX_ATTEMPTS → COMPLETED_FILE s' = COMPLETED_FILE s)
    ∧ (MAX_ATTEMPTS <= a + 1 →
       ∃ r, COMPLETED_FILE s' = COMPLETED_FILE s ++ [r]
            ∧ status r = Some "Failed" ∧ attempts r = Some (a + 1)
            ∧ info_length r = info_length t).
Proof.
  intros Hrej Ha Hp Htext. unfold attempt.
  rewrite Hp. cbn [getitem mbind result_bind bind].
  rewrite Htext. cbn [getitem mbind result_bind bind].
  rewrite Ha. cbn [getitem mbind result_bind bind].
  set (s0 := clear_running_task (set_running_task t s)).
  set (verdict := strip (evaluate_and_replan_with_llm W (tick s0) text)).
  assert (Hv : String.prefix "✅" (eval_result_of verdict) = false).
  { unfold eval_result_of. destruct (truthy verdict); [apply Hrej | reflexivity]. }
  rewrite Hv.
  set (s1 := set_tick (S (tick (set_tick (S (tick s0)) s0))) (set_tick (S (tick s0)) s0)).
  set (p1 := if truthy _ then _ else _).
  set (info1 := mkAttempt _ _ _ _ _).
  set (t1 := set_attempts (a + 1) (set_payload p1 t)).
  assert (Hp1 : ∃ text', task_text p1 = Some text').
  { subst p1. destruct (truthy _); eexists; reflexivity. }
  destruct Hp1 as [text' Hp1].
  destruct (a + 1 >=? MAX_ATTEMPTS) eqn:Hge.
  - destruct (finalize_spec W "Failed" iso t1 s1) as [Hf1 Hf2].
    destruct (finalize W "Failed" iso t1 s1) as [t2 s2]. simpl in Hf1, Hf2.
    subst t2. exists (append_attempt info1 (set_outcome "Failed" iso (elapsed W (tick s1)) t1)), s2, p1, text'.
    apply Z.geb_le in Hge.
    split_and!; try reflexivity; try assumption.
    + now rewrite info_length_append.
    + lia.
    + intros _. eexists. split; [exact Hf2|]. split_and!; reflexivity.
  - exists (append_attempt info1 t1), s1, p1, text'.
    rewrite Z.geb_leb in Hge. apply Z.leb_gt in Hge.
    split_and!; try reflexivity; try assumption.
    + now rewrite info_length_append.
    + lia.
Qed.

(** One pass whose verdict is a success. *)
Lemma attempt_accepted (t : task) (s : wstate) (a : Z) (p : payload) (text : string) :
  attempts t = Some a → task_payload t = Some p → task_text p = Some text →
  String.prefix "✅"
    (eval_result_of (strip (evaluate_and_replan_with_llm W (tick s) text))) = true →
  ∃ t' s' r,
    attempt W MAX_ATTEMPTS iso t s = Ok (true, t', s')
    ∧ COMPLETED_FILE s' = COMPLETED_FILE s ++ [r]
    ∧ status r = Some "Success" ∧ attempts r = Some a
    ∧ attempts_info r = attempts_info t
    ∧ info_length t' = S (info_length t).
Proof.
  intros Ha Hp Htext Hv. unfold attempt.
  rewrite Hp. cbn [getitem mbind result_bind bind].
  rewrite Htext. cbn [getitem mbind result_bind bind].
  rewrite Ha. cbn [getitem mbind result_bind bind].
  set (s0 := clear_running_task (set_running_task t s)).
  change (tick s0) with (tick s). rewrite Hv.
  set (s1 := set_tick (S (tick s)) s0).
  destruct (finalize_spec W "Success" iso t s1) as [Hf1 Hf2].
  destruct (finalize W "Success" iso t s1) as [t2 s2]. simpl in Hf1, Hf2.
  subst t2. do 3 eexists. split; [reflexivity|].
  split_and!; [exact Hf2 | reflexivity | exact Ha | reflexivity |].
  now rewrite info_length_append.
Qed.

Lemma retry_loop_S (fuel : nat) (t : task) (s : wstate) :
  retry_loop W MAX_ATTEMPTS (S fuel) iso t s
  = (a ← getitem "attempts" (attempts t);
     if a <? MAX_ATTEMPTS then
       '(success, t', s') ← attempt W MAX_ATTEMPTS iso t s;
       if success : bool then mret (t', s')
       else retry_loop W MAX_ATTEMPTS fuel iso t' s'
     else mret (t, s)).
Proof. reflexivity. Qed.

Lemma retry_loop_done (fuel : nat) (t : task) (s : wstate) (a : Z) :
  attempts t = Some a → MAX_ATTEMPTS <= a →
  retry_loop W MAX_ATTEMPTS fuel iso t s = Ok (t, s).
Proof.
  intros Ha Hge. destruct fuel; simpl; rewrite Ha; simpl;
    now rewrite (proj2 (Z.ltb_ge a MAX_ATTEMPTS)) by lia.
Qed.

Lemma retry_loop_exhausts (n : nat) :
  always_rejects W →
  ∀ t s a p text,
    attempts t = Some a → task_payload t = Some p → task_text p = Some text →
    MAX_ATTEMPTS - a = Z.of_nat (S n) →
    ∃ t' s' r,
      retry_loop W MAX_ATTEMPTS (S n) iso t s = Ok (t', s')
      ∧ COMPLETED_FILE s' = COMPLETED_FILE s ++ [r]
      ∧ status r = Some "Failed"
      ∧ attempts r = Some MAX_ATTEMPTS
      ∧ info_length r = (info_length t + n)%nat
      ∧ info_length t' = (info_length t + S n)%nat.
Proof.
  intros Hrej.
  induction n as [|n IH]; intros t s a p text Ha Hp Htext Hn;
    destruct (attempt_rejected t s a p text Hrej Ha Hp Htext)
      as (t1 & s1 & p1 & text1 & Hat & Ha1 & Hp1 & Htext1 & Hlen & Hlt & Hge);
    rewrite retry_loop_S, Ha; cbn [getitem mbind result_bind bind];
    rewrite (proj2 (Z.ltb_lt a MAX_ATTEMPTS)) by lia;
    rewrite Hat; cbn [mbind result_bind bind].
  - destruct Hge as (r & Hc & Hst & Hr & Hrl); [lia|].
    rewrite (retry_loop_done _ _ _ (a + 1)) by (assumption || lia).
    exists t1, s1, r. split; [reflexivity|].
    split_and!; [exact Hc | exact Hst | rewrite Hr; f_equal; lia | lia | lia].
  - destruct (IH t1 s1 (a + 1) p1 text1 Ha1 Hp1 Htext1)
      as (t' & s' & r & Hloop & Hc & Hst & Hr & Hrl & Hl'); [lia|].
    rewrite Hloop. exists t', s', r. split; [reflexivity|].
    split_and!; [rewrite Hc, Hlt by lia; reflexivity | exact Hst | exact Hr | lia | lia].
Qed.

(** The loop needs no more passes than [MAX_ATTEMPTS - attempts]: with that
    much fuel it never stops for lack of fuel. *)
Lemma attempt_counts (t t' : task) (s s' : wstate) (a : Z) :
  attempts t = Some a →
  attempt W MAX_ATTEMPTS iso t s = Ok (false, t', s') →
  attempts t' = Some (a + 1).
Proof.
  intros Ha. unfold attempt.
  destruct (task_payload t) as [p|]; [|discriminate]. cbn [getitem mbind result_bind bind].
  destruct (task_text p) as [text|]; [|discriminate]. cbn [getitem mbind result_bind bind].
  rewrite Ha. cbn [getitem mbind result_bind bind].
  destruct (String.prefix _ _).
  - destruct (finalize _ _ _ _ _). discriminate.
  - destruct (a + 1 >=? MAX_ATTEMPTS).
    + match goal with
      | |- context [finalize ?w ?st ?i ?x ?y] =>
          pose proof (proj1 (finalize_spec w st i x y)) as Hf;
          destruct (finalize w st i x y) as [t2 s2]
      end.
      simpl in Hf. subst t2. now intros [= <- <-].
    + now intros [= <- <-].
Qed.

Lemma retry_loop_enough_fuel (fuel : nat) :
  ∀ t s a, attempts t = Some a → (Z.to_nat (MAX_ATTEMPTS - a) ≤ fuel)%nat →
           retry_loop W MAX_ATTEMPTS fuel iso t s ≠ Fuel.
Proof.
  induction fuel as [|fuel IH]; intros t s a Ha Hfuel.
  - rewrite (retry_loop_done 0 t s a) by (assumption || lia). discriminate.
  - rewrite retry_loop_S, Ha. cbn [getitem mbind result_bind bind].
    destruct (a <? MAX_ATTEMPTS) eqn:Hlt; [|discriminate].
    apply Z.ltb_lt in Hlt.
    destruct (attempt W MAX_ATTEMPTS iso t s) as [[[[] t'] s']|e|] eqn:Hat;
      cbn [mbind result_bind bind]; try discriminate.
    + apply (IH t' s' (a + 1)); [eapply attempt_counts; eassumption | lia].
    + exfalso. revert Hat. unfold attempt.
      destruct (task_payload t) as [p|]; [|discriminate].
      cbn [getitem mbind result_bind bind].
      destruct (task_text p) as [text|]; [|discriminate].
      cbn [getitem mbind result_bind bind].
      rewrite Ha. cbn [getitem mbind result_bind bind].
      destruct (String.prefix _ _); [destruct (finalize _ _ _ _ _); discriminate|].
      destruct (a + 1 >=? MAX_ATTEMPTS); [destruct (finalize _ _ _ _ _)|]; discriminate.
Qed.

End Retry.

(** ** The invariant of the queue *)

Section Invariant.
Variable W : world.
Variable MAX_ATTEMPTS : Z.

Lemma queue_inv_initial (pending : list task) : queue_inv (initial pending).
Proof. split_and!; [apply queue_ok_nil | constructor | constructor]. Qed.

Lemma queue_inv_push (s : wstate) (prio : Z) (tid : option string) (t : task)
      (q : list entry) (n : nat) :
  queue_ok q → NoDup (map e_seq q) → Forall (λ e, (e_seq e < n)%nat) q →
  queue_ok (heappush q (mkEntry prio n tid t))
  ∧ NoDup (map e_seq (heappush q (mkEntry prio n tid t)))
  ∧ Forall (λ e, (e_seq e < S n)%nat) (heappush q (mkEntry prio n tid t)).
Proof.
  intros Hok Hnd Hlt.
  destruct (heappush_queue q (mkEntry prio n tid t) Hok) as [Hok' Hperm].
  split_and!; [exact Hok' | |].
  - rewrite (Permutation_map e_seq Hperm), map_app. simpl.
    rewrite <- Permutation_cons_append. apply NoDup_cons. split; [|exact Hnd].
    intros Hin. apply list_elem_of_In, in_map_iff in Hin as (e & He & Hin).
    rewrite Forall_forall in Hlt. apply list_elem_of_In, Hlt in Hin. lia.
  - rewrite Hperm. apply Forall_app. split.
    + apply Forall_forall. intros x Hx. rewrite Forall_forall in Hlt.
      apply Hlt in Hx. lia.
    + constructor; [simpl; lia | constructor].
Qed.

Lemma queue_inv_enqueue (s : wstate) (t : task) :
  queue_inv s → queue_inv (enqueue s t).
Proof.
  intros (Hok & Hnd & Hlt). unfold enqueue.
  destruct (tid_of t) as [tid|]; [|now split_and!].
  case_bool_decide; [now split_and!|].
  now apply (queue_inv_push s).
Qed.

Lemma queue_inv_enqueue_all (ts : list task) :
  ∀ s, queue_inv s → queue_inv (enqueue_all ts s).
Proof.
  induction ts as [|t ts IH]; intros s Hinv; [exact Hinv|].
  apply IH. now apply queue_inv_enqueue.
Qed.

Lemma queue_inv_poll (fuel : nat) (s s' : wstate) :
  poll W fuel s = Ok s' → queue_inv s → queue_inv s'.
Proof.
  intros Hp Hinv. destruct (poll_inv W fuel s s' Hp) as (ts' & k & -> & _ & _).
  now apply queue_inv_enqueue_all.
Qed.

(** The retry loop leaves the queue and the counter alone. *)
Lemma finalize_queue (st iso : string) (t : task) (s : wstate) :
  task_queue (finalize W st iso t s).2 = task_queue s
  ∧ seq (finalize W st iso t s).2 = seq s.
Proof. unfold finalize. simpl. now destruct (task_id t). Qed.

Lemma attempt_queue (iso : string) (t t' : task) (s s' : wstate) (b : bool) :
  attempt W MAX_ATTEMPTS iso t s = Ok (b, t', s') →
  task_queue s' = task_queue s ∧ seq s' = seq s.
Proof.
  unfold attempt.
  destruct (task_payload t) as [p|]; [|discriminate]. cbn [getitem mbind result_bind bind].
  destruct (task_text p) as [text|]; [|discriminate]. cbn [getitem mbind result_bind bind].
  destruct (attempts t) as [a|]; [|discriminate]. cbn [getitem mbind result_bind bind].
  destruct (String.prefix _ _).
  - match goal with
    | |- context [finalize ?w ?st ?i ?x ?y] =>
        pose proof (finalize_queue st i x y) as Hf;
        destruct (finalize w st i x y) as [t2 s2]
    end.
    intros [= <- <- <-]. exact Hf.
  - destruct (a + 1 >=? MAX_ATTEMPTS).
    + match goal with
      | |- context [finalize ?w ?st ?i ?x ?y] =>
          pose proof (finalize_queue st i x y) as Hf;
          destruct (finalize w st i x y) as [t2 s2]
      end.
      intros [= <- <- <-]. exact Hf.
    + intros [= <- <- <-]. split; reflexivity.
Qed.

Lemma retry_loop_queue (iso : string) (fuel : nat) :
  ∀ t t' s s',
    retry_loop W MAX_ATTEMPTS fuel iso t s = Ok (t', s') →
    task_queue s' = task_queue s ∧ seq s' = seq s.
Proof.
  induction fuel as [|fuel IH]; intros t t' s s'; cbn [retry_loop];
    (destruct (attempts t) as [a|]; [|discriminate]);
    cbn [getitem mbind result_bind bind];
    (destruct (a <? MAX_ATTEMPTS); [|now intros [= <- <-]]); [discriminate|].
  destruct (attempt W MAX_ATTEMPTS iso t s) as [[[b t1] s1]| |] eqn:Hat;
    cbn [mbind result_bind bind]; try discriminate.
  apply attempt_queue in Hat as [Hq Hs].
  destruct b; [intros [= <- <-]; now split|].
  intros Hloop. apply IH in Hloop as [Hq' Hs']. split; congruence.
Qed.

Lemma queue_inv_process (s s' : wstate) :
  process W MAX_ATTEMPTS s = Ok s' → queue_inv s → queue_inv s'.
Proof.
  intros Hproc (Hok & Hnd & Hlt). revert Hproc. unfold process.
  pose proof (heappop_queue (task_queue s) Hok) as Hpop.
  destruct (heappop (task_queue s)) as [[e q]|];
    [|intros [= <-]; now split_and!].
  destruct Hpop as (Hokq & Hperm & _).
  assert (Hndq : NoDup (map e_seq q)).
  { rewrite (Permutation_map e_seq Hperm) in Hnd. simpl in Hnd.
    now apply NoDup_cons in Hnd as [_ Hnd]. }
  assert (Hltq : Forall (λ x, (e_seq x < seq s)%nat) q).
  { rewrite Hperm in Hlt. now apply Forall_cons in Hlt as [_ Hlt]. }
  assert (Hloop : ∀ fuel iso t s0 r,
             task_queue s0 = q → seq s0 = seq s →
             ('(_, s1) ← retry_loop W MAX_ATTEMPTS fuel iso t s0; mret s1) = Ok r →
             queue_inv r).
  { intros fuel iso t s0 r Hq0 Hs0.
    destruct (retry_loop W MAX_ATTEMPTS fuel iso t s0) as [[t1 s1]| |] eqn:Hl;
      cbn [mbind result_bind bind mret result_ret]; try discriminate.
    intros [= <-]. apply retry_loop_queue in Hl as [Hq1 Hs1].
    unfold queue_inv. rewrite Hq1, Hs1, Hq0, Hs0. now split_and!. }
  destruct (attempts (setdefault_attempts (e_task e))) as [a|]; [|discriminate].
  cbn [getitem mbind result_bind bind].
  destruct (negb (default false _)).
  - destruct (negb (truthy _)).
    + destruct (a + 1 <? MAX_ATTEMPTS).
      * intros [= <-]. now apply (queue_inv_push s).
      * intros [= <-]. unfold queue_inv.
        destruct (task_id (setdefault_attempts (e_task e))); simpl; now split_and!.
    + destruct (task_payload (setdefault_attempts (e_task e))) as [p|]; [|discriminate].
      cbn [getitem mbind result_bind bind]. now apply Hloop.
  - now apply Hloop.
Qed.

Lemma queue_inv_ext (s s' : wstate) :
  task_queue s' = task_queue s → seq s' = seq s → queue_inv s → queue_inv s'.
Proof. unfold queue_inv. now intros -> ->. Qed.

(** Every turn of the main loop keeps the invariant: the comparisons of
    the heap are always decided by priority and sequence number. *)
Lemma queue_inv_main_cycle (fuel : nat) (s s' : wstate) :
  main_cycle W MAX_ATTEMPTS fuel s = Ok s' → queue_inv s → queue_inv s'.
Proof.
  unfold main_cycle. intros Hcycle Hinv. revert Hcycle.
  destruct (poll W fuel s) as [s1| |] eqn:Hp;
    cbn [mbind result_bind bind]; try discriminate.
  apply queue_inv_poll in Hp; [|exact Hinv].
  destruct (task_queue s1) eqn:Hq.
  - intros [= <-]. now apply (queue_inv_ext s1).
  - destruct (check_orchestrator_health W _).
    + intros Hproc. apply queue_inv_process in Hproc; [exact Hproc|].
      now apply (queue_inv_ext s1).
    + intros [= <-]. now apply (queue_inv_ext s1).
Qed.

End Invariant.



(** The same on a whole turn of the main loop, from the pending store
    [[job]]: poll, pop, refine, three rejected attempts. *)
Lemma exhausted_task_in_completed_store :
  main_cycle rejecting 3 5 (initial [job]) = Ok given_up
  ∧ TASK_FILE given_up = []
  ∧ map status (COMPLETED_FILE given_up) = [Some "Failed"]
  ∧ map attempts (COMPLETED_FILE given_up) = [Some 3]
  ∧ map info_length (COMPLETED_FILE given_up) = [2%nat].
Proof. split_and!; vm_compute; reflexivity. Qed.

Lemma accepted_task_in_completed_store :
  main_cycle accepting 3 5 (initial [job]) = Ok served
  ∧ TASK_FILE served = []
  ∧ map status (COMPLETED_FILE served) = [Some "Success"]
  ∧ map attempts_info (COMPLETED_FILE served) = [None].
Proof. split_and!; vm_compute; reflexivity. Qed.


(** * The rest of the watcher *)

(** ** The base URL *)

Lemma rstrip_chars_slash (s : string) : endswith (rstrip_chars "/" s) "/" = false.
Proof.
  induction s as [|c s IH]; [reflexivity|].
  simpl. destruct (rstrip_chars "/" s) as [|d r] eqn:Hr.
  - destruct (ascii_dec c "/") as [->|Hc]; [reflexivity|].
    simpl. destruct (Ascii.eqb_spec c "/"); [contradiction|reflexivity].
  - change (endswith (String c (String d r)) "/")
      with (String.eqb (String c (String d r)) "/" || endswith (String d r) "/").
    rewrite IH, orb_false_r.
    simpl. destruct (Ascii.eqb c "/"); reflexivity.
Qed.

(** The base URL of the orchestrator never ends with a slash, so that
    [ORCH_HEALTH_URL] has exactly the one slash of ["/health"] after it;
    and an unset or empty variable gives the default. *)
Theorem orch_base_no_trailing_slash (ORCHESTRATOR_URL : option string) :
  endswith (_orch_base ORCHESTRATOR_URL) "/" = false
  ∧ (truthy_opt ORCHESTRATOR_URL = false →
     _orch_base ORCHESTRATOR_URL = "http://localhost:10000").
Proof.
  split.
  - unfold _orch_base. apply rstrip_chars_slash.
  - intros H. unfold _orch_base. rewrite H. reflexivity.
Qed.

(** ** Task ids *)

Section Ids.
Variable W : world.

(** The id [generate_task_id] returns is the first draw that is not in
    [existing_ids]: it is new, every draw before it was taken, and one
    draw was made for each.  With a free draw among the first [fuel] ones
    the function returns. *)
Theorem generate_task_id_first_fresh (fuel : nat) (existing_ids : gset string) :
  ∀ k,
    (∀ tid k', generate_task_id W fuel existing_ids k = Ok (tid, k') →
       (tid ∉ existing_ids)
       ∧ ∃ j, k' = S (k + j) ∧ tid = ("Task-" +:+ random_suffix W (k + j))
              ∧ ∀ i, (i < j)%nat → "Task-" +:+ random_suffix W (k + i) ∈ existing_ids)
    ∧ (∀ j, (j < fuel)%nat → "Task-" +:+ random_suffix W (k + j) ∉ existing_ids →
         ∃ tid k', generate_task_id W fuel existing_ids k = Ok (tid, k')).
Proof.
  induction fuel as [|fuel IH]; intros k; split.
  - intros tid k' [=].
  - intros j Hj. lia.
  - intros tid k' H. simpl in H. case_bool_decide as Hin.
    + destruct (IH (S k)) as [IH1 _]. destruct (IH1 tid k' H) as (Hnew & j & -> & -> & Hbefore).
      split; [exact Hnew|]. exists (S j). split_and!.
      * f_equal. lia.
      * do 2 f_equal. lia.
      * intros i Hi. destruct i as [|i].
        -- now rewrite Nat.add_0_r.
        -- replace (k + S i)%nat with (S k + i)%nat by lia. apply Hbefore. lia.
    + injection H as <- <-. split; [exact Hin|]. exists 0%nat.
      rewrite Nat.add_0_r. split_and!; [reflexivity..|]. intros i Hi. lia.
  - intros j Hj Hfree. simpl. case_bool_decide as Hin; [|eauto].
    destruct j as [|j]; [now rewrite Nat.add_0_r in Hfree|].
    destruct (IH (S k)) as [_ IH2]. apply (IH2 j); [lia|].
    now replace (S k + j)%nat with (k + S j)%nat by lia.
Qed.

Lemma generate_task_id_shape fuel (existing : gset string) k tid k' :
  generate_task_id W fuel existing k = Ok (tid, k') →
  (tid ∉ existing) ∧ ∃ suffix, tid = ("Task-" +:+ suffix).
Proof.
  revert k. induction fuel as [|fuel IH]; intros k; simpl; [discriminate|].
  case_bool_decide as Hin; [apply IH|]. intros [= <- <-]. split; [exact Hin | eauto].
Qed.

Lemma assign_ids_fresh fuel (ts : list task) :
  ∀ all k ts' k' changed,
    assign_ids W fuel ts all k = Ok (ts', k', changed) →
    Forall2 (λ t t', tid_of t = None → ∃ tid, t' = set_task_id tid t) ts ts'
    ∧ NoDup (new_ids ts ts')
    ∧ (∀ tid, tid ∈ new_ids ts ts' → tid ∉ all).
Proof.
  induction ts as [|t ts IH]; intros all k ts' k' changed; simpl.
  - intros [= <- <- <-]. split_and!; [constructor | constructor |].
    intros tid Hin. now apply elem_of_nil in Hin.
  - destruct (tid_of t) as [tid|] eqn:Htid.
    + destruct (assign_ids W fuel ts all k) as [[[r k1] c]| |] eqn:Hr;
        simpl; try discriminate.
      intros [= <- <- <-]. destruct (IH _ _ _ _ _ Hr) as (Hnew & Hnd & Hout).
      cbn [new_ids]. rewrite ?Htid. split_and!; [|assumption..].
      constructor; [congruence | assumption].
    + destruct (generate_task_id W fuel all k) as [[tid k1]| |] eqn:Hg;
        simpl; try discriminate.
      destruct (assign_ids W fuel ts ({[tid]} ∪ all) k1) as [[[r k2] c]| |] eqn:Hr;
        simpl; try discriminate.
      intros [= <- <- <-]. destruct (IH _ _ _ _ _ Hr) as (Hnew & Hnd & Hout).
      cbn [new_ids]. rewrite ?Htid. simpl. split_and!.
      * constructor; [eauto | assumption].
      * apply NoDup_cons. split; [|assumption].
        intros Hin. apply (Hout _ Hin). apply elem_of_union. left.
        now apply elem_of_singleton.
      * intros x Hx. apply elem_of_cons in Hx as [->|Hx].
        -- eapply generate_task_id_shape; eassumption.
        -- intros Hin. apply (Hout _ Hx). apply elem_of_union. now right.
Qed.

(** After a poll every record of the pending store has an id; the records
    that had one are as they were, in place; each of the others got an id
    and is otherwise as it was; and the ids given out differ from each
    other and from every id the store held. *)
Theorem poll_assigns_fresh_ids (fuel : nat) (s s' : wstate) :
  poll W fuel s = Ok s' →
  Forall (λ t, is_Some (tid_of t)) (TASK_FILE s')
  ∧ Forall2 (λ t t', (is_Some (tid_of t) → t' = t)
                     ∧ (tid_of t = None → ∃ tid, t' = set_task_id tid t))
            (TASK_FILE s) (TASK_FILE s')
  ∧ NoDup (new_ids (TASK_FILE s) (TASK_FILE s'))
  ∧ ∀ tid, tid ∈ new_ids (TASK_FILE s) (TASK_FILE s') →
           tid ∉ existing_ids_of (TASK_FILE s).
Proof.
  unfold poll, load_tasks.
  destruct (assign_ids W fuel (TASK_FILE s) _ (tick s)) as [[[ts' k] c]| |] eqn:Ha;
    simpl; try discriminate.
  intros [= <-].
  destruct (assign_ids_spec _ _ _ _ _ _ _ _ Ha) as (Hall & Hsame & Hc).
  destruct (assign_ids_fresh _ _ _ _ _ _ _ Ha) as (Hnew & Hnd & Hout).
  assert (Hfile : TASK_FILE (enqueue_all ts'
                    (if c then save_tasks ts' (set_tick k s) else set_tick k s)) = ts').
  { destruct (enqueue_all_frame ts'
                (if c then save_tasks ts' (set_tick k s) else set_tick k s)) as [-> _].
    destruct c; [reflexivity|]. now destruct (Hc eq_refl) as [-> _]. }
  rewrite Hfile. split_and!; [assumption | | assumption..].
  clear -Hsame Hnew. induction Hsame as [|t t' ts ts' H1 _ IH]; [constructor|].
  apply Forall2_cons_1 in Hnew as [H2 Hnew]. constructor; [tauto | now apply IH].
Qed.

End Ids.

(** ** What a turn does to the stores *)

Lemma kept_refl (s : wstate) : kept s s.
Proof. now split_and!. Qed.

Lemma kept_moved (tid : option string) (s s1 s' : wstate) :
  kept s s1 → moved tid s1 s' → moved tid s s'.
Proof.
  intros (Ht & Hc & Hs) (r & st & H1 & H2 & H3 & H4 & H5 & H6).
  exists r, st. rewrite <- Ht, <- Hc, <- Hs. now split_and!.
Qed.

Lemma kept_trans (s s1 s' : wstate) : kept s s1 → kept s1 s' → kept s s'.
Proof.
  intros (Ht & Hc & Hs) (Ht' & Hc' & Hs'). split_and!; congruence.
Qed.

Ltac status_in := unfold final_statuses; rewrite !elem_of_cons; tauto.

Section Effects.
Variable W : world.
Variable MAX_ATTEMPTS : Z.

Lemma finalize_moved (st iso : string) (t : task) (s : wstate) :
  st ∈ final_statuses →
  moved (task_id t) s (finalize W st iso t s).2
  ∧ task_id (finalize W st iso t s).1 = task_id t
  ∧ attempts (finalize W st iso t s).1 = attempts t
  ∧ tick (finalize W st iso t s).2 = tick s
  ∧ RUNNING_FILE (finalize W st iso t s).2 = RUNNING_FILE s.
Proof.
  intros Hst. unfold finalize. simpl. split_and!; try reflexivity.
  - exists (set_outcome st iso (elapsed W (tick s)) t), st. simpl.
    destruct (task_id t); simpl; now split_and!.
  - now destruct (task_id t).
  - now destruct (task_id t).
Qed.

(** One pass of the retry loop: it ends with the snapshot removed, makes
    one or two calls, and either leaves the stores alone (a failure short
    of the last attempt) or moves the task. *)
Lemma attempt_effect (iso : string) (t t' : task) (s s' : wstate) (b : bool) (a : Z) :
  attempts t = Some a →
  attempt W MAX_ATTEMPTS iso t s = Ok (b, t', s') →
  task_id t' = task_id t
  ∧ RUNNING_FILE s' = None
  ∧ (tick s < tick s' ≤ tick s + 2)%nat
  ∧ ((b = false ∧ attempts t' = Some (a + 1) ∧ a + 1 < MAX_ATTEMPTS ∧ kept s s')
     ∨ (moved (task_id t) s s'
        ∧ (b = true ∨ (attempts t' = Some (a + 1) ∧ MAX_ATTEMPTS <= a + 1)))).
Proof.
  intros Ha. unfold attempt.
  destruct (task_payload t) as [p|]; [|discriminate]. cbn [getitem mbind result_bind bind].
  destruct (task_text p) as [text|]; [|discriminate]. cbn [getitem mbind result_bind bind].
  rewrite Ha. cbn [getitem mbind result_bind bind].
  destruct (String.prefix _ _).
  - match goal with
    | |- context [finalize ?w ?st ?i ?x ?y] =>
        destruct (finalize_moved st i x y) as (Hm & Hid & Hat & Htk & Hrun);
          [status_in|];
        destruct (finalize w st i x y) as [t2 s2]
    end.
    simpl in *. intros [= <- <- <-]. simpl. split_and!; [assumption.. | lia | lia |].
    right. split; [|now left].
    destruct Hm as (r & st & H1 & H2 & H3 & H4 & H5 & H6).
    exists r, st. now split_and!.
  - destruct (a + 1 >=? MAX_ATTEMPTS) eqn:Hge.
    + match goal with
      | |- context [finalize ?w ?st ?i ?x ?y] =>
          destruct (finalize_moved st i x y) as (Hm & Hid & Hat & Htk & Hrun);
            [status_in|];
          destruct (finalize w st i x y) as [t2 s2]
      end.
      simpl in *. intros [= <- <- <-]. simpl.
      split_and!; [assumption.. | lia | lia |].
      right. split.
      * destruct Hm as (r & st & H1 & H2 & H3 & H4 & H5 & H6).
        exists r, st. now split_and!.
      * right. split; [assumption|]. rewrite Z.geb_leb in Hge. now apply Z.leb_le in Hge.
    + intros [= <- <- <-]. simpl. split_and!; [reflexivity.. | lia | lia |].
      left. split_and!; [reflexivity | reflexivity | | now split_and!].
      rewrite Z.geb_leb in Hge. now apply Z.leb_gt in Hge.
Qed.

Lemma retry_loop_effect (iso : string) (fuel : nat) :
  ∀ t t' s s' a,
    attempts t = Some a →
    retry_loop W MAX_ATTEMPTS fuel iso t s = Ok (t', s') →
    task_id t' = task_id t
    ∧ (tick s ≤ tick s' ≤ tick s + 2 * Z.to_nat (MAX_ATTEMPTS - a))%nat
    ∧ (RUNNING_FILE s = None → RUNNING_FILE s' = None)
    ∧ (kept s s' ∨ moved (task_id t) s s').
Proof.
  induction fuel as [|fuel IH]; intros t t' s s' a Ha.
  - cbn [retry_loop]. rewrite Ha. cbn [getitem mbind result_bind bind].
    destruct (a <? MAX_ATTEMPTS); [discriminate|]. intros [= <- <-].
    split_and!; [reflexivity | lia | lia | tauto | left; apply kept_refl].
  - rewrite retry_loop_S, Ha. cbn [getitem mbind result_bind bind].
    destruct (a <? MAX_ATTEMPTS) eqn:Hlt.
    2:{ intros [= <- <-].
        split_and!; [reflexivity | lia | lia | tauto | left; apply kept_refl]. }
    apply Z.ltb_lt in Hlt.
    destruct (attempt W MAX_ATTEMPTS iso t s) as [[[b t1] s1]| |] eqn:Hat;
      cbn [mbind result_bind bind]; try discriminate.
    destruct (attempt_effect iso t t1 s s1 b a Ha Hat) as (Hid & Hrun & Htk & Hcase).
    destruct b.
    + intros [= <- <-]. split_and!; [assumption | lia | lia | tauto |].
      destruct Hcase as [(Hb & _)|[Hm _]]; [discriminate | now right].
    + destruct Hcase as [(_ & Ha1 & Hlt1 & Hkept)|[Hm [Hb|[Ha1 Hge]]]];
        [| discriminate |].
      * intros Hloop.
        destruct (IH _ _ _ _ _ Ha1 Hloop) as (Hid' & Htk' & Hrun' & Hcase').
        split_and!; [congruence | lia | lia | tauto |].
        destruct Hcase' as [Hk|Hm].
        -- left. eapply kept_trans; eassumption.
        -- right. rewrite Hid in Hm. eapply kept_moved; eassumption.
      * rewrite (retry_loop_done W MAX_ATTEMPTS iso fuel t1 s1 (a + 1)) by assumption.
        intros [= <- <-]. split_and!; [assumption | lia | lia | tauto | now right].
Qed.

Lemma attempts_setdefault (t : task) :
  attempts (setdefault_attempts t) = Some (default 0 (attempts t))
  ∧ task_id (setdefault_attempts t) = task_id t
  ∧ task_payload (setdefault_attempts t) = task_payload t.
Proof.
  unfold setdefault_attempts. destruct (attempts t) eqn:Ha; simpl; [|tauto].
  now rewrite Ha.
Qed.

(** What [process] does with the entry it pops: it ends with the stores
    as they were and the entry gone, or with the stores as they were and
    the task pushed again under the next sequence number, or with the task
    moved to the completed store. *)
Lemma process_effect (s s' : wstate) :
  process W MAX_ATTEMPTS s = Ok s' →
  match heappop (task_queue s) with
  | None => s' = s
  | Some (e, q) =>
      (tick s ≤ tick s'
       ≤ tick s + 1 + 2 * Z.to_nat (MAX_ATTEMPTS - default 0%Z (attempts (e_task e))))%nat
      ∧ (RUNNING_FILE s = None → RUNNING_FILE s' = None)
      ∧ ((kept s s' ∧ task_queue s' = q ∧ seq s' = seq s)
         ∨ (kept s s' ∧ seq s' = S (seq s)
            ∧ ∃ t', task_id t' = task_id (e_task e)
                    ∧ task_queue s'
                      = heappush q (mkEntry (e_prio e) (seq s) (task_id (e_task e)) t'))
         ∨ (moved (task_id (e_task e)) s s' ∧ task_queue s' = q ∧ seq s' = seq s))
  end.
Proof.
  unfold process.
  destruct (heappop (task_queue s)) as [[e q]|]; [|now intros [= <-]].
  destruct (attempts_setdefault (e_task e)) as (Ha & Hid & Hp).
  set (a := default 0 (attempts (e_task e))) in *.
  set (t := setdefault_attempts (e_task e)) in *.
  assert (Hloop : ∀ iso t0 s0 r,
             attempts t0 = Some a → task_id t0 = task_id (e_task e) →
             kept s s0 → task_queue s0 = q → seq s0 = seq s →
             RUNNING_FILE s0 = RUNNING_FILE s →
             (tick s ≤ tick s0 ≤ tick s + 1)%nat →
             ('(_, s1) ← retry_loop W MAX_ATTEMPTS (Z.to_nat (MAX_ATTEMPTS - a)) iso t0 s0;
              mret s1) = Ok r →
             (tick s ≤ tick r ≤ tick s + 1 + 2 * Z.to_nat (MAX_ATTEMPTS - a))%nat
             ∧ (RUNNING_FILE s = None → RUNNING_FILE r = None)
             ∧ ((kept s r ∧ task_queue r = q ∧ seq r = seq s)
                ∨ (kept s r ∧ seq r = S (seq s)
                   ∧ ∃ t', task_id t' = task_id (e_task e)
                           ∧ task_queue r
                             = heappush q (mkEntry (e_prio e) (seq s)
                                                   (task_id (e_task e)) t'))
                ∨ (moved (task_id (e_task e)) s r ∧ task_queue r = q ∧ seq r = seq s))).
  { intros iso t0 s0 r Ha0 Hid0 Hk Hq0 Hs0 Hr0 Ht0.
    destruct (retry_loop W MAX_ATTEMPTS _ iso t0 s0) as [[t1 s1]| |] eqn:Hl;
      cbn [mbind result_bind bind mret result_ret]; try discriminate.
    intros [= <-].
    destruct (retry_loop_effect _ _ _ _ _ _ _ Ha0 Hl) as (_ & Htk & Hrun & Hcase).
    apply retry_loop_queue in Hl as [Hq1 Hs1].
    split_and!; [lia | lia | rewrite <- Hr0; exact Hrun |].
    destruct Hcase as [Hk1|Hm].
    - left. split_and!; [eapply kept_trans; eassumption | congruence | congruence].
    - right. right. rewrite Hid0 in Hm.
      split_and!; [eapply kept_moved; eassumption | congruence | congruence]. }
  rewrite Ha. cbn [getitem mbind result_bind bind].
  destruct (negb (default false _)).
  - destruct (negb (truthy _)).
    + destruct (a + 1 <? MAX_ATTEMPTS).
      * intros [= <-]. simpl. split_and!; [lia | lia | tauto |].
        right. left. split_and!; [now split_and! | reflexivity |].
        exists (set_attempts (a + 1) t). simpl. rewrite Hid. now split.
      * match goal with
        | |- context [finalize ?w ?st ?i ?x ?y] =>
            destruct (finalize_moved st i x y) as (Hm & _ & _ & Htk & Hrun);
              [status_in|];
            pose proof (finalize_queue w st i x y) as [Hfq Hfs];
            destruct (finalize w st i x y) as [t2 s2]
        end.
        intros [= <-].
        simpl in Hm, Htk, Hrun, Hfq, Hfs. rewrite Hid in Hm.
        split_and!; [rewrite Htk; lia | rewrite Htk; lia | now rewrite Hrun |].
        right. right. split_and!; [|assumption..].
        eapply kept_moved; [|exact Hm]. now split_and!.
    + rewrite Hp. destruct (task_payload (e_task e)) as [p|]; [|discriminate].
      cbn [getitem mbind result_bind bind].
      apply Hloop; simpl; try (reflexivity || assumption || lia). now split_and!.
  - apply Hloop; simpl; try (reflexivity || assumption || lia). now split_and!.
Qed.

(** [process] never stops for lack of fuel: the retry loop makes no more
    passes than there are attempts left. *)
Lemma process_returns (s : wstate) : process W MAX_ATTEMPTS s ≠ Fuel.
Proof.
  unfold process.
  destruct (heappop (task_queue s)) as [[e q]|]; [|discriminate].
  destruct (attempts_setdefault (e_task e)) as (Ha & Hid & Hp).
  assert (Hloop : ∀ iso t0 s0,
             attempts t0 = Some (default 0 (attempts (e_task e))) →
             ('(_, s1) ← retry_loop W MAX_ATTEMPTS
                           (Z.to_nat (MAX_ATTEMPTS - default 0 (attempts (e_task e))))
                           iso t0 s0;
              mret s1) ≠ (Fuel : result wstate)).
  { intros iso t0 s0 Ha0.
    pose proof (retry_loop_enough_fuel W MAX_ATTEMPTS iso _ t0 s0 _ Ha0 (le_n _)) as Hf.
    destruct (retry_loop W MAX_ATTEMPTS _ iso t0 s0) as [[t1 s1]| |];
      cbn [mbind result_bind bind mret result_ret]; [discriminate..|]. now exfalso. }
  rewrite Ha. cbn [getitem mbind result_bind bind].
  destruct (negb (default false _)).
  - destruct (negb (truthy _)).
    + destruct (_ <? MAX_ATTEMPTS); discriminate.
    + destruct (task_payload (setdefault_attempts (e_task e))) as [p|]; [|discriminate].
      cbn [getitem mbind result_bind bind]. now apply Hloop.
  - now apply Hloop.
Qed.

End Effects.

(** ** The invariants of the main loop *)

Lemma ids_inv_ext (s s' : wstate) :
  task_queue s' = task_queue s → seen_ids s' = seen_ids s → ids_inv s → ids_inv s'.
Proof. unfold ids_inv. now intros -> ->. Qed.

Lemma tid_of_task_id (t : task) (tid : string) :
  tid_of t = Some tid → task_id t = Some tid.
Proof.
  unfold tid_of. destruct (task_id t) as [i|]; [|discriminate].
  destruct (truthy i); [|discriminate]. now intros [= ->].
Qed.

Lemma queued_in_mono (seen seen' : gset string) (e : entry) :
  seen ⊆ seen' → queued_in seen e → queued_in seen' e.
Proof.
  intros Hsub (tid & H1 & H2 & H3). exists tid. split_and!; [assumption..|].
  now apply Hsub.
Qed.

Lemma ids_inv_push (seen seen' : gset string) (q : list entry) (e : entry) :
  NoDup (map e_tid q) → Forall (queued_in seen) q →
  seen ⊆ seen' → queued_in seen' e → e_tid e ∉ map e_tid q →
  NoDup (map e_tid (heappush q e)) ∧ Forall (queued_in seen') (heappush q e).
Proof.
  intros Hnd Hall Hsub He Hnew.
  pose proof (heappush_queue_perm q e) as Hperm. split.
  - rewrite (Permutation_map e_tid Hperm), map_app. simpl.
    apply NoDup_app. split_and!; [assumption | | apply NoDup_singleton].
    intros x Hx Hx'. apply list_elem_of_singleton in Hx'. now subst x.
  - rewrite Hperm. apply Forall_app. split; [|now constructor].
    eapply Forall_impl; [exact Hall|]. intros x. now apply queued_in_mono.
Qed.

Lemma ids_inv_enqueue (s : wstate) (t : task) : ids_inv s → ids_inv (enqueue s t).
Proof.
  intros [Hnd Hall]. unfold enqueue.
  destruct (tid_of t) as [tid|] eqn:Htid; [|now split].
  case_bool_decide as Hseen; [now split|].
  unfold ids_inv. simpl. apply (ids_inv_push (seen_ids s)); try assumption.
  - intros x Hx. apply elem_of_union. now right.
  - exists tid. simpl. split_and!; [reflexivity | now apply tid_of_task_id |].
    apply elem_of_union. left. now apply elem_of_singleton.
  - simpl. intros Hin. apply list_elem_of_fmap in Hin as (y & Hy & Hin).
    rewrite Forall_forall in Hall. destruct (Hall y Hin) as (i & H1 & _ & H3).
    congruence.
Qed.

Lemma ids_inv_enqueue_all (ts : list task) :
  ∀ s, ids_inv s → ids_inv (enqueue_all ts s).
Proof.
  unfold enqueue_all. induction ts as [|t ts IH]; intros s Hinv; [exact Hinv|].
  simpl. apply IH. now apply ids_inv_enqueue.
Qed.

Section Reachable.
Variable W : world.
Variable MAX_ATTEMPTS : Z.

Lemma ids_inv_poll (fuel : nat) (s s' : wstate) :
  poll W fuel s = Ok s' → ids_inv s → ids_inv s'.
Proof.
  intros Hp Hinv. apply poll_inv in Hp as (ts' & k & -> & _).
  apply ids_inv_enqueue_all. now apply (ids_inv_ext s).
Qed.

Lemma ids_inv_process (s s' : wstate) :
  process W MAX_ATTEMPTS s = Ok s' → queue_inv s → ids_inv s → ids_inv s'.
Proof.
  intros Hproc (Hok & _ & _) [Hnd Hall].
  pose proof (process_effect W MAX_ATTEMPTS s s' Hproc) as Heff.
  pose proof (heappop_queue (task_queue s) Hok) as Hpop.
  destruct (heappop (task_queue s)) as [[e q]|]; [|subst s'; now split].
  destruct Hpop as (_ & Hperm & _).
  rewrite (Permutation_map e_tid Hperm) in Hnd. simpl in Hnd.
  apply NoDup_cons in Hnd as [Hnew Hndq].
  rewrite Hperm in Hall. apply Forall_cons in Hall as [(tid & He1 & He2 & He3) Hallq].
  destruct Heff as (_ & _ & [((_ & _ & Hs) & Hq & _)
                            |[((_ & _ & Hs) & _ & t' & Hid & Hq)
                             |((r & st & _ & _ & _ & _ & _ & Hs) & Hq & _)]]).
  - unfold ids_inv. rewrite Hq, Hs. now split.
  - unfold ids_inv. rewrite Hq, Hs.
    apply (ids_inv_push (seen_ids s)); try assumption; [reflexivity | |].
    + exists tid. simpl. split_and!; [congruence | congruence | assumption].
    + simpl. congruence.
  - unfold ids_inv. rewrite Hq, Hs. split; [assumption|].
    rewrite He2. apply Forall_forall. intros x Hx.
    rewrite Forall_forall in Hallq. destruct (Hallq x Hx) as (i & H1 & H2 & H3).
    exists i. split_and!; [assumption..|].
    apply elem_of_difference. split; [assumption|].
    intros Hi. apply elem_of_singleton in Hi. subst i.
    apply Hnew. rewrite He1, <- H1. apply list_elem_of_fmap. now exists x.
Qed.

Lemma ids_inv_main_cycle (fuel : nat) (s s' : wstate) :
  main_cycle W MAX_ATTEMPTS fuel s = Ok s' → queue_inv s → ids_inv s → ids_inv s'.
Proof.
  unfold main_cycle. intros Hcycle Hqinv Hinv. revert Hcycle.
  destruct (poll W fuel s) as [s1| |] eqn:Hp;
    cbn [mbind result_bind bind]; try discriminate.
  pose proof (queue_inv_poll W fuel s s1 Hp Hqinv) as Hq1.
  apply ids_inv_poll in Hp; [|exact Hinv].
  destruct (task_queue s1) eqn:Hq.
  - intros [= <-]. now apply (ids_inv_ext s1).
  - destruct (check_orchestrator_health W _).
    + intros Hproc. apply ids_inv_process in Hproc; [exact Hproc | |].
      * now apply (queue_inv_ext s1).
      * now apply (ids_inv_ext s1).
    + intros [= <-]. now apply (ids_inv_ext s1).
Qed.

(** Both invariants hold at every turn of the loop. *)
Lemma main_loop_inv (fuel turns : nat) :
  ∀ s s', main_loop W MAX_ATTEMPTS fuel turns s = Ok s' →
          queue_inv s → ids_inv s → queue_inv s' ∧ ids_inv s'.
Proof.
  induction turns as [|n IH]; intros s s'; simpl.
  - now intros [= <-].
  - destruct (main_cycle W MAX_ATTEMPTS fuel s) as [s1| |] eqn:Hc;
      cbn [mbind result_bind bind]; try discriminate.
    intros Hloop Hq Hi. apply (IH s1 s' Hloop).
    + eapply queue_inv_main_cycle; eassumption.
    + eapply ids_inv_main_cycle; eassumption.
Qed.

Lemma ids_inv_initial (pending : list task) : ids_inv (initial pending).
Proof. split; constructor. Qed.

(** At every turn of the watcher, whatever the pending store it was
    started on and whatever the outside world answered: no task id is in
    the queue twice, every queued entry carries the id of its task, and
    every queued id is in the seen-set. *)
Theorem queued_ids_unique (fuel turns : nat) (pending : list task) (s : wstate) :
  main_loop W MAX_ATTEMPTS fuel turns (initial pending) = Ok s →
  NoDup (map e_tid (task_queue s))
  ∧ Forall (λ e, ∃ tid, e_tid e = Some tid ∧ task_id (e_task e) = Some tid
                        ∧ tid ∈ seen_ids s) (task_queue s).
Proof.
  intros Hloop.
  destruct (main_loop_inv fuel turns _ _ Hloop (queue_inv_initial pending)
              (ids_inv_initial pending)) as [_ Hinv].
  exact Hinv.
Qed.

(** At every turn of the watcher the queue is a heap with pairwise
    different sequence numbers, so the entry [heappop] takes is strictly
    before every entry it leaves: of higher urgency, or of the same
    urgency and enqueued earlier. *)
Theorem popped_entry_is_first (fuel turns : nat) (pending : list task) (s : wstate)
        (e : entry) (q : list entry) :
  main_loop W MAX_ATTEMPTS fuel turns (initial pending) = Ok s →
  heappop (task_queue s) = Some (e, q) →
  task_queue s ≡ₚ e :: q ∧ Forall (entry_lt e) q.
Proof.
  intros Hloop Hpop.
  destruct (main_loop_inv fuel turns _ _ Hloop (queue_inv_initial pending)
              (ids_inv_initial pending)) as [(Hok & Hnd & _) _].
  pose proof (heappop_queue (task_queue s) Hok) as H. rewrite Hpop in H.
  destruct H as (_ & Hperm & Hmin). split; [exact Hperm|].
  rewrite (Permutation_map e_seq Hperm) in Hnd. simpl in Hnd.
  apply NoDup_cons in Hnd as [Hnew _].
  rewrite Forall_forall in Hmin |- *. intros y Hy.
  apply entry_lt_total; [|now apply Hmin].
  intros Heq. apply Hnew. rewrite Heq. apply list_elem_of_fmap. now exists y.
Qed.

(** A turn of [process] finishes at most one task.  Either the pending
    store, the completed store and the seen-set are as they were; or one
    record was appended to the completed store, with the id of the popped
    task and one of the three final statuses, the records with that id
    (and no others) left the pending store, and the id left the seen-set.
    No snapshot of a running task is left behind. *)
Theorem process_moves_at_most_one_task (s s' : wstate) :
  process W MAX_ATTEMPTS s = Ok s' →
  (RUNNING_FILE s = None → RUNNING_FILE s' = None)
  ∧ (kept s s'
     ∨ ∃ e q, heappop (task_queue s) = Some (e, q)
              ∧ moved (task_id (e_task e)) s s').
Proof.
  intros Hproc. pose proof (process_effect W MAX_ATTEMPTS s s' Hproc) as Heff.
  destruct (heappop (task_queue s)) as [[e q]|].
  - destruct Heff as (_ & Hrun & [(Hk & _)|[(Hk & _)|(Hm & _)]]).
    + split; [assumption | now left].
    + split; [assumption | now left].
    + split; [assumption|]. right. now exists e, q.
  - subst s'. split; [tauto | left; apply kept_refl].
Qed.

(** The work on one task is bounded: [process] returns or raises, and it
    makes at most one call to the planner and two calls (evaluator and
    replanner) for every attempt the task has left. *)
Theorem process_calls_bounded (s : wstate) (e : entry) (q : list entry) :
  heappop (task_queue s) = Some (e, q) →
  process W MAX_ATTEMPTS s ≠ Fuel
  ∧ ∀ s', process W MAX_ATTEMPTS s = Ok s' →
          (tick s ≤ tick s'
           ≤ tick s + 1
             + 2 * Z.to_nat (MAX_ATTEMPTS - default 0%Z (attempts (e_task e))))%nat.
Proof.
  intros Hpop. split; [apply process_returns|].
  intros s' Hproc. pose proof (process_effect W MAX_ATTEMPTS s s' Hproc) as Heff.
  rewrite Hpop in Heff. now destruct Heff as (Htk & _).
Qed.

End Reachable.

(** ** Whole runs on a store of one task *)

Lemma heappush_nil (e : entry) : heappush [] e = [e].
Proof. reflexivity. Qed.

Lemma heappop_singleton (e : entry) : heappop [e] = Some (e, []).
Proof. reflexivity. Qed.

Section OneTask.
Variable W : world.
Variable MAX_ATTEMPTS : Z.
Variable t : task.
Variable tid : string.
Hypothesis Htid : tid_of t = Some tid.

Lemma poll_single_new (fuel n k : nat) (seen : gset string) (idle : bool)
      (cf : list task) (rf : option task) :
  tid ∉ seen →
  poll W fuel (mkState n seen [] idle [t] cf rf k)
  = Ok (mkState (S n) ({[tid]} ∪ seen) [mkEntry (get_priority t) n (Some tid) t]
                idle [t] cf rf k).
Proof.
  intros Hnew. unfold poll, load_tasks. simpl TASK_FILE.
  rewrite assign_ids_noop by (constructor; [now rewrite Htid | constructor]).
  simpl. unfold enqueue_all. simpl. unfold enqueue. rewrite Htid. simpl.
  now rewrite bool_decide_false by assumption.
Qed.

Lemma poll_single_seen (fuel n k : nat) (seen : gset string) (q : list entry)
      (idle : bool) (cf : list task) (rf : option task) :
  tid ∈ seen →
  poll W fuel (mkState n seen q idle [t] cf rf k)
  = Ok (mkState n seen q idle [t] cf rf k).
Proof.
  intros Hseen. apply poll_fixed; simpl.
  - constructor; [now rewrite Htid | constructor].
  - intros x i Hx Hi. apply list_elem_of_singleton in Hx. subst x. congruence.
Qed.

Lemma main_loop_snoc (fuel n : nat) :
  ∀ s, main_loop W MAX_ATTEMPTS fuel (S n) s
       = (s' ← main_loop W MAX_ATTEMPTS fuel n s; main_cycle W MAX_ATTEMPTS fuel s').
Proof.
  induction n as [|n IH]; intros s.
  - simpl. now destruct (main_cycle W MAX_ATTEMPTS fuel s).
  - cbn [main_loop]. 
    destruct (main_cycle W MAX_ATTEMPTS fuel s) as [s1| |];
      cbn [mbind result_bind bind]; [|reflexivity..].
    apply (IH s1).
Qed.

(** *** A record that arrives with its attempts used up *)

Section Stale.
Variable a : Z.
Variable p : payload.
Hypothesis Hattempts : attempts t = Some a.
Hypothesis Hused : MAX_ATTEMPTS <= a.
Hypothesis Hpayload : task_payload t = Some p.
Hypothesis Hrefined :
  default false (refined p) = true
  ∨ ∀ k text, truthy (strip (refine_task W k text)) = true.

Lemma stale_process (n k m : nat) (seen : gset string) (prio : Z)
      (etid : option string) (idle : bool) (tf cf : list task) (rf : option task) :
  ∃ k', process W MAX_ATTEMPTS (mkState n seen [mkEntry prio m etid t] idle tf cf rf k)
        = Ok (mkState n seen [] idle tf cf rf k').
Proof.
  unfold process. simpl task_queue. rewrite heappop_singleton.
  cbn [e_task e_prio].
  assert (Hsd : setdefault_attempts t = t)
    by (unfold setdefault_attempts; rewrite Hattempts; reflexivity).
  rewrite Hsd, Hattempts, Hpayload.
  cbn [getitem mbind result_bind bind default from_option id].
  destruct (default false (refined p)) eqn:Hr; cbn [negb].
  - rewrite (retry_loop_done W MAX_ATTEMPTS _ _ t _ a) by assumption.
    cbn [mbind result_bind bind mret result_ret]. now eexists.
  - destruct Hrefined as [Hr'|Hplan]; [congruence|].
    rewrite Hplan. cbn [negb].
    match goal with
    | |- context [retry_loop ?w ?mx ?f ?i ?x ?y] =>
        rewrite (retry_loop_done w mx i f x y a) by (simpl; assumption)
    end.
    cbn [mbind result_bind bind mret result_ret]. now eexists.
Qed.

Lemma stuck_main_cycle (fuel : nat) (s : wstate) :
  stuck t tid s → ∃ s', main_cycle W MAX_ATTEMPTS fuel s = Ok s' ∧ stuck t tid s'.
Proof.
  destruct s as [n seen q idle tf cf rf k]. unfold stuck. simpl.
  intros (-> & -> & -> & Hq). unfold main_cycle.
  destruct Hq as [->|(Hseen & m & ->)].
  - destruct (decide (tid ∈ seen)) as [Hseen|Hnew].
    + rewrite poll_single_seen by assumption. cbn [mbind result_bind bind].
      simpl. eexists. split; [reflexivity|]. simpl. now split_and!; [..|left].
    + rewrite poll_single_new by assumption. cbn [mbind result_bind bind].
      simpl task_queue. cbn iota.
      destruct (check_orchestrator_health W _).
      * unfold set_tick, set_idle_state. simpl.
        destruct (stale_process (S n) (S k) n ({[tid]} ∪ seen) (get_priority t)
                    (Some tid) false [t] [] None) as [k' ->].
        eexists. split; [reflexivity|]. simpl. now split_and!; [..|left].
      * eexists. split; [reflexivity|]. simpl. split_and!; [reflexivity..|].
        right. split; [|now eexists].
        apply elem_of_union. left. now apply elem_of_singleton.
  - rewrite poll_single_seen by assumption. cbn [mbind result_bind bind].
    simpl task_queue. cbn iota.
    destruct (check_orchestrator_health W _).
    + unfold set_tick, set_idle_state. simpl.
      destruct (stale_process n (S k) m seen (get_priority t)
                  (Some tid) false [t] [] None) as [k' ->].
      eexists. split; [reflexivity|]. simpl. now split_and!; [..|left].
    + eexists. split; [reflexivity|]. simpl. split_and!; [reflexivity..|].
      right. split; [assumption | now eexists].
Qed.

Lemma stuck_main_loop (fuel turns : nat) :
  ∀ s, stuck t tid s → ∃ s', main_loop W MAX_ATTEMPTS fuel turns s = Ok s' ∧ stuck t tid s'.
Proof.
  induction turns as [|n IH]; intros s Hs; [now exists s|].
  destruct (stuck_main_cycle fuel s Hs) as (s1 & Hc & Hs1).
  destruct (IH s1 Hs1) as (s' & Hl & Hs'). exists s'. split; [|assumption].
  simpl. rewrite Hc. exact Hl.
Qed.

End Stale.

(** *** A planner that answers blank *)

Section Silent.
Hypothesis Hsilent : planner_silent W.
Hypothesis Hhealthy : always_healthy W.
Hypothesis Hfresh : attempts t = None.
Hypothesis Hraw :
  default false (refined (default empty_payload (task_payload t))) = false.

Lemma silent_process (n k m : nat) (seen : gset string) (tk : task) (j : Z) :
  default 0 (attempts tk) = j →
  task_payload tk = task_payload t → task_id tk = Some tid →
  set_attempts (j + 1) (setdefault_attempts tk) = set_attempts (j + 1) t →
  process W MAX_ATTEMPTS
          (mkState n seen [mkEntry (get_priority t) m (Some tid) tk] false [t] [] None k)
  = if j + 1 <? MAX_ATTEMPTS
    then Ok (mkState (S n) seen
                     [mkEntry (get_priority t) n (Some tid) (set_attempts (j + 1) t)]
                     false [t] [] None (S k))
    else Ok (finalize W "Failed (empty refinement)" (gmtime_iso W k)
                      (set_attempts (j + 1) t)
                      (mkState n seen [] false [t] [] None (S k))).2.
Proof.
  intros Hj Hp Hid Hset. unfold process. simpl task_queue. rewrite heappop_singleton.
  cbn [e_task e_prio].
  destruct (attempts_setdefault tk) as (Ha & Hid' & Hp').
  rewrite Ha, Hp', Hp, Hj. cbn [getitem mbind result_bind bind].
  rewrite Hraw. cbn [negb]. rewrite Hsilent. cbn [truthy negb].
  rewrite Hset. destruct (j + 1 <? MAX_ATTEMPTS); [|reflexivity].
  simpl. rewrite heappush_nil.
  assert (Hidt : task_id t = Some tid) by now apply tid_of_task_id.
  now rewrite Hidt.
Qed.

Lemma first_turn (fuel : nat) :
  main_cycle W MAX_ATTEMPTS fuel (initial [t])
  = if 1 <? MAX_ATTEMPTS then Ok (requeued t tid 1) else Ok (given_up_after W t tid 0).
Proof.
  unfold main_cycle, initial.
  rewrite poll_single_new by (intros H; now apply elem_of_empty in H).
  cbn [mbind result_bind bind]. simpl task_queue. cbn iota.
  rewrite Hhealthy. unfold set_tick, set_idle_state. simpl.
  rewrite (silent_process 1 1 0 ({[tid]} ∪ ∅) t 0).
  - reflexivity.
  - now rewrite Hfresh.
  - reflexivity.
  - now apply tid_of_task_id.
  - unfold setdefault_attempts. now rewrite Hfresh.
Qed.

Lemma next_turn (fuel j : nat) :
  main_cycle W MAX_ATTEMPTS fuel (requeued t tid j)
  = if Z.of_nat (S j) <? MAX_ATTEMPTS then Ok (requeued t tid (S j))
    else Ok (given_up_after W t tid j).
Proof.
  unfold main_cycle, requeued.
  rewrite poll_single_seen
    by (apply elem_of_union; left; now apply elem_of_singleton).
  cbn [mbind result_bind bind]. simpl task_queue. cbn iota.
  rewrite Hhealthy. unfold set_tick, set_idle_state. simpl.
  rewrite (silent_process (S j) (S (j + (j + 0))) j ({[tid]} ∪ ∅)
             (set_attempts (Z.of_nat j) t) (Z.of_nat j)).
  - replace (Z.of_nat j + 1) with (Z.of_nat (S j)) by lia.
    destruct (Z.of_nat (S j) <? MAX_ATTEMPTS); [|reflexivity].
    unfold requeued. do 2 f_equal. lia.
  - reflexivity.
  - reflexivity.
  - simpl. now apply tid_of_task_id.
  - reflexivity.
Qed.

Lemma turns_requeued (fuel : nat) (j : nat) :
  Z.of_nat (S j) < MAX_ATTEMPTS →
  main_loop W MAX_ATTEMPTS fuel (S j) (initial [t]) = Ok (requeued t tid (S j)).
Proof.
  induction j as [|j IH]; intros Hlt.
  - simpl. rewrite first_turn.
    destruct (1 <? MAX_ATTEMPTS) eqn:H1; [reflexivity|].
    apply Z.ltb_ge in H1. lia.
  - rewrite main_loop_snoc, IH by lia. cbn [mbind result_bind bind].
    rewrite next_turn.
    destruct (Z.of_nat (S (S j)) <? MAX_ATTEMPTS) eqn:H1; [reflexivity|].
    apply Z.ltb_ge in H1. lia.
Qed.

Lemma turns_given_up (fuel : nat) (j : nat) :
  Z.of_nat (S j) = MAX_ATTEMPTS →
  main_loop W MAX_ATTEMPTS fuel (S j) (initial [t]) = Ok (given_up_after W t tid j).
Proof.
  intros Hj. destruct j as [|j].
  - simpl. rewrite first_turn.
    destruct (1 <? MAX_ATTEMPTS) eqn:H1; [|reflexivity].
    apply Z.ltb_lt in H1. lia.
  - rewrite main_loop_snoc, turns_requeued by lia. cbn [mbind result_bind bind].
    rewrite next_turn.
    destruct (Z.of_nat (S (S j)) <? MAX_ATTEMPTS) eqn:H1; [|reflexivity].
    apply Z.ltb_lt in H1. lia.
Qed.

End Silent.

End OneTask.




(** ** The payload through the retry loop *)

Section Payload.
Variable W : world.
Variable MAX_ATTEMPTS : Z.

Lemma same_origin_refl (p : payload) : same_origin p p.
Proof. now split_and!. Qed.

Lemma same_origin_trans (p p1 p2 : payload) :
  same_origin p p1 → same_origin p1 p2 → same_origin p p2.
Proof.
  intros (H1 & H2 & H3 & H4) (H1' & H2' & H3' & H4'). split_and!; congruence.
Qed.

Lemma finalize_record (st iso : string) (t : task) (s : wstate) (p : payload) :
  task_payload t = Some p →
  ∀ r, r ∈ COMPLETED_FILE (finalize W st iso t s).2 →
       r ∈ COMPLETED_FILE s ∨ of_origin p r.
Proof.
  intros Hp r. rewrite (proj2 (finalize_spec W st iso t s)).
  intros Hr. apply elem_of_app in Hr as [Hr|Hr]; [now left|].
  apply list_elem_of_singleton in Hr. subst r. right.
  exists p. split; [exact Hp | apply same_origin_refl].
Qed.

(** After a pass whose verdict is a failure, the text of the task is the
    refined replan, or the verdict itself when the replanner answered
    blank; the other keys of the payload are as they were. *)
Lemma attempt_payload (iso : string) (t t' : task) (s s' : wstate) (b : bool)
      (p : payload) :
  task_payload t = Some p →
  attempt W MAX_ATTEMPTS iso t s = Ok (b, t', s') →
  (∃ p', task_payload t' = Some p' ∧ same_origin p p')
  ∧ ∀ r, r ∈ COMPLETED_FILE s' → r ∈ COMPLETED_FILE s ∨ of_origin p r.
Proof.
  intros Hp. unfold attempt. rewrite Hp. cbn [getitem mbind result_bind bind].
  destruct (task_text p) as [text|]; [|discriminate]. cbn [getitem mbind result_bind bind].
  destruct (attempts t) as [a|]; [|discriminate]. cbn [getitem mbind result_bind bind].
  destruct (String.prefix _ _).
  - match goal with
    | |- context [finalize ?w ?st ?i ?x ?y] =>
        pose proof (finalize_record st i x y p Hp) as Hrec;
        pose proof (proj1 (finalize_spec w st i x y)) as Hfst;
        destruct (finalize w st i x y) as [t2 s2]
    end.
    simpl in Hrec, Hfst. subst t2. intros [= <- <- <-]. split; [|exact Hrec].
    exists p. split; [exact Hp | apply same_origin_refl].
  - match goal with
    | |- context [set_payload ?q t] => set (p1 := q)
    end.
    assert (Ho : same_origin p p1) by (unfold p1; destruct (truthy _); now split_and!).
    destruct (a + 1 >=? MAX_ATTEMPTS).
    + match goal with
      | |- context [finalize ?w ?st ?i ?x ?y] =>
          pose proof (finalize_record st i x y p1 eq_refl) as Hrec;
          pose proof (proj1 (finalize_spec w st i x y)) as Hfst;
          destruct (finalize w st i x y) as [t2 s2]
      end.
      simpl in Hrec, Hfst. subst t2. intros [= <- <- <-]. split.
      * exists p1. now split.
      * intros r Hr. destruct (Hrec r Hr) as [Hin|(pr & Hpr & Hor)]; [now left|].
        right. exists pr. split; [exact Hpr|]. eapply same_origin_trans; eassumption.
    + intros [= <- <- <-]. split; [exists p1; now split | now left].
Qed.

Lemma retry_loop_payload (iso : string) (fuel : nat) :
  ∀ t t' s s' p,
    task_payload t = Some p →
    retry_loop W MAX_ATTEMPTS fuel iso t s = Ok (t', s') →
    ∀ r, r ∈ COMPLETED_FILE s' → r ∈ COMPLETED_FILE s ∨ of_origin p r.
Proof.
  induction fuel as [|fuel IH]; intros t t' s s' p Hp; cbn [retry_loop];
    (destruct (attempts t) as [a|]; [|discriminate]);
    cbn [getitem mbind result_bind bind];
    (destruct (a <? MAX_ATTEMPTS); [|intros [= <- <-]; now left]); [discriminate|].
  destruct (attempt W MAX_ATTEMPTS iso t s) as [[[b t1] s1]| |] eqn:Hat;
    cbn [mbind result_bind bind]; try discriminate.
  destruct (attempt_payload iso _ _ _ _ _ _ Hp Hat) as ((p1 & Hp1 & Ho1) & Hrec1).
  destruct b; [intros [= <- <-]; exact Hrec1|].
  intros Hloop r Hr.
  destruct (IH _ _ _ _ _ Hp1 Hloop r Hr) as [Hin|(pr & Hpr & Hor)].
  - now apply Hrec1.
  - right. exists pr. split; [exact Hpr|]. eapply same_origin_trans; eassumption.
Qed.

End Payload.



(** ** The properties on sample runs *)

Lemma generate_task_id_first_fresh_witness :
  generate_task_id accepting 5 {["Task-a1b2"]} 0 = Ok ("Task-zz92", 3%nat)
  ∧ "Task-zz92" ∉ ({["Task-a1b2"]} : gset string).
Proof.
  assert (H : generate_task_id accepting 5 {["Task-a1b2"]} 0 = Ok ("Task-zz92", 3%nat))
    by (vm_compute; reflexivity).
  split; [exact H|].
  exact (proj1 (proj1 (generate_task_id_first_fresh accepting 5 {["Task-a1b2"]} 0%nat)
                      _ _ H)).
Defined.

Lemma poll_assigns_fresh_ids_witness :
  new_ids pending0 (TASK_FILE polled0) = ["Task-zz92"; "Task-zz93"]
  ∧ NoDup (new_ids (TASK_FILE (initial pending0)) (TASK_FILE polled0)).
Proof.
  split; [vm_compute; reflexivity|].
  assert (H : poll accepting 5 (initial pending0) = Ok polled0)
    by (vm_compute; reflexivity).
  exact (proj1 (proj2 (proj2 (poll_assigns_fresh_ids accepting 5 _ _ H)))).
Defined.

Lemma queued_ids_unique_witness :
  main_loop accepting 3 5 2 (initial arrivals) = Ok after_two_turns
  ∧ length (task_queue after_two_turns) = 5%nat
  ∧ NoDup (map e_tid (task_queue after_two_turns)).
Proof.
  assert (H : main_loop accepting 3 5 2 (initial arrivals) = Ok after_two_turns)
    by (vm_compute; reflexivity).
  split_and!; [exact H | vm_compute; reflexivity |].
  exact (proj1 (queued_ids_unique accepting 3 5 2 arrivals after_two_turns H)).
Defined.

Lemma popped_entry_is_first_witness :
  ∃ e q, heappop (task_queue after_two_turns) = Some (e, q)
         ∧ e_tid e = Some "Task-hig1" ∧ Forall (entry_lt e) q.
Proof.
  assert (H : main_loop accepting 3 5 2 (initial arrivals) = Ok after_two_turns)
    by (vm_compute; reflexivity).
  destruct (heappop (task_queue after_two_turns)) as [[e q]|] eqn:Hpop;
    [|vm_compute in Hpop; discriminate].
  exists e, q. split_and!; [reflexivity | |].
  - vm_compute in Hpop. now injection Hpop as <- <-.
  - exact (proj2 (popped_entry_is_first accepting 3 5 2 arrivals _ e q H Hpop)).
Defined.

Lemma process_moves_at_most_one_task_witness :
  process accepting 3 polled0 = Ok turned0
  ∧ map task_id (COMPLETED_FILE turned0) = [Some "Task-zz93"]
  ∧ (kept polled0 turned0
     ∨ ∃ e q, heappop (task_queue polled0) = Some (e, q)
              ∧ moved (task_id (e_task e)) polled0 turned0).
Proof.
  assert (H : process accepting 3 polled0 = Ok turned0) by (vm_compute; reflexivity).
  split_and!; [exact H | vm_compute; reflexivity |].
  exact (proj2 (process_moves_at_most_one_task accepting 3 polled0 turned0 H)).
Defined.

Lemma process_calls_bounded_witness :
  process accepting 3 polled0 = Ok turned0
  ∧ (tick polled0 ≤ tick turned0 ≤ tick polled0 + 7)%nat.
Proof.
  assert (H : process accepting 3 polled0 = Ok turned0) by (vm_compute; reflexivity).
  split; [exact H|].
  destruct (heappop (task_queue polled0)) as [[e q]|] eqn:Hpop;
    [|vm_compute in Hpop; discriminate].
  pose proof (proj2 (process_calls_bounded accepting 3 polled0 e q Hpop) turned0 H) as Hb.
  vm_compute in Hpop. injection Hpop as <- <-. exact Hb.
Defined.






End WatcherFacts.

(* ===================================================================== *)
(** * Properties of the remote task client and the session coordinator *)
(* ===================================================================== *)

Module DelegatorFacts.
Import Py Delegator.

(** ** The remote task client *)

Section Client.
Variable cb : option TaskUpdateCallback.
Variable c : AgentCard.

Lemma stream_loop_quiet (pre rest : list response) :
  forallb quiet pre = true →
  ∀ task n log, ∃ task' log',
    stream_loop cb c task n log (pre ++ rest)
    = stream_loop cb c task' (n + length pre) log' rest.
Proof.
  induction pre as [|r pre IH]; intros Hq task n log; simpl in *.
  - exists task, log. now rewrite Nat.add_0_r.
  - apply andb_true_iff in Hq as [Hr Hq].
    destruct r as [e|ev]; [discriminate|].
    destruct ev as [m|t|u|u]; [discriminate|..]; simpl in Hr |- *;
      try (apply negb_true_iff in Hr; rewrite Hr);
      destruct cb as [f|];
      match goal with
      | |- ∃ _ _, stream_loop _ _ ?t ?k ?l _ = _ =>
          destruct (IH Hq t k l) as (t' & l' & ->); exists t', l';
          f_equal; lia
      end.
Qed.

Lemma stream_error_returned (pre post : list response) (e : JSONRPCError) :
  forallb quiet pre = true →
  ∀ task n log,
    returned (stream_loop cb c task n log (pre ++ ErrorResponse e :: post))
    = ReplyError e.
Proof.
  intros Hq task n log.
  destruct (stream_loop_quiet pre (ErrorResponse e :: post) Hq task n log)
    as (t' & l' & ->).
  reflexivity.
Qed.

Lemma stream_message_returned (pre post : list response) (m : Message) :
  forallb quiet pre = true →
  ∀ task n log,
    let r := stream_loop cb c task n log (pre ++ SuccessResponse (EvMessage m) :: post) in
    returned r = ReplyMessage m ∧ consumed r = S (n + length pre).
Proof.
  intros Hq task n log.
  destruct (stream_loop_quiet pre (SuccessResponse (EvMessage m) :: post) Hq task n log)
    as (t' & l' & Heq).
  simpl. rewrite Heq. split; reflexivity.
Qed.

Lemma reply_task_inv (task : option Task) (log : list event) (t : Task) :
  task = None ∨ log ≠ [] → reply_of_task task = ReplyTask t → log ≠ [].
Proof. intros [->|Hlog]; [discriminate | intros _; exact Hlog]. Qed.

Lemma deliver_keeps_inv (ev : event) (task : option Task) (log : list event) :
  task = None ∨ log ≠ [] →
  (deliver_to_callback cb c ev task log).1 = None
  ∨ (deliver_to_callback cb c ev task log).2 ≠ [].
Proof.
  unfold deliver_to_callback. destruct cb; simpl; [|trivial].
  intros _. right. intros Hnil. now apply app_eq_nil in Hnil as [_ [=]].
Qed.

Lemma stream_loop_update (ev : event) (rest : list response)
      (task : option Task) (n : nat) (log : list event) :
  (∀ m, ev ≠ EvMessage m) →
  stream_loop cb c task n log (SuccessResponse ev :: rest)
  = let tl := deliver_to_callback cb c ev task log in
    if is_final ev then mkRun (reply_of_task tl.1) (S n) tl.2
    else stream_loop cb c tl.1 (S n) tl.2 rest.
Proof.
  intros Hev. unfold deliver_to_callback.
  destruct ev as [m|t|u|u]; [now destruct (Hev m)|..]; simpl; now destruct cb.
Qed.

(** The loop returns a task only if the callback produced it. *)
Lemma stream_task_was_delivered (stream : list response) :
  ∀ task n log t,
    task = None ∨ log ≠ [] →
    returned (stream_loop cb c task n log stream) = ReplyTask t →
    delivered (stream_loop cb c task n log stream) ≠ [].
Proof.
  induction stream as [|r stream IH]; intros task n log t Hinv.
  - simpl. now apply reply_task_inv.
  - destruct r as [e|ev]; [discriminate|].
    destruct ev as [m|t0|u|u]; [discriminate|..];
      rewrite stream_loop_update by (intros m; discriminate); cbv zeta;
      (destruct (is_final _);
       [simpl; apply reply_task_inv | apply IH]);
      now apply deliver_keeps_inv.
Qed.

(** Without a message or an error in the stream, the loop returns what
    the task variable holds. *)
Lemma stream_without_callback (stream : list response) :
  ∀ task n log,
    delivered (stream_loop cb c task n log stream) = [] →
    task = None →
    ∀ t, returned (stream_loop cb c task n log stream) ≠ ReplyTask t.
Proof.
  intros task n log Hd Htask t Hr.
  eapply stream_task_was_delivered; eauto.
Qed.

End Client.

(** C6.  In streaming mode: a message that arrives after task updates none
    of which is final is returned, and the elements of the stream after it
    are not taken; an empty stream gives [None]; and when no event was given
    to the callback the client does not return a task. *)
Theorem streaming_message_ends_the_call
        (conn : RemoteAgentConnections) (request : MessageSendParams)
        (cb : option TaskUpdateCallback) :
  streaming (card conn) = true →
  let r := client_send_message conn request cb in
  (∀ pre post m,
     send_message_streaming (agent_client conn) request
     = pre ++ SuccessResponse (EvMessage m) :: post →
     forallb quiet pre = true →
     returned r = ReplyMessage m ∧ consumed r = S (length pre))
  ∧ (send_message_streaming (agent_client conn) request = [] →
     returned r = ReplyNone ∧ consumed r = 0%nat)
  ∧ (delivered r = [] →
     returned r = ReplyNone
     ∨ (∃ m, returned r = ReplyMessage m) ∨ (∃ e, returned r = ReplyError e)).
Proof.
  intros Hs r. subst r. unfold client_send_message. rewrite Hs.
  split_and!.
  - intros pre post m -> Hq.
    now apply (stream_message_returned cb (card conn) pre post m Hq None 0%nat []).
  - intros ->. split; reflexivity.
  - intros Hd.
    pose proof (stream_without_callback cb (card conn) _ None 0%nat [] Hd eq_refl) as Hn.
    destruct (returned _) as [e|m|t|]; eauto. now destruct (Hn t).
Qed.

(** ** Content parts *)

Section Coordinator.
Variable b64decode : string → option string.
Variable uuid4 : nat → string.

Ltac no_value_error := intros [? [=]].

Lemma convert_part_frame (p : Part) (ctx : ToolContext) :
  tc_state (convert_part b64decode p ctx).1 = tc_state ctx
  ∧ ¬ is_ValueError (convert_part b64decode p ctx).2.
Proof.
  unfold convert_part, is_ValueError.
  destruct p as [[t|d|f|k]]; simpl.
  - split; [reflexivity | no_value_error].
  - split; [reflexivity | no_value_error].
  - destruct (b64decode (bytes f)); simpl; (split; [reflexivity | no_value_error]).
  - repeat (destruct (String.eqb k _)); simpl;
      (split; [reflexivity | no_value_error]).
Qed.

Lemma convert_parts_frame (ps : list Part) :
  ∀ ctx, tc_state (convert_parts b64decode ps ctx).1 = tc_state ctx
         ∧ ¬ is_ValueError (convert_parts b64decode ps ctx).2.
Proof.
  induction ps as [|p ps IH]; intros ctx; simpl.
  - split; [reflexivity | no_value_error].
  - destruct (convert_part_frame p ctx) as [Hs Hv].
    destruct (convert_part b64decode p ctx) as [c1 [v|e|]]; simpl in *.
    + destruct (IH c1) as [Hs' Hv'].
      destruct (convert_parts b64decode ps c1) as [c2 [vs|e|]]; simpl in *;
        (split; [congruence|]); [no_value_error | exact Hv' | no_value_error].
    + split; [assumption | exact Hv].
    + split; [assumption | no_value_error].
Qed.

Lemma convert_artifacts_frame (arts : list Artifact) :
  ∀ ctx, tc_state (convert_artifacts b64decode arts ctx).1 = tc_state ctx
         ∧ ¬ is_ValueError (convert_artifacts b64decode arts ctx).2.
Proof.
  induction arts as [|a arts IH]; intros ctx; simpl.
  - split; [reflexivity | no_value_error].
  - destruct (convert_parts_frame (a_parts a) ctx) as [Hs Hv].
    destruct (convert_parts b64decode (a_parts a) ctx) as [c1 [v|e|]]; simpl in *.
    + destruct (IH c1) as [Hs' Hv'].
      destruct (convert_artifacts b64decode arts c1) as [c2 [vs|e|]]; simpl in *;
        (split; [congruence|]); [no_value_error | exact Hv' | no_value_error].
    + split; [assumption | exact Hv].
    + split; [assumption | no_value_error].
Qed.

Lemma collect_outputs_frame (task : Task) (ctx : ToolContext) :
  tc_state (collect_outputs b64decode task ctx).1 = tc_state ctx
  ∧ ¬ is_ValueError (collect_outputs b64decode task ctx).2.
Proof.
  unfold collect_outputs.
  assert (H1 : ∀ m, tc_state (convert_parts b64decode (m_parts m) ctx).1 = tc_state ctx
                    ∧ ¬ is_ValueError (convert_parts b64decode (m_parts m) ctx).2)
    by (intros m; apply convert_parts_frame).
  destruct (s_message (status task)) as [m|].
  - specialize (H1 m).
    destruct (convert_parts b64decode (m_parts m) ctx) as [c1 [vs|e|]]; simpl in *.
    + destruct H1 as [Hs _].
      destruct (convert_artifacts_frame (default [] (artifacts task)) c1) as [Hs' Hv'].
      destruct (convert_artifacts b64decode _ c1) as [c2 [ws|e|]]; simpl in *;
        (split; [congruence|]); [no_value_error | exact Hv' | no_value_error].
    + exact H1.
    + split; [apply H1 | no_value_error].
  - destruct (convert_artifacts_frame (default [] (artifacts task)) ctx) as [Hs' Hv'].
    destruct (convert_artifacts b64decode _ ctx) as [c2 [ws|e|]]; simpl in *;
      (split; [congruence|]); [no_value_error | exact Hv' | no_value_error].
Qed.

(** *** The error path *)

Lemma client_returns_error (conn : RemoteAgentConnections) (e : JSONRPCError)
      (request : MessageSendParams) (cb : option TaskUpdateCallback) :
  error_reaches_client conn e request →
  returned (client_send_message conn request cb) = ReplyError e.
Proof.
  unfold error_reaches_client, client_send_message.
  destruct (streaming (card conn)).
  - intros (pre & post & -> & Hq). now apply stream_error_returned.
  - intros ->. reflexivity.
Qed.

(** C5.  When the transport answers with an error response (the unary
    response, or the first element of the stream that is not a task update
    short of final), the client returns the error object as its value, and
    the coordinator sets [session_active] to false and raises a
    [ValueError] whose text holds the worker name, the error message and
    the error code. *)
Theorem transport_error_becomes_domain_error
        (self : HostAgent) (agent_name text : string) (ctx : ToolContext)
        (conn : RemoteAgentConnections) (e : JSONRPCError) :
  remote_agent_connections self !! agent_name = Some conn →
  (∀ request, error_reaches_client conn e request) →
  (∀ request cb, returned (client_send_message conn request cb) = ReplyError e)
  ∧ session_active (tc_state (send_message b64decode uuid4 self agent_name text ctx).1)
    = Some false
  ∧ (send_message b64decode uuid4 self agent_name text ctx).2
    = Raise (ValueError (error_text agent_name e)).
Proof.
  intros Hconn Herr.
  assert (Hc : ∀ request cb,
             returned (client_send_message conn request cb) = ReplyError e)
    by (intros; now apply client_returns_error).
  split; [exact Hc|].
  unfold send_message. rewrite Hconn, Hc. split; reflexivity.
Qed.

(** *** The task path *)

(** C7, as amended.  When the client returns a task, the coordinator sets
    [session_active] to whether the state is none of completed, canceled,
    failed and unknown; stores the task id; stores the context id of the
    task when it is not empty, and keeps the one it had otherwise; and
    raises a [ValueError] exactly when the state is canceled or failed, with
    a text that names the worker and the task id. *)
Theorem task_reply_updates_session
        (self : HostAgent) (agent_name text : string) (ctx : ToolContext)
        (conn : RemoteAgentConnections) (task : Task) :
  remote_agent_connections self !! agent_name = Some conn →
  (∀ request,
     returned (client_send_message conn request (task_callback self)) = ReplyTask task) →
  let out := send_message b64decode uuid4 self agent_name text ctx in
  let st := state (status task) in
  session_active (tc_state out.1)
  = Some (bool_decide (st ∉ [completed; canceled; failed; unknown]))
  ∧ task_id (tc_state out.1) = Some (id task)
  ∧ context_id (tc_state out.1)
    = (if truthy (contextId task) then Some (contextId task)
       else context_id (tc_state ctx))
  ∧ (is_ValueError out.2 ↔ st = canceled ∨ st = failed)
  ∧ (st = canceled → out.2 = Raise (ValueError (cancelled_text agent_name task)))
  ∧ (st = failed → out.2 = Raise (ValueError (failed_text agent_name task))).
Proof.
  intros Hconn Hreply out st. subst out.
  unfold send_message. rewrite Hconn, Hreply. fold st.
  set (c0 := set_state _ (set_state _ ctx)).
  assert (Hc0 : tc_state c0
                = record_task task
                    (mkSession (Some agent_name) (task_id (tc_state ctx))
                               (context_id (tc_state ctx)) (message_id (tc_state ctx))
                               (session_active (tc_state ctx)))) by reflexivity.
  destruct (collect_outputs_frame task c0) as [Hs Hv].
  destruct (collect_outputs_frame task (pause_turn c0)) as [Hs' Hv'].
  assert (Hstate :
            tc_state (match st with
                      | input_required => collect_outputs b64decode task (pause_turn c0)
                      | canceled => (c0, Raise (ValueError (cancelled_text agent_name task)))
                      | failed => (c0, Raise (ValueError (failed_text agent_name task)))
                      | _ => collect_outputs b64decode task c0
                      end).1 = tc_state c0)
    by (destruct st; simpl; assumption || reflexivity).
  unfold cancelled_text, failed_text in Hstate.
  split_and!.
  - rewrite Hstate, Hc0. reflexivity.
  - rewrite Hstate, Hc0. reflexivity.
  - rewrite Hstate, Hc0. reflexivity.
  - destruct st; simpl; split;
      try (intros [H|H]; discriminate H);
      try (intros H; exfalso; now (apply Hv in H || apply Hv' in H));
      try (intros _; eexists; reflexivity);
      try (intros _; now (left + right)).
  - intros ->. reflexivity.
  - intros ->. reflexivity.
Qed.

(** *** The fallback of [convert_part] *)


(** The three kinds the protocol defines are converted as section 4.4
    says. *)
Lemma convert_part_known (ctx : ToolContext) :
  (∀ t, convert_part b64decode (mkPart (TextPart t)) ctx = (ctx, Ok (OutText t)))
  ∧ (∀ d, convert_part b64decode (mkPart (DataPart d)) ctx = (ctx, Ok (OutData d)))
  ∧ (∀ f bs, b64decode (bytes f) = Some bs →
       convert_part b64decode (mkPart (FilePart f)) ctx
       = (pause_turn (save_artifact (name f) (mkBlob (mimeType f) bs) ctx),
          Ok (OutDataPart (JDict [("artifact-file-id", json_of_name (name f))])))).
Proof.
  split_and!; [reflexivity | reflexivity |].
  intros f bs H. unfold convert_part. simpl. now rewrite H.
Qed.

End Coordinator.

(** ** The claims on sample calls *)

Lemma transport_error_becomes_domain_error_witness :
  let conn := streaming_worker
                [still_working; still_working; ErrorResponse internal_error;
                 SuccessResponse (EvMessage answer)] in
  let out := send_message no_base64 uuids (host conn) "describer" "describe"
                          second_turn in
  session_active (tc_state out.1) = Some false
  ∧ out.2 = Raise (ValueError
                     "Agent 'describer' returned an error: Internal error (Code: -32603)").
Proof.
  intros conn out.
  destruct (transport_error_becomes_domain_error
              no_base64 uuids (host conn) "describer" "describe" second_turn
              conn internal_error) as (_ & Hflag & Hraise).
  - reflexivity.
  - intros request. exists [still_working; still_working], [SuccessResponse (EvMessage answer)].
    split; reflexivity.
  - split; [exact Hflag | exact Hraise].
Defined.

Lemma streaming_message_ends_the_call_witness :
  let conn := streaming_worker
                [still_working; still_working; SuccessResponse (EvMessage answer);
                 still_working] in
  let r := client_send_message conn a_request (Some keep_task) in
  returned r = ReplyMessage answer ∧ consumed r = 3%nat.
Proof.
  intros conn r.
  destruct (streaming_message_ends_the_call conn a_request (Some keep_task) eq_refl)
    as (Hmsg & _ & _).
  apply (Hmsg [still_working; still_working] [still_working] answer); reflexivity.
Defined.

(** C7, as worded, fails: a task with an empty context id comes back in a
    conversation that has the context id ctx-9; the session keeps ctx-9. *)
Lemma empty_context_id_not_persisted :
  let conn := unary_worker (UnaryTask task_without_context) in
  let out := send_message no_base64 uuids (host conn) "describer" "describe"
                          second_turn in
  out.2 = Ok []
  ∧ context_id (tc_state out.1) = Some "ctx-9"
  ∧ ¬ persists_context_id out.1 task_without_context.
Proof.
  intros conn out. split_and!; [reflexivity | reflexivity |].
  unfold persists_context_id. vm_compute. discriminate.
Qed.

Lemma task_reply_updates_session_witness :
  let conn := unary_worker
                (UnaryTask (mkTask "task-8" "ctx-10" (mkStatus failed None) None)) in
  let out := send_message no_base64 uuids (host conn) "describer" "describe"
                          second_turn in
  session_active (tc_state out.1) = Some false
  ∧ task_id (tc_state out.1) = Some "task-8"
  ∧ context_id (tc_state out.1) = Some "ctx-10"
  ∧ out.2 = Raise (ValueError "Agent describer task task-8 failed").
Proof.
  intros conn out.
  destruct (task_reply_updates_session
              no_base64 uuids (host conn) "describer" "describe" second_turn conn
              (mkTask "task-8" "ctx-10" (mkStatus failed None) None))
    as (Hflag & Htid & Hctx & _ & _ & Hfailed); [reflexivity | reflexivity |].
  split_and!; [exact Hflag | exact Htid | exact Hctx | exact (Hfailed eq_refl)].
Defined.



(** * The rest of the coordinator *)

Section Client.
Variable cb : option TaskUpdateCallback.
Variable c : AgentCard.

Lemma task_after_cons (task : option Task) (log : list event) (ev : event)
      (evs : list event) :
  task_after cb c (deliver_to_callback cb c ev task log).1 evs
  = task_after cb c task (ev :: evs).
Proof.
  unfold task_after, deliver_to_callback. rewrite last_cons.
  destruct cb as [f|]; simpl; [|reflexivity]. now destruct (last evs).
Qed.

Lemma reply_after_quiet (r : response) (l : list response) (task : option Task) :
  quiet r = true →
  reply_after (last (r :: l)) task
  = match l with [] => reply_of_task task | _ => reply_after (last l) task end.
Proof.
  intros Hq. destruct l as [|r' l]; [|reflexivity].
  destruct r as [e|[m|t|u|u]]; try discriminate; reflexivity.
Qed.

Lemma stream_loop_taken (stream : list response) :
  ∀ task n log,
    let r := stream_loop cb c task n log stream in
    consumed r = (n + length (taken stream))%nat
    ∧ delivered r
      = log ++ match cb with Some _ => updates (taken stream) | None => [] end
    ∧ returned r = reply_after (last (taken stream))
                               (task_after cb c task (updates (taken stream))).
Proof.
  induction stream as [|r stream IH]; intros task n log.
  - simpl. unfold task_after. split_and!; [lia | | now destruct cb].
    destruct cb; now rewrite app_nil_r.
  - destruct (quiet r) eqn:Hq.
    + (* a task update that is not final *)
      assert (Hev : ∃ ev, r = SuccessResponse ev ∧ (∀ m, ev ≠ EvMessage m)
                          ∧ is_final ev = false ∧ update_of r = Some ev).
      { destruct r as [e|[m|t|u|u]]; try discriminate; eexists;
          (split_and!; [reflexivity | intros m; discriminate | | reflexivity]);
          try reflexivity.
        simpl in Hq. now apply negb_true_iff in Hq. }
      destruct Hev as (ev & -> & Hnm & Hnf & Hup).
      rewrite stream_loop_update by assumption. cbv zeta. rewrite Hnf.
      cbn [taken]. rewrite Hq.
      destruct (IH (deliver_to_callback cb c ev task log).1 (S n)
                   (deliver_to_callback cb c ev task log).2) as (H1 & H2 & H3).
      cbv zeta in H1, H2, H3. rewrite H1, H2, H3. clear H1 H2 H3.
      assert (Hu : updates (SuccessResponse ev :: taken stream)
                   = ev :: updates (taken stream)).
      { unfold updates. cbn [omap list_omap]. now rewrite Hup. }
      rewrite Hu, task_after_cons. split_and!; [simpl; lia | |].
      * unfold deliver_to_callback. destruct cb; simpl; [|reflexivity].
        now rewrite <- app_assoc.
      * rewrite reply_after_quiet by assumption.
        destruct (taken stream) as [|r' l] eqn:Ht; [|reflexivity].
        reflexivity.
    + (* an error, a message, or a final update: the last element taken *)
      cbn [taken]. rewrite Hq. destruct r as [e|ev].
      * simpl. split_and!; [lia | | reflexivity]. destruct cb; now rewrite app_nil_r.
      * destruct ev as [m|t|u|u]; try discriminate.
        -- simpl. split_and!; [lia | | reflexivity].
           destruct cb; now rewrite app_nil_r.
        -- rewrite stream_loop_update by (intros m; discriminate). cbv zeta.
           simpl in Hq. apply negb_false_iff in Hq. cbn [is_final]. rewrite Hq.
           unfold deliver_to_callback, task_after, updates. simpl.
           split_and!; [lia | | now destruct cb].
           destruct cb; simpl; now rewrite ?app_nil_r.
Qed.

Lemma taken_updates (stream : list response) :
  Forall is_update stream →
  reply_after (last (taken stream)) None = ReplyNone.
Proof.
  intros Hall.
  assert (H : Forall is_update (taken stream)).
  { induction Hall as [|r l Hr _ IH]; [constructor|]. simpl.
    destruct (quiet r); constructor; (assumption || constructor). }
  destruct (last (taken stream)) as [r|] eqn:Hl; [|reflexivity].
  apply last_Some in Hl as [l' Hl]. rewrite Hl in H.
  apply Forall_app in H as [_ H]. apply Forall_cons in H as [[ev Hr] _].
  destruct r as [e|[m|t|u|u]]; try discriminate; reflexivity.
Qed.

End Client.

(** In streaming mode the client takes the stream up to and including the
    first element that is an error response, a message or an update marked
    final, and no element after it.  The callback, when there is one, sees
    exactly the task updates among the elements taken, in order, each
    once.  The call returns the error or the message when the last element
    taken is one, and otherwise what the callback returned for the last
    update ([None] without a callback or without an update). *)
Theorem streaming_call_takes_a_prefix
        (conn : RemoteAgentConnections) (request : MessageSendParams)
        (cb : option TaskUpdateCallback) :
  streaming (card conn) = true →
  let stream := send_message_streaming (agent_client conn) request in
  let r := client_send_message conn request cb in
  consumed r = length (taken stream)
  ∧ delivered r = match cb with Some _ => updates (taken stream) | None => [] end
  ∧ returned r = reply_after (last (taken stream))
                             (task_after cb (card conn) None (updates (taken stream))).
Proof.
  intros Hs stream r. subst stream r. unfold client_send_message. rewrite Hs.
  destruct (stream_loop_taken cb (card conn)
              (send_message_streaming (agent_client conn) request) None 0%nat [])
    as (H1 & H2 & H3).
  cbv zeta in H1, H2, H3. now split_and!.
Qed.

Lemma client_returns_none (conn : RemoteAgentConnections) (request : MessageSendParams) :
  streaming (card conn) = true →
  Forall is_update (send_message_streaming (agent_client conn) request) →
  returned (client_send_message conn request None) = ReplyNone.
Proof.
  intros Hs Hup. unfold client_send_message. rewrite Hs.
  destruct (stream_loop_taken None (card conn)
              (send_message_streaming (agent_client conn) request) None 0%nat [])
    as (_ & _ & H3).
  cbv zeta in H3. rewrite H3. unfold task_after. now apply taken_updates.
Qed.

Section Coordinator.
Variable b64decode : string → option string.
Variable uuid4 : nat → string.

(** A host that was given no task callback cannot use a streaming worker
    that answers with task updates: the client returns [None], and the
    coordinator raises [AttributeError] on [task.status], with the worker
    name stored in the session and nothing else of it changed. *)
Theorem streaming_without_callback_raises
        (self : HostAgent) (agent_name text : string) (ctx : ToolContext)
        (conn : RemoteAgentConnections) :
  remote_agent_connections self !! agent_name = Some conn →
  streaming (card conn) = true → task_callback self = None →
  (∀ request, Forall is_update (send_message_streaming (agent_client conn) request)) →
  let out := send_message b64decode uuid4 self agent_name text ctx in
  out.2 = Raise (AttributeError "'NoneType' object has no attribute 'status'")
  ∧ tc_state out.1
    = mkSession (Some agent_name) (task_id (tc_state ctx)) (context_id (tc_state ctx))
                (message_id (tc_state ctx)) (session_active (tc_state ctx))
  ∧ actions out.1 = actions ctx ∧ saved_artifacts out.1 = saved_artifacts ctx.
Proof.
  intros Hconn Hs Hcb Hup out. subst out. unfold send_message. rewrite Hconn, Hcb.
  rewrite client_returns_none by (assumption || apply Hup).
  simpl. now split_and!.
Qed.

Lemma convert_part_context (p : Part) (ctx ctx' : ToolContext) (v : converted) :
  convert_part b64decode p ctx = (ctx', Ok v) →
  if is_file_part p
  then ∃ fid blob, ctx' = pause_turn (save_artifact fid blob ctx)
  else ctx' = ctx.
Proof.
  unfold convert_part, is_file_part.
  destruct (String.eqb (root_kind (root p)) "text") eqn:Ht.
  { apply String.eqb_eq in Ht. rewrite Ht. simpl. now intros [= <- _]. }
  destruct (String.eqb (root_kind (root p)) "data") eqn:Hd.
  { apply String.eqb_eq in Hd. rewrite Hd. simpl. now intros [= <- _]. }
  destruct (String.eqb (root_kind (root p)) "file") eqn:Hf.
  - destruct (root_file (root p)) as [f| |]; [|discriminate..].
    destruct (b64decode (bytes f)) as [bs|]; [|discriminate].
    intros [= <- _]. eauto.
  - now intros [= <- _].
Qed.


(** [send_message] refuses a worker that is not registered with a
    [ValueError] and leaves the context as it is; for a registered worker
    it stores the worker name in the session on every path, and never
    touches the message id; and when the worker answers with a message,
    the task id, the context id and the activity flag of the session stay
    as they were. *)
Theorem send_message_names_the_worker
        (self : HostAgent) (agent_name text : string) (ctx : ToolContext) :
  let out := send_message b64decode uuid4 self agent_name text ctx in
  (remote_agent_connections self !! agent_name = None →
   out = (ctx, Raise (ValueError ("Agent " +:+ agent_name +:+ " not found"))))
  ∧ (∀ conn, remote_agent_connections self !! agent_name = Some conn →
       agent (tc_state out.1) = Some agent_name
       ∧ message_id (tc_state out.1) = message_id (tc_state ctx)
       ∧ ∀ m, (∀ request, returned (client_send_message conn request (task_callback self))
                          = ReplyMessage m) →
              task_id (tc_state out.1) = task_id (tc_state ctx)
              ∧ context_id (tc_state out.1) = context_id (tc_state ctx)
              ∧ session_active (tc_state out.1) = session_active (tc_state ctx)).
Proof.
  intros out. subst out. unfold send_message. split.
  - now intros ->.
  - intros conn ->.
    match goal with
    | |- context [client_send_message conn ?req ?cb] =>
        destruct (returned (client_send_message conn req cb)) as [e|m0|task|] eqn:Hr
    end.
    + simpl. split_and!; [reflexivity..|]. intros m Hm. rewrite Hm in Hr. discriminate.
    + match goal with
      | |- context [convert_parts ?b ?ps ?c] =>
          destruct (convert_parts_frame b ps c) as [-> _]
      end.
      simpl. now split_and!.
    + assert (Hframe : ∀ c0, tc_state c0 = record_task task
                 (mkSession (Some agent_name) (task_id (tc_state ctx))
                    (context_id (tc_state ctx)) (message_id (tc_state ctx))
                    (session_active (tc_state ctx))) →
               agent (tc_state c0) = Some agent_name
               ∧ message_id (tc_state c0) = message_id (tc_state ctx)).
      { intros c0 ->. now split. }
      assert (Hno : ∀ m, (∀ request, returned (client_send_message conn request
                                               (task_callback self)) = ReplyMessage m) →
                         False).
      { intros m Hm. rewrite Hm in Hr. discriminate. }
      destruct (state (status task));
        try match goal with
            | |- context [collect_outputs ?b ?t ?c] =>
                destruct (collect_outputs_frame b t c) as [Hst _];
                destruct (Hframe (collect_outputs b t c).1) as [H1 H2];
                [now rewrite Hst|]
            end;
        try (destruct (Hframe (set_state (record_task task
                 (mkSession (Some agent_name) (task_id (tc_state ctx))
                    (context_id (tc_state ctx)) (message_id (tc_state ctx))
                    (session_active (tc_state ctx)))) (set_state
                 (mkSession (Some agent_name) (task_id (tc_state ctx))
                    (context_id (tc_state ctx)) (message_id (tc_state ctx))
                    (session_active (tc_state ctx))) ctx))) as [H1 H2];
             [reflexivity|]);
        (split_and!; [exact H1 | exact H2 | intros m Hm; now destruct (Hno m)]).
    + simpl. split_and!; [reflexivity..|]. intros m Hm. rewrite Hm in Hr. discriminate.
Qed.

Lemma send_message_task_state
      (self : HostAgent) (agent_name text : string) (ctx : ToolContext)
      (conn : RemoteAgentConnections) (task : Task) :
  remote_agent_connections self !! agent_name = Some conn →
  (∀ request,
     returned (client_send_message conn request (task_callback self)) = ReplyTask task) →
  tc_state (send_message b64decode uuid4 self agent_name text ctx).1
  = record_task task
      (mkSession (Some agent_name) (task_id (tc_state ctx)) (context_id (tc_state ctx))
                 (message_id (tc_state ctx)) (session_active (tc_state ctx))).
Proof.
  intros Hconn Hr. unfold send_message. rewrite Hconn, Hr.
  destruct (state (status task));
    try match goal with
        | |- context [collect_outputs ?b ?t ?c] =>
            destruct (collect_outputs_frame b t c) as [-> _]
        end;
    reflexivity.
Qed.

(** The worker the instruction names as current, after a call: none when
    the worker answered with an error or with a task in one of the four
    terminal states; the worker addressed when the task is in another
    state and the session has a context id (that of the task, or the one
    it had).  And once [before_model_callback] ran, the worker stored in
    the session is named whenever the session has a context id, whatever
    the outcome of the call was. *)
Theorem current_agent_after_call
        (self : HostAgent) (agent_name text : string) (ctx : ToolContext)
        (conn : RemoteAgentConnections) :
  remote_agent_connections self !! agent_name = Some conn →
  let out := send_message b64decode uuid4 self agent_name text ctx in
  (∀ e, (∀ request, returned (client_send_message conn request (task_callback self))
                    = ReplyError e) →
        check_state (tc_state out.1) = "None")
  ∧ (∀ task, (∀ request, returned (client_send_message conn request (task_callback self))
                         = ReplyTask task) →
       check_state (tc_state out.1)
       = if terminal (state (status task)) then "None"
         else if truthy (contextId task)
                 || bool_decide (is_Some (context_id (tc_state ctx)))
              then agent_name else "None")
  ∧ ∀ st, check_state (before_model_callback st)
          = if bool_decide (is_Some (context_id st)) && bool_decide (is_Some (agent st))
            then default "" (agent st) else "None".
Proof.
  intros Hconn out. subst out. split_and!.
  - intros e He. unfold send_message. rewrite Hconn, He. simpl.
    unfold check_state. simpl. now rewrite !andb_false_r.
  - intros task Ht. rewrite (send_message_task_state _ _ _ _ _ _ Hconn Ht).
    unfold check_state, record_task, session_stays_active, terminal. simpl.
    destruct (state (status task)); simpl;
      destruct (truthy (contextId task)); simpl;
      try reflexivity;
      destruct (context_id (tc_state ctx)); reflexivity.
  - intros st. unfold check_state, before_model_callback.
    destruct st as [ag ti ci mi [[]|]]; simpl;
      destruct ci; simpl; try reflexivity; destruct ag; reflexivity.
Qed.

End Coordinator.

(** ** The properties on sample calls *)

Lemma streaming_call_takes_a_prefix_witness :
  let conn := streaming_worker [still_working; finished; still_working] in
  let r := client_send_message conn a_request (Some keep_task) in
  consumed r = 2%nat ∧ length (delivered r) = 2%nat ∧ returned r = ReplyTask late_task.
Proof.
  intros conn r.
  destruct (streaming_call_takes_a_prefix conn a_request (Some keep_task) eq_refl)
    as (H1 & H2 & H3).
  cbv zeta in H1, H2, H3. subst r. rewrite H1, H2, H3. now split_and!.
Defined.

Lemma streaming_without_callback_raises_witness :
  let conn := streaming_worker [still_working; finished] in
  (send_message no_base64 uuids (host_without_callback conn) "describer" "describe"
                second_turn).2
  = Raise (AttributeError "'NoneType' object has no attribute 'status'").
Proof.
  intros conn.
  apply (streaming_without_callback_raises no_base64 uuids (host_without_callback conn)
           "describer" "describe" second_turn conn);
    [reflexivity | reflexivity | reflexivity |].
  intros request. repeat constructor; eexists; reflexivity.
Defined.


Lemma send_message_names_the_worker_witness :
  send_message no_base64 uuids (host (unary_worker (UnaryMessage answer)))
               "tester" "run the tests" second_turn
  = (second_turn, Raise (ValueError "Agent tester not found")).
Proof.
  apply (send_message_names_the_worker no_base64 uuids
           (host (unary_worker (UnaryMessage answer))) "tester" "run the tests"
           second_turn).
  reflexivity.
Defined.

Lemma current_agent_after_call_witness :
  let done := send_message no_base64 uuids (host (unary_worker (UnaryTask late_task)))
                           "describer" "describe" second_turn in
  let busy := send_message no_base64 uuids (host (unary_worker (UnaryTask working_task)))
                           "describer" "describe" second_turn in
  check_state (tc_state done.1) = "None"
  ∧ check_state (tc_state busy.1) = "describer"
  ∧ check_state (before_model_callback (tc_state done.1)) = "describer".
Proof.
  intros done busy. subst done busy. split_and!.
  - rewrite (proj1 (proj2 (current_agent_after_call no_base64 uuids
               (host (unary_worker (UnaryTask late_task))) "describer" "describe"
               second_turn _ eq_refl)) late_task) by reflexivity.
    reflexivity.
  - rewrite (proj1 (proj2 (current_agent_after_call no_base64 uuids
               (host (unary_worker (UnaryTask working_task))) "describer" "describe"
               second_turn _ eq_refl)) working_task) by reflexivity.
    reflexivity.
  - reflexivity.
Defined.

End DelegatorFacts.

(* ===================================================================== *)
(** * Properties of the process supervisor *)
(* ===================================================================== *)

Module SupervisorFacts.
Import Supervisor.

Lemma pid_deliver (sig : signal) (p : Process) : pid (deliver sig p) = pid p.
Proof. unfold deliver. now destruct (alive p && negb (ignores sig p)). Qed.

Lemma map_pid_deliver (sig : signal) (procs : list Process) :
  map pid (map (deliver sig) procs) = map pid procs.
Proof.
  induction procs as [|q procs IH]; simpl; [reflexivity|].
  now rewrite pid_deliver, IH.
Qed.

Lemma deliver_stubborn (sig : signal) (p : Process) :
  stubborn p → sig ≠ SIGKILL → deliver sig p = p.
Proof.
  intros (_ & Hi & Ht) Hsig. unfold deliver.
  destruct sig; simpl; rewrite ?Hi, ?Ht, ?andb_false_r; congruence.
Qed.

Lemma deliver_kill_dead (p : Process) : alive (deliver SIGKILL p) = false.
Proof.
  unfold deliver. simpl. rewrite andb_true_r.
  destruct (alive p) eqn:H; [reflexivity | exact H].
Qed.

Lemma pass_to_absent (n : nat) (sig : signal) (now : Z) (l : list Process) :
  n ∉ map pid l → pass_to n sig now l = [].
Proof.
  unfold pass_to, signals_to.
  induction l as [|q l IH]; intros Hn; simpl; [reflexivity|].
  simpl in Hn. apply not_elem_of_cons in Hn as [Hq Hn].
  destruct (alive q); simpl; [|now apply IH].
  destruct (Nat.eqb_spec (pid q) n) as [Heq|_]; [congruence|]. now apply IH.
Qed.

Lemma pass_to_alive (p : Process) (sig : signal) (now : Z) (l : list Process) :
  NoDup (map pid l) → p ∈ l → alive p = true →
  pass_to (pid p) sig now l = [(now, sig)].
Proof.
  induction l as [|q l IH]; intros Hnd Hin Hp; [now apply elem_of_nil in Hin|].
  simpl in Hnd. apply NoDup_cons in Hnd as [Hq Hnd].
  apply elem_of_cons in Hin as [<-|Hin].
  - unfold pass_to, signals_to. simpl. rewrite Hp. simpl. rewrite Nat.eqb_refl. simpl.
    f_equal. now apply (pass_to_absent (pid p) sig now l).
  - assert (Hne : pid q ≠ pid p).
    { intros Heq. apply Hq. rewrite Heq. apply list_elem_of_In, in_map.
      now apply list_elem_of_In. }
    unfold pass_to, signals_to in *. simpl.
    destruct (alive q); simpl; [|now apply IH].
    destruct (Nat.eqb_spec (pid q) (pid p)) as [Heq|_]; [congruence|]. now apply IH.
Qed.

Lemma pass_to_dead (n : nat) (sig : signal) (now : Z) (l : list Process) :
  Forall (λ p, alive p = false) l → pass_to n sig now l = [].
Proof.
  unfold pass_to, signals_to.
  induction 1 as [|q l Hq _ IH]; simpl; [reflexivity|]. now rewrite Hq.
Qed.

Lemma signal_all_to (n : nat) (sig : signal) (now : Z) (procs : list Process) :
  signals_to n (signal_all sig now procs).2 = pass_to n sig now (rev procs).
Proof. reflexivity. Qed.

Lemma signals_to_app (n : nat) (t1 t2 : list sent) :
  signals_to n (t1 ++ t2) = signals_to n t1 ++ signals_to n t2.
Proof. unfold signals_to. now rewrite List.filter_app, map_app. Qed.

Lemma wait_all_alive (timeout : Z) (p : Process) (procs : list Process) :
  p ∈ procs → alive p = true → wait_all timeout procs = timeout.
Proof.
  intros Hin Hp. unfold wait_all.
  destruct (forallb _ procs) eqn:Hall; [|reflexivity].
  rewrite forallb_forall in Hall.
  apply list_elem_of_In, Hall in Hin. rewrite Hp in Hin. discriminate.
Qed.



(** With [--grace-int 1 --grace-term 1] the kill comes 14 seconds after the
    stop request, not within 2 seconds and a margin of half a second. *)
Lemma short_grace_not_honoured :
  ¬ kill_respects_grace (mkArgs 1000 1000) 500
      (signals_to 4242 (shutdown (mkArgs 1000 1000) false [worker; daemon]).1.2).
Proof.
  intros H. specialize (H 14000). simpl in H.
  assert (Hin : (14000, SIGKILL) ∈ [(0, SIGINT); (8000, SIGTERM); (14000, SIGKILL)])
    by (rewrite !elem_of_cons; tauto).
  specialize (H Hin). lia.
Qed.

(** With [--grace-int 20] the kill comes 14 seconds after the stop request,
    before the interrupt window of 20 seconds is over. *)
Lemma long_grace_cut_short :
  ¬ kill_respects_grace (mkArgs 20000 6000) 500
      (signals_to 4242 (shutdown (mkArgs 20000 6000) false [worker; daemon]).1.2).
Proof.
  intros H. specialize (H 14000). simpl in H.
  assert (Hin : (14000, SIGKILL) ∈ [(0, SIGINT); (8000, SIGTERM); (14000, SIGKILL)])
    by (rewrite !elem_of_cons; tauto).
  specialize (H Hin). lia.
Qed.


(** * The rest of the stack launcher *)

Import Py.

Lemma alive_deliver (sig : signal) (p : Process) :
  alive p = false → deliver sig p = p.
Proof. intros H. unfold deliver. now rewrite H. Qed.

Lemma deliver_dead_stays (sig : signal) (p : Process) :
  alive p = false → alive (deliver sig p) = false.
Proof. intros H. now rewrite alive_deliver. Qed.

Lemma deliver_cooperative (p : Process) :
  cooperative p → alive (deliver SIGINT p) = false.
Proof.
  intros [Hr Hi]. unfold deliver, alive. rewrite Hr. simpl. now rewrite Hi.
Qed.

(** No signal of a pass goes to the group [n] when the processes with
    that pid have exited. *)
Lemma pass_to_exited (n : nat) (sig : signal) (now : Z) (l : list Process) :
  (∀ q, q ∈ l → pid q = n → alive q = false) → pass_to n sig now l = [].
Proof.
  unfold pass_to, signals_to.
  induction l as [|q l IH]; intros H; simpl; [reflexivity|].
  assert (IH' : map (λ x, (at_ms x, sig_sent x))
                    (List.filter (λ x, Nat.eqb (target x) n)
                       (map (λ p, mkSent now sig (pid p)) (List.filter alive l))) = []).
  { apply IH. intros q' Hq'. apply H. now right. }
  destruct (alive q) eqn:Hq; simpl; [|exact IH'].
  destruct (Nat.eqb_spec (pid q) n) as [Heq|_]; [|exact IH'].
  rewrite (H q) in Hq by (assumption || now left). discriminate.
Qed.

Lemma wait_all_bounds (timeout : Z) (procs : list Process) :
  0 <= timeout → 0 <= wait_all timeout procs <= timeout.
Proof. intros H. unfold wait_all. destruct (forallb _ procs); lia. Qed.

Lemma wait_all_exited (timeout : Z) (procs : list Process) :
  Forall (λ p, alive p = false) procs → wait_all timeout procs = 0.
Proof.
  intros H. unfold wait_all.
  replace (forallb (λ p, negb (alive p)) procs) with true; [reflexivity|].
  symmetry. apply forallb_forall. intros p Hp.
  rewrite Forall_forall in H. rewrite (H p); [reflexivity|]. now apply list_elem_of_In.
Qed.

Lemma kill_all_exited (procs : list Process) :
  Forall (λ p, alive p = false) (map (deliver SIGKILL) procs).
Proof.
  apply Forall_forall. intros q Hq. apply list_elem_of_fmap in Hq as (q0 & -> & _).
  apply deliver_kill_dead.
Qed.


(** A process that exits when it is interrupted receives the interrupt
    at the stop request and no other signal; a process that had exited
    before receives none. *)
Theorem cooperative_process_only_interrupted
        (args : Args) (procs : list Process) (p : Process) :
  NoDup (map pid procs) → p ∈ procs →
  (cooperative p →
   signals_to (pid p) (shutdown args false procs).1.2 = [(0, SIGINT)])
  ∧ (alive p = false → ∀ force,
     signals_to (pid p) (shutdown args force procs).1.2 = []).
Proof.
  intros Hnd Hin.
  assert (Hrev : ∀ l, p ∈ l → p ∈ rev l).
  { intros l Hl. apply list_elem_of_In, (proj1 (in_rev l p)).
    now apply list_elem_of_In. }
  assert (Hndrev : NoDup (map pid (rev procs))).
  { now rewrite map_rev, <- Permutation_rev. }
  (* the processes with the pid of [p], after a pass over [procs] *)
  assert (Hsame : ∀ q, q ∈ procs → pid q = pid p → q = p).
  { intros q Hq Heq. clear -Hnd Hin Hq Heq.
    induction procs as [|x l IH]; [now apply elem_of_nil in Hq|].
    simpl in Hnd. apply NoDup_cons in Hnd as [Hx Hnd].
    apply elem_of_cons in Hq as [->|Hq]; apply elem_of_cons in Hin as [->|Hin].
    - reflexivity.
    - exfalso. apply Hx. rewrite Heq. apply list_elem_of_fmap. now exists p.
    - exfalso. apply Hx. rewrite <- Heq. apply list_elem_of_fmap. now exists q.
    - now apply IH. }
  assert (Hexit : ∀ (f : Process → Process) l,
             (∀ q, pid (f q) = pid q) → alive (f p) = false → 
             (∀ x, x ∈ l → x ∈ procs) →
             ∀ q, q ∈ rev (map f l) → pid q = pid p → alive q = false).
  { intros f l Hpid Hdead Hsub q Hq Heq.
    apply list_elem_of_In, (proj2 (in_rev _ q)), in_map_iff in Hq as (q0 & <- & Hq0).
    rewrite Hpid in Heq. apply list_elem_of_In, Hsub in Hq0.
    now rewrite (Hsame q0 Hq0 Heq). }
  split.
  - intros Hco.
    assert (Halive : alive p = true) by (unfold alive; now rewrite (proj1 Hco)).
    pose proof (deliver_cooperative p Hco) as Hd1.
    unfold shutdown, graceful_terminate, signal_all. cbn [fst snd].
    rewrite !signals_to_app.
    fold (pass_to (pid p) SIGINT 0 (rev procs)).
    match goal with
    | |- context [signals_to (pid p) (map (λ q, mkSent ?t SIGTERM (pid q))
                                        (List.filter alive ?l))] =>
        fold (pass_to (pid p) SIGTERM t l)
    end.
    repeat match goal with
    | |- context [signals_to (pid p) (map (λ q, mkSent ?t SIGKILL (pid q))
                                        (List.filter alive ?l))] =>
        fold (pass_to (pid p) SIGKILL t l)
    end.
    rewrite (pass_to_alive p SIGINT 0 (rev procs)) by auto.
    rewrite (pass_to_exited (pid p) SIGTERM).
    2:{ apply (Hexit (deliver SIGINT) procs); auto using pid_deliver. }
    rewrite (pass_to_exited (pid p) SIGKILL).
    2:{ rewrite map_map.
        apply (Hexit (λ x, deliver SIGTERM (deliver SIGINT x)) procs); auto.
        - intros q. now rewrite !pid_deliver.
        - now apply deliver_dead_stays. }
    rewrite (pass_to_exited (pid p) SIGKILL); [reflexivity|].
    rewrite !map_map.
    apply (Hexit (λ x, deliver SIGKILL (deliver SIGTERM (deliver SIGINT x))) procs); auto.
    + intros q. now rewrite !pid_deliver.
    + apply deliver_kill_dead.
  - intros Hdead force.
    assert (Hid : ∀ x, x ∈ procs → x ∈ procs) by auto.
    unfold shutdown, graceful_terminate, signal_all.
    destruct force; cbn [fst snd]; rewrite !signals_to_app;
      repeat match goal with
      | |- context [signals_to (pid p) (map (λ q, mkSent ?t ?sg (pid q))
                                          (List.filter alive ?l))] =>
          fold (pass_to (pid p) sg t l)
      end.
    + rewrite (pass_to_exited (pid p) SIGKILL 0 (rev procs)).
      2:{ intros q Hq Heq.
          apply list_elem_of_In, (proj2 (in_rev _ q)), list_elem_of_In in Hq.
          now rewrite (Hsame q Hq Heq). }
      rewrite (pass_to_exited (pid p) SIGKILL); [reflexivity|].
      apply (Hexit (deliver SIGKILL) procs); auto using pid_deliver.
      apply deliver_kill_dead.
    + rewrite (pass_to_exited (pid p) SIGINT 0 (rev procs)).
      2:{ intros q Hq Heq.
          apply list_elem_of_In, (proj2 (in_rev _ q)), list_elem_of_In in Hq.
          now rewrite (Hsame q Hq Heq). }
      rewrite (pass_to_exited (pid p) SIGTERM).
      2:{ apply (Hexit (deliver SIGINT) procs); auto using pid_deliver.
          now apply deliver_dead_stays. }
      rewrite (pass_to_exited (pid p) SIGKILL).
      2:{ rewrite map_map.
          apply (Hexit (λ x, deliver SIGTERM (deliver SIGINT x)) procs); auto.
          - intros q. now rewrite !pid_deliver.
          - now do 2 apply deliver_dead_stays. }
      rewrite (pass_to_exited (pid p) SIGKILL); [reflexivity|].
      rewrite !map_map.
      apply (Hexit (λ x, deliver SIGKILL (deliver SIGTERM (deliver SIGINT x))) procs);
        auto.
      * intros q. now rewrite !pid_deliver.
      * apply deliver_kill_dead.
Qed.

Lemma filter_alive_exited (l : list Process) :
  Forall (λ p, alive p = false) l → List.filter alive l = [].
Proof. induction 1 as [|q l Hq _ IH]; simpl; [reflexivity|]. now rewrite Hq. Qed.

Lemma Forall_rev_exited (l : list Process) :
  Forall (λ p, alive p = false) l → Forall (λ p, alive p = false) (rev l).
Proof.
  intros H. apply Forall_forall. intros q Hq. rewrite Forall_forall in H.
  apply H. apply list_elem_of_In, (proj2 (in_rev _ q)), list_elem_of_In in Hq. exact Hq.
Qed.

(** When every process has exited or exits on interrupt, the shutdown
    returns at once: it sends interrupts at the stop request and nothing
    else, and waits for neither grace window. *)
Theorem cooperative_fleet_stops_at_once (args : Args) (procs : list Process) :
  Forall (λ p, alive p = false ∨ ignores_int p = false) procs →
  (shutdown args false procs).2 = 0
  ∧ Forall (λ x, sig_sent x = SIGINT ∧ at_ms x = 0) (shutdown args false procs).1.2.
Proof.
  intros Hall.
  assert (H1 : Forall (λ p, alive p = false) (map (deliver SIGINT) procs)).
  { apply Forall_forall. intros q Hq. apply list_elem_of_fmap in Hq as (q0 & -> & Hq0).
    rewrite Forall_forall in Hall. destruct (Hall q0 Hq0) as [Hd|Hi].
    - now apply deliver_dead_stays.
    - unfold deliver. simpl. rewrite Hi. simpl. rewrite andb_true_r.
      destruct (alive q0) eqn:Ha; [reflexivity | exact Ha]. }
  assert (H2 : Forall (λ p, alive p = false)
                      (map (deliver SIGTERM) (map (deliver SIGINT) procs))).
  { apply Forall_forall. intros q Hq. apply list_elem_of_fmap in Hq as (q0 & -> & Hq0).
    rewrite Forall_forall in H1. now apply deliver_dead_stays, H1. }
  unfold shutdown, graceful_terminate, signal_all. cbn [fst snd].
  rewrite (wait_all_exited 8000) by assumption.
  rewrite (wait_all_exited 6000) by assumption.
  split; [reflexivity|].
  rewrite (filter_alive_exited (rev (map (deliver SIGINT) procs)))
    by now apply Forall_rev_exited.
  rewrite (filter_alive_exited (rev (map (deliver SIGTERM) _)))
    by now apply Forall_rev_exited.
  rewrite (filter_alive_exited (rev (map (deliver SIGKILL) _)))
    by (apply Forall_rev_exited, kill_all_exited).
  simpl. rewrite !app_nil_r.
  apply Forall_forall. intros x Hx. apply list_elem_of_fmap in Hx as (q & -> & _).
  now split.
Qed.

(** ** The launch plan *)

(** [build_plan] returns a plan, or leaves with one of three codes.  A
    plan is never empty; it holds the enabled components of the core, in
    the order app, mcp, orchestrator, dashboard, and after them one entry
    for each worker asked for, in the order asked; and every worker in it
    was detected.  It leaves with 0 exactly when the list of workers was
    asked for; with 2 when a worker named with [-w] was not detected and
    [--all-workers] was not given; with 1 when there is nothing to run. *)
Theorem build_plan_outcomes (workers_available : list string) (args : PlanArgs) :
  match build_plan workers_available args with
  | Done plan =>
      list_workers args = false ∧ plan ≠ []
      ∧ plan = core_plan args ++ map worker_entry (requested workers_available args)
      ∧ Forall (λ w, w ∈ workers_available) (requested workers_available args)
  | SystemExit code =>
      (code = 0 ∧ list_workers args = true)
      ∨ (code = 2 ∧ list_workers args = false ∧ all_workers args = false
         ∧ ∃ w, w ∈ default [] (workers args) ∧ w ∉ workers_available)
      ∨ (code = 1 ∧ list_workers args = false ∧ core_plan args = []
         ∧ requested workers_available args = [])
  end.
Proof.
  unfold build_plan, requested.
  destruct (list_workers args); [now left|].
  destruct (all_workers args).
  - destruct (core_plan args ++ map worker_entry workers_available) as [|e l] eqn:Hp.
    + right. right. apply app_eq_nil in Hp as [Hc Hw].
      split_and!; [reflexivity.. | assumption |]. now apply map_eq_nil in Hw.
    + split_and!; [reflexivity | discriminate | reflexivity |].
      apply Forall_forall. auto.
  - destruct (workers args) as [[|w ws]|]; simpl default.
    + destruct (core_plan args ++ map worker_entry []) as [|e l] eqn:Hp.
      * right. right. apply app_eq_nil in Hp as [Hc _]. now split_and!.
      * split_and!; [reflexivity | discriminate | reflexivity | constructor].
    + destruct (filter (λ w0, w0 ∉ workers_available) (w :: ws)) as [|u us] eqn:Hf.
      * destruct (core_plan args ++ map worker_entry (w :: ws)) as [|e l] eqn:Hp.
        -- apply app_eq_nil in Hp as [_ Hw]. discriminate.
        -- split_and!; [reflexivity | discriminate | reflexivity |].
           apply Forall_forall. intros x Hx.
           destruct (decide (x ∈ workers_available)) as [Hin|Hout]; [exact Hin|].
           assert (Hxf : x ∈ filter (λ w0, w0 ∉ workers_available) (w :: ws))
             by (apply list_elem_of_filter; now split).
           rewrite Hf in Hxf. now apply elem_of_nil in Hxf.
      * right. left. split_and!; [reflexivity..|].
        assert (Hu : u ∈ filter (λ w0, w0 ∉ workers_available) (w :: ws))
          by (rewrite Hf; now left).
        apply list_elem_of_filter in Hu as [Hout Hin]. now exists u.
    + destruct (core_plan args ++ map worker_entry []) as [|e l] eqn:Hp.
      * right. right. apply app_eq_nil in Hp as [Hc _]. now split_and!.
      * split_and!; [reflexivity | discriminate | reflexivity | constructor].
Qed.

(** ** The stop requests *)

Lemma react_stop (ev : Events) (i : input) :
  stop_event (react ev i) = stop_event ev || stops i.
Proof.
  destruct ev as [[] []], i as [[]|text]; simpl; try reflexivity;
    destruct (quits text); reflexivity.
Qed.

Lemma react_force (ev : Events) (i : input) :
  force_kill_event (react ev i)
  = force_kill_event ev || (stop_event ev && is_interrupt i).
Proof.
  destruct ev as [[] []], i as [[]|text]; simpl; try reflexivity;
    destruct (quits text); reflexivity.
Qed.

Lemma fold_react (inputs : list input) :
  ∀ ev,
    stop_event (fold_left react inputs ev) = stop_event ev || existsb stops inputs
    ∧ force_kill_event (fold_left react inputs ev)
      = force_kill_event ev || forced (stop_event ev) inputs.
Proof.
  induction inputs as [|i inputs IH]; intros ev; simpl.
  - now rewrite !orb_false_r.
  - destruct (IH (react ev i)) as [-> ->].
    rewrite react_stop, react_force. split; now rewrite orb_assoc.
Qed.

Lemma forced_spec (inputs : list input) :
  ∀ stopped,
    forced stopped inputs = true
    ↔ (stopped = true ∧ Signal SIGINT ∈ inputs)
      ∨ ∃ pre post, inputs = pre ++ Signal SIGINT :: post ∧ existsb stops pre = true.
Proof.
  induction inputs as [|i inputs IH]; intros stopped; simpl.
  - split; [discriminate|].
    intros [[_ H]|(pre & post & H & _)]; [now apply elem_of_nil in H | now destruct pre].
  - assert (Hint : is_interrupt i = true ↔ i = Signal SIGINT).
    { destruct i as [[]|text]; simpl; split; congruence. }
    rewrite orb_true_iff, andb_true_iff, Hint, IH. clear IH Hint. split.
    + intros [[Hs ->]|[[Hs Hin]|(pre & post & -> & Hpre)]].
      * left. split; [exact Hs | now left].
      * apply orb_true_iff in Hs as [Hs|Hs].
        -- left. split; [exact Hs | now right].
        -- right. apply list_elem_of_split in Hin as (pre & post & ->).
           exists (i :: pre), post. split; [reflexivity|]. simpl. now rewrite Hs.
      * right. exists (i :: pre), post. split; [reflexivity|].
        simpl. now rewrite Hpre, orb_true_r.
    + intros [[Hs Hin]|(pre & post & Heq & Hpre)].
      * apply elem_of_cons in Hin as [<-|Hin]; [now left|].
        right. left. split; [now rewrite Hs | exact Hin].
      * destruct pre as [|j pre]; [discriminate|]. injection Heq as <- ->.
        simpl in Hpre. apply orb_true_iff in Hpre as [Hj|Hpre].
        -- right. left. split; [now rewrite Hj, orb_true_r|].
           apply elem_of_app. right. now left.
        -- right. right. now exists pre, post.
Qed.


(** ** The properties on sample fleets *)

Lemma cooperative_process_only_interrupted_witness :
  signals_to 4243 (shutdown default_args false [worker; daemon]).1.2 = [(0, SIGINT)].
Proof.
  apply (cooperative_process_only_interrupted default_args [worker; daemon] worker).
  - apply (bool_decide_unpack _). vm_compute. exact I.
  - now left.
  - now split.
Defined.

Lemma cooperative_fleet_stops_at_once_witness :
  (shutdown default_args false [worker]).2 = 0.
Proof.
  apply (cooperative_fleet_stops_at_once default_args [worker]).
  constructor; [now right | constructor].
Defined.

Lemma build_plan_outcomes_witness :
  build_plan ["describer"; "spawner"] spawner_only
  = Done [("mcp", ".", MCP_CMD);
          ("orchestrator", "agents/supervisors/orchestrator", ORCH_CMD);
          ("dashboard", "tasks", DASH_CMD);
          ("worker-spawner", "agents/workers/spawner", ["uv"; "run"; "."])].
Proof.
  pose proof (build_plan_outcomes ["describer"; "spawner"] spawner_only) as H.
  destruct (build_plan ["describer"; "spawner"] spawner_only) as [plan|code] eqn:Hb;
    [|vm_compute in Hb; discriminate].
  destruct H as (_ & _ & -> & _). reflexivity.
Defined.

(** ** The URLs of the frontends *)

Lemma endswith_append (s suffix : string) : endswith (s +:+ suffix) suffix = true.
Proof.
  induction s as [|c s IH].
  - destruct suffix; simpl; [reflexivity|]. now rewrite Ascii.eqb_refl, String.eqb_refl.
  - change (String c s +:+ suffix) with (String c (s +:+ suffix)).
    cbn [endswith]. rewrite IH. apply orb_true_r.
Qed.

Lemma with_slash_ends (url : yaml) (s : string) :
  with_slash url = Ok s → endswith s "/" = true.
Proof.
  destruct url as [| | |u| |]; try discriminate. simpl.
  destruct (endswith u "/") eqn:He; intros [= <-]; [exact He|].
  apply endswith_append.
Qed.

Lemma dict_get_nonempty (items : list (string * yaml)) (key : string) :
  dict_get items key ≠ YNull → or_empty (YMap items) = YMap items.
Proof. destruct items; [now intros []|reflexivity]. Qed.



End SupervisorFacts.

(* ===================================================================== *)
(** * Properties of the task dashboard *)
(* ===================================================================== *)

Module DashboardFacts.
Import Py Watcher Dashboard WatcherFacts.

Lemma filter_all {A} (P : A → Prop) `{∀ x, Decision (P x)} (l : list A) :
  Forall P l → filter P l = l.
Proof.
  induction 1 as [|x l Hx _ IH]; [reflexivity|].
  now rewrite filter_cons_True, IH.
Qed.

Lemma filter_none {A} (P : A → Prop) `{∀ x, Decision (P x)} (l : list A) :
  Forall (λ x, ¬ P x) l → filter P l = [].
Proof.
  induction 1 as [|x l Hx _ IH]; [reflexivity|].
  now rewrite filter_cons_False.
Qed.

Section Store.
Variable W : world.

Lemma existing_ids_of_spec (ts : list task) (tid : string) :
  tid ∈ existing_ids_of ts ↔ ∃ t, t ∈ ts ∧ tid_of t = Some tid.
Proof.
  unfold existing_ids_of. rewrite elem_of_list_to_set, list_elem_of_omap. reflexivity.
Qed.

Lemma add_task_parts
      (fuel : nat) (kind urgency : string) (payload_extra : option payload)
      (file file' : list task) (k k' : nat) (t : task) :
  add_task W fuel kind urgency payload_extra file k = Ok (t, file', k') →
  file' = file ++ [t]
  ∧ (∃ tid, tid_of t = Some tid ∧ (tid ∉ existing_ids_of file)
            ∧ ∃ suffix, tid = ("Task-" +:+ suffix))
  ∧ (Watcher.urgency (default empty_payload payload_extra)
     = Some (lower (or_else urgency "medium")) →
     get_priority t = rank (lower (or_else urgency "medium"))).
Proof.
  unfold add_task.
  destruct (generate_task_id W fuel (existing_ids_of file) k) as [[tid k1]| |] eqn:Hg;
    cbn [mbind result_bind bind]; try discriminate.
  intros [= <- <- <-].
  destruct (generate_task_id_shape W _ _ _ _ _ Hg) as (Hnew & suffix & ->).
  split_and!; [reflexivity | |].
  - exists ("Task-" +:+ suffix). split_and!; [reflexivity | exact Hnew | eauto].
  - intros Hu. unfold get_priority, urgency_of, rank. simpl. rewrite Hu. simpl.
    now rewrite lower_idem.
Qed.

(** [add_task] appends one record and leaves the others as they are.  The
    record has an id that no record of the file had, no attempt count,
    and the kind given (or [generic_task]); and when the extra payload has
    no urgency of its own, the watcher ranks the record by the urgency
    given, in any case of letters, and as medium when none is given. *)
Theorem add_task_appends_fresh
        (fuel : nat) (kind urgency : string) (payload_extra : option payload)
        (file file' : list task) (k k' : nat) (t : task) :
  add_task W fuel kind urgency payload_extra file k = Ok (t, file', k') →
  file' = file ++ [t]
  ∧ (∃ tid, tid_of t = Some tid ∧ tid ∉ existing_ids_of file)
  ∧ attempts t = None
  ∧ Watcher.kind t = Some (or_else kind "generic_task")
  ∧ (Watcher.urgency (default empty_payload payload_extra) = None →
     get_priority t = rank (lower (or_else urgency "medium"))).
Proof.
  unfold add_task.
  destruct (generate_task_id W fuel (existing_ids_of file) k) as [[tid k1]| |] eqn:Hg;
    cbn [mbind result_bind bind]; try discriminate.
  intros [= <- <- <-].
  destruct (generate_task_id_shape W _ _ _ _ _ Hg) as (Hnew & suffix & ->).
  split_and!; [reflexivity | | reflexivity | reflexivity |].
  - exists ("Task-" +:+ suffix). split; [reflexivity | exact Hnew].
  - intros Hu. unfold get_priority, urgency_of, rank. simpl. rewrite Hu. simpl.
    now rewrite lower_idem.
Qed.

Lemma enqueue_all_app (ts1 ts2 : list task) (s : wstate) :
  enqueue_all (ts1 ++ ts2) s = enqueue_all ts2 (enqueue_all ts1 s).
Proof. unfold enqueue_all. apply fold_left_app. Qed.

(** A task added through the form of the dashboard is picked up by the
    next poll of a watcher that has seen the rest of the store: the poll
    pushes one entry for it, with the rank of the urgency chosen and the
    next sequence number, draws no id and leaves the store as the
    dashboard wrote it. *)
Theorem added_task_is_enqueued
        (fuel fuel' : nat) (kind urgency description : string)
        (s : wstate) (file' : list task) (k k' : nat) (t : task) (tid : string) :
  Forall (λ x, is_Some (tid_of x)) (TASK_FILE s) →
  (∀ x i, x ∈ TASK_FILE s → tid_of x = Some i → i ∈ seen_ids s) →
  on_add W fuel kind urgency description (TASK_FILE s) k = Ok (t, file', k') →
  task_id t = Some tid → tid ∉ seen_ids s →
  poll W fuel' (save_tasks file' s)
  = Ok (mkState (S (seq s)) ({[tid]} ∪ seen_ids s)
                (heappush (task_queue s)
                   (mkEntry (rank (lower (or_else urgency "medium"))) (seq s)
                            (Some tid) t))
                (idle_state s) file' (COMPLETED_FILE s) (RUNNING_FILE s) (tick s)).
Proof.
  intros Hids Hseen Hadd Htid Hnew. unfold on_add in Hadd.
  destruct (add_task_parts _ _ _ _ _ _ _ _ _ Hadd) as (-> & Ht & Hprio).
  assert (Htid' : tid_of t = Some tid).
  { destruct Ht as (i & Hi & _). pose proof (tid_of_task_id _ _ Hi). congruence. }
  unfold poll, load_tasks. simpl TASK_FILE.
  rewrite assign_ids_noop.
  2:{ apply Forall_app. split; [assumption|]. constructor; [|constructor].
      now rewrite Htid'. }
  cbn [mbind result_bind bind mret result_ret].
  rewrite enqueue_all_app.
  rewrite (enqueue_all_seen (TASK_FILE s))
    by (intros x i Hx Hi; now apply (Hseen x i)).
  unfold enqueue_all. simpl. unfold enqueue. rewrite Htid'. simpl.
  rewrite bool_decide_false by assumption.
  rewrite Hprio by reflexivity. reflexivity.
Qed.

(** Removing the task [add_task] just added puts the file back as it
    was, and reports one record removed: the new id is the id of no other
    record, whether that record has an id, an empty one, or none. *)
Theorem add_then_remove_restores
        (fuel : nat) (kind urgency : string) (payload_extra : option payload)
        (file file' : list task) (k k' : nat) (t : task) (tid : string) :
  add_task W fuel kind urgency payload_extra file k = Ok (t, file', k') →
  task_id t = Some tid →
  remove_tasks [tid] file' = (1, file).
Proof.
  intros Hadd Htid.
  destruct (add_task_parts _ _ _ _ _ _ _ _ _ Hadd) as (-> & (i & Hi & Hnew & sfx & Hsfx) & _).
  pose proof (tid_of_task_id _ _ Hi) as Hid. rewrite Htid in Hid. injection Hid as <-.
  unfold remove_tasks.
  assert (Hkeep : filter (λ x, str_of_id (task_id x) ∉ (list_to_set [tid] : gset string))
                         file = file).
  { apply filter_all, Forall_forall. intros x Hx Hin.
    apply elem_of_list_to_set, list_elem_of_singleton in Hin.
    destruct (task_id x) as [xi|] eqn:Hxi; simpl in Hin.
    - subst xi. apply Hnew, existing_ids_of_spec. exists x. split; [exact Hx|].
      unfold tid_of. rewrite Hxi, Hsfx. reflexivity.
    - rewrite Hsfx in Hin. discriminate. }
  rewrite filter_app, Hkeep.
  rewrite filter_cons_False, filter_nil, app_nil_r.
  2:{ intros Hout. apply Hout. rewrite Htid. cbn [str_of_id].
      apply elem_of_list_to_set. now left. }
  f_equal. rewrite length_app. simpl. lia.
Qed.

End Store.

Lemma length_filter_split {A} (P : A → Prop) `{∀ x, Decision (P x)} (l : list A) :
  length l = (length (filter P l) + length (filter (λ x, ¬ P x) l))%nat.
Proof.
  induction l as [|x l IH]; [reflexivity|].
  rewrite !filter_cons. destruct (decide (P x)) as [Hp|Hn].
  - rewrite decide_False by tauto. simpl. lia.
  - rewrite decide_True by assumption. simpl. lia.
Qed.

(** [remove_tasks] removes exactly the records whose id, written as a
    string, is among the ids given, and keeps the others in order; the
    number it returns is the number of records removed; with the empty
    list of ids it leaves the file alone; removing the same ids again
    removes nothing.  A record without an id goes when the text [None] is
    among the ids. *)
Theorem remove_tasks_removes_the_ids (task_ids : list string) (file : list task) :
  (remove_tasks task_ids file).2
  = filter (λ t, str_of_id (task_id t) ∉ task_ids) file
  ∧ (remove_tasks task_ids file).1
    = Z.of_nat (length (filter (λ t, str_of_id (task_id t) ∈ task_ids) file))
  ∧ remove_tasks task_ids (remove_tasks task_ids file).2
    = (0, (remove_tasks task_ids file).2).
Proof.
  assert (Hfilter : ∀ l : list task,
             filter (λ t, str_of_id (task_id t) ∉ (list_to_set task_ids : gset string)) l
             = filter (λ t, str_of_id (task_id t) ∉ task_ids) l).
  { intros l. apply list_filter_iff. intros x. now rewrite elem_of_list_to_set. }
  assert (Hidem : ∀ l : list task,
             filter (λ t, str_of_id (task_id t) ∉ task_ids)
                    (filter (λ t, str_of_id (task_id t) ∉ task_ids) l)
             = filter (λ t, str_of_id (task_id t) ∉ task_ids) l).
  { intros l. apply filter_all, Forall_forall. intros x Hx.
    apply list_elem_of_filter in Hx. tauto. }
  unfold remove_tasks. destruct task_ids as [|i ids].
  - simpl. split_and!; [| | reflexivity].
    + symmetry. apply filter_all, Forall_forall. intros x _ Hin.
      now apply elem_of_nil in Hin.
    + rewrite filter_none; [reflexivity|]. apply Forall_forall. intros x _ Hin.
      now apply elem_of_nil in Hin.
  - cbn [fst snd]. rewrite !Hfilter, Hidem. split_and!; [reflexivity | |].
    + rewrite (length_filter_split (λ t, str_of_id (task_id t) ∈ i :: ids) file).
      lia.
    + f_equal. lia.
Qed.

Lemma enqueue_extends (s : wstate) (t : task) :
  ∃ pushed, task_queue (enqueue s t) ≡ₚ task_queue s ++ pushed.
Proof.
  unfold enqueue. destruct (tid_of t) as [tid|];
    [|exists []; now rewrite app_nil_r].
  case_bool_decide; [exists []; now rewrite app_nil_r|].
  simpl. eexists. apply heappush_queue_perm.
Qed.

Lemma enqueue_all_extends (ts : list task) :
  ∀ s, ∃ pushed, task_queue (enqueue_all ts s) ≡ₚ task_queue s ++ pushed.
Proof.
  unfold enqueue_all. induction ts as [|t ts IH]; intros s; simpl.
  - exists []. now rewrite app_nil_r.
  - destruct (IH (enqueue s t)) as [pushed Hp].
    destruct (enqueue_extends s t) as [p1 Hp1].
    exists (p1 ++ pushed). now rewrite Hp, Hp1, <- app_assoc.
Qed.

(** What the dashboard removes from the pending store stays in the queue
    of the watcher: after any removal, the next poll leaves every entry
    that was queued in the queue, and only adds to it. *)
Theorem removal_does_not_dequeue
        (W : world) (fuel : nat) (task_ids : list string) (s s' : wstate) :
  poll W fuel (save_tasks (remove_tasks task_ids (TASK_FILE s)).2 s) = Ok s' →
  ∃ pushed, task_queue s' ≡ₚ task_queue s ++ pushed.
Proof.
  intros Hp. apply poll_inv in Hp as (ts' & k & -> & _).
  apply (enqueue_all_extends ts'
           (save_tasks ts' (set_tick k (save_tasks
              (remove_tasks task_ids (TASK_FILE s)).2 s)))).
Qed.

(** ** The tail of the log *)

Lemma tail_loop_prepends (log : list Byte.byte) (n : nat) (fuel : nat) :
  ∀ pos data, ∃ pre, tail_loop fuel log n pos data = pre ++ data.
Proof.
  induction fuel as [|fuel IH]; intros pos data; simpl.
  - now exists [].
  - destruct (_ && _); [|now exists []].
    destruct (_ =? 0)%nat; [eexists; reflexivity|].
    destruct (IH (pos - block)%nat (drop (pos - block) log ++ data)) as [pre ->].
    exists (pre ++ drop (pos - block) log). now rewrite <- app_assoc.
Qed.

(** More fuel than [pos] changes nothing: the loop never stops for lack
    of it. *)
Lemma tail_loop_fuel (log : list Byte.byte) (n : nat) (f1 : nat) :
  ∀ f2 pos data, (pos < f1)%nat → (pos < f2)%nat →
                 tail_loop f1 log n pos data = tail_loop f2 log n pos data.
Proof.
  induction f1 as [|f1 IH]; intros f2 pos data H1 H2; [lia|].
  destruct f2 as [|f2]; [lia|]. simpl.
  destruct (_ && _) eqn:Hc; [|reflexivity].
  destruct (Nat.eqb_spec (pos - block) 0) as [|Hne]; [reflexivity|].
  apply IH; unfold block in *; lia.
Qed.

Section TailLog.
Variable decode_lines : list Byte.byte → list string.

(** For a log that fits into one block of 4096 bytes, and for a longer
    one whose last block holds more than [n_lines] lines, [tail_log]
    shows the last [n_lines] lines of what it read: the whole file in the
    first case, the last block in the second. *)
Theorem tail_log_of_one_block (log : list Byte.byte) (n_lines : nat) :
  ((length log ≤ block)%nat →
   tail_log decode_lines (Some log) n_lines
   = String.concat newline (last_lines n_lines (decode_lines log)))
  ∧ ((block < length log)%nat →
     (n_lines < length (splitlines (last_block log)))%nat →
     tail_log decode_lines (Some log) n_lines
     = String.concat newline (last_lines n_lines (decode_lines (last_block log)))).
Proof.
  unfold tail_log, tail_data, last_block. split.
  - intros Hsmall. do 2 f_equal. f_equal. cbn [tail_loop]. simpl splitlines.
    destruct log as [|b log']; [reflexivity|].
    cbn [length Nat.leb andb Nat.ltb].
    replace (S (length log') - block)%nat with 0%nat by (simpl in Hsmall; lia).
    simpl. now rewrite app_nil_r.
  - intros Hbig Hlines. do 2 f_equal. f_equal. cbn [tail_loop]. simpl splitlines.
    cbn [length Nat.leb].
    destruct (Nat.ltb_spec 0 (length log)) as [_|]; [|lia]. cbn [andb].
    destruct (Nat.eqb_spec (length log - block) 0) as [|_]; [lia|].
    rewrite app_nil_r.
    destruct (length log) as [|m] eqn:Hm; [lia|]. cbn [tail_loop].
    destruct (Nat.leb_spec (length (splitlines (drop (S m - block) log))) n_lines)
      as [|_]; [lia|].
    reflexivity.
Qed.

End TailLog.

(** For a log longer than one block whose last block holds at most
    [n_lines] lines, the loop reads on, and every further pass puts the
    file from the new position to its end in front of what it has: the
    buffer of which [tail_log] shows the last lines ends with the last
    block of the file twice. *)
Theorem tail_log_repeats_last_block (log : list Byte.byte) (n_lines : nat) :
  (block < length log)%nat →
  (length (splitlines (last_block log)) ≤ n_lines)%nat →
  ∃ pre, tail_data log n_lines = pre ++ last_block log ++ last_block log.
Proof.
  intros Hbig Hlines. unfold tail_data, last_block in *.
  assert (Hdata : ∃ pre, tail_loop (S (length log)) log n_lines (length log) []
                         = pre ++ drop (length log - block - block) log
                               ++ drop (length log - block) log).
  { cbn [tail_loop]. simpl splitlines. cbn [length Nat.leb].
    destruct (Nat.ltb_spec 0 (length log)) as [_|]; [|lia]. cbn [andb].
    destruct (Nat.eqb_spec (length log - block) 0) as [|_]; [lia|].
    rewrite app_nil_r.
    destruct (length log) as [|m] eqn:Hm; [lia|]. cbn [tail_loop].
    destruct (Nat.leb_spec (length (splitlines (drop (S m - block) log))) n_lines)
      as [_|]; [|lia].
    destruct (Nat.ltb_spec 0 (S m - block)) as [_|]; [|lia]. cbn [andb].
    destruct (_ =? 0)%nat; [now exists []|].
    apply tail_loop_prepends. }
  destruct Hdata as [pre Hdata].
  assert (Hsplit : drop (length log - block - block) log
                   = take (length log - block - (length log - block - block))
                          (drop (length log - block - block) log)
                     ++ drop (length log - block) log).
  { rewrite <- (take_drop (length log - block - (length log - block - block))
                          (drop (length log - block - block) log)) at 1.
    f_equal. rewrite drop_drop. f_equal. lia. }
  exists (pre ++ take (length log - block - (length log - block - block))
                      (drop (length log - block - block) log)).
  rewrite Hdata. rewrite Hsplit at 1. now rewrite <- !app_assoc.
Qed.

Lemma add_task_appends_fresh_witness :
  ∃ t file' k',
    add_task accepting 5 "task" "URGENT" None (TASK_FILE polled0) (tick polled0)
    = Ok (t, file', k')
    ∧ file' = TASK_FILE polled0 ++ [t]
    ∧ attempts t = None
    ∧ get_priority t = 0.
Proof.
  destruct (add_task accepting 5 "task" "URGENT" None (TASK_FILE polled0) (tick polled0))
    as [[[t file'] k']| |] eqn:H; [|vm_compute in H; discriminate..].
  destruct (add_task_appends_fresh accepting _ _ _ _ _ _ _ _ _ H)
    as (Hf & _ & Ha & _ & Hp).
  exists t, file', k'. split_and!; [reflexivity | exact Hf | exact Ha |].
  rewrite (Hp eq_refl). vm_compute. reflexivity.
Defined.

Ltac in_sample_set := apply (bool_decide_unpack _); vm_compute; exact I.

Lemma added_task_is_enqueued_witness :
  ∃ s', poll accepting 0 (save_tasks added0.1.2 polled0) = Ok s'
        ∧ seq s' = S (seq polled0)
        ∧ length (task_queue s') = S (length (task_queue polled0)).
Proof.
  eexists. split.
  - apply (added_task_is_enqueued accepting 5 0 "task" "URGENT" "  inspect the gripper "
             polled0 added0.1.2 (tick polled0) added0.2 added0.1.1 "Task-zz94").
    + repeat constructor; eexists; vm_compute; reflexivity.
    + intros x i Hx Hi. vm_compute in Hx.
      repeat (apply elem_of_cons in Hx as [->|Hx];
              [vm_compute in Hi; injection Hi as <-; in_sample_set|]).
      now apply elem_of_nil in Hx.
    + vm_compute. reflexivity.
    + vm_compute. reflexivity.
    + intros Hin. revert Hin. apply (bool_decide_unpack _). vm_compute. exact I.
  - split; [reflexivity|]. vm_compute. reflexivity.
Defined.

Lemma add_then_remove_restores_witness :
  remove_tasks ["Task-zz94"] added0.1.2 = (1, TASK_FILE polled0).
Proof.
  apply (add_then_remove_restores accepting 5 "task" "URGENT"
           (Some (mkPayload (Some "urgent") (Some "inspect the gripper")
                            None None None None))
           (TASK_FILE polled0) added0.1.2 (tick polled0) added0.2 added0.1.1).
  - vm_compute. reflexivity.
  - vm_compute. reflexivity.
Defined.

Lemma removal_does_not_dequeue_witness :
  ∃ s' pushed,
    poll accepting 0 (save_tasks (remove_tasks ["Task-a1b2"] (TASK_FILE polled0)).2 polled0)
    = Ok s'
    ∧ length (TASK_FILE s') = 2%nat
    ∧ task_queue s' ≡ₚ task_queue polled0 ++ pushed.
Proof.
  destruct (poll accepting 0
              (save_tasks (remove_tasks ["Task-a1b2"] (TASK_FILE polled0)).2 polled0))
    as [s'| |] eqn:Hp; [|vm_compute in Hp; discriminate..].
  destruct (removal_does_not_dequeue accepting 0 ["Task-a1b2"] polled0 s' Hp)
    as [pushed Hq].
  exists s', pushed. split_and!; [reflexivity | | exact Hq].
  vm_compute in Hp. injection Hp as <-. reflexivity.
Defined.

Lemma tail_log_repeats_last_block_witness :
  (length long_line < length (tail_data long_line 300))%nat
  ∧ ∃ pre, tail_data long_line 300
           = pre ++ last_block long_line ++ last_block long_line.
Proof.
  split; [apply Nat.ltb_lt; vm_compute; reflexivity|].
  apply (tail_log_repeats_last_block long_line 300).
  - vm_compute. lia.
  - vm_compute. lia.
Defined.

End DashboardFacts.
